(** * A shallow embedding of the [gen] parser-generator toolkit

  The development follows the Go packages of the repository:
  - [codegen]: the line-oriented code writer;
  - [lr]: grammar model, FIRST/FOLLOW, LR(0) item sets, action table,
    table emission and the [lr] driver;
  - [lex]: token file reader, symbol trie and the [lex] driver.

  Go maps used as sets or dictionaries are finite sets and maps ([gset],
  [gmap]).  A Go [range] over a map visits the keys in an order the
  language leaves unspecified; wherever that order can reach the result
  it is an explicit argument (record [MapOrder]).  Rules are referred to
  by pointer in the source ([*Rule]); here a rule is referred to by its
  index in [grammar.rules], which is what pointer identity amounts to,
  every rule being allocated once by the rule extractor. *)

From Stdlib Require Import ZArith DecimalString Ascii String.
From stdpp Require Import gmap strings list fin_maps fin_sets sorting.

Set Warnings "-register-all,-clear-no-such-hyp".
Open Scope string_scope.
Open Scope list_scope.
Open Scope nat_scope.

(** ** Results of partial computations

  [Panic] is a Go run-time panic (index out of range) or [log.Fatalf];
  [OutOfFuel] means that the bound given to an unbounded loop was too
  small. *)

Inductive res (A : Type) : Type :=
  | Ok (a : A)
  | Panic
  | OutOfFuel.
Arguments Ok {A} a.
Arguments Panic {A}.
Arguments OutOfFuel {A}.

#[global] Instance res_bind : MBind res := λ A B k m,
  match m with
  | Ok a => k a
  | Panic => Panic
  | OutOfFuel => OutOfFuel
  end.

(** Left fold of a fallible step over a slice. *)
Fixpoint res_foldl {A B} (f : A → B → res A) (a : A) (l : list B) : res A :=
  match l with
  | [] => Ok a
  | b :: l => a' ← f a b; res_foldl f a' l
  end.

(** The computation ended with a result, and the result satisfies [P]. *)
Definition holds {A} (m : res A) (P : A → Prop) : Prop :=
  match m with
  | Ok a => P a
  | _ => False
  end.

(** ** Package [codegen] *)

Module codegen.

(** [Writer] embeds a [bytes.Buffer]: the bytes written so far. *)
Record Writer := mkWriter { buf : string }.

(** [&codegen.Writer{}] *)
Definition empty : Writer := mkWriter "".

(** A newline is the byte 10. *)
Definition nl : string := String "010" "".

(** [io.WriteString(w, text)] *)
Definition WriteString (w : Writer) (text : string) : Writer :=
  mkWriter (buf w +:+ text).

(** [Line] emits a line of text.  [Linef] does the same after [fmt] has
    expanded the format; its callers below pass the expanded text. *)
Definition Line (w : Writer) (text : string) : Writer :=
  WriteString w (text +:+ nl).

(** [Raw] returns the raw generated source. *)
Definition Raw (w : Writer) : string := buf w.

(** [Fmt] hands the raw buffer to [go/format.Source], which is not part
    of the repository: it is the parameter [format_Source], returning
    either the formatted bytes or an error message. *)
Definition Fmt (format_Source : string → string + string) (w : Writer)
  : string + string :=
  format_Source (Raw w).

End codegen.

(** ** Package [lr]: grammars *)

Module lr.

(** [SymbolSet] is [map[string]bool] holding only [true]; [SymbolMap] is
    [map[string]SymbolSet].  Reading a missing key of a [SymbolMap]
    gives the nil set, which behaves as the empty set. *)
Abbreviation SymbolSet := (gset string).
Abbreviation SymbolMap := (gmap string (gset string)).

Definition SymbolSet_Add (ss : SymbolSet) (s : string) : SymbolSet :=
  {[ s ]} ∪ ss.

Definition SymbolSet_Has (ss : SymbolSet) (s : string) : bool :=
  bool_decide (s ∈ ss).

(** [Merge] adds every key of [other] and reports whether the set grew. *)
Definition SymbolSet_Merge (ss other : SymbolSet) : SymbolSet * bool :=
  let l := size ss in
  let ss' := ss ∪ other in
  (ss', negb (Nat.eqb (size ss') l)).

Record Rule := mkRule {
  symbol : string;
  typ : string;
  pattern : list string;
  vars : list string;
  code : string
}.

Record Grammar := mkGrammar {
  rules : list Rule;
  symbols : SymbolSet;
  terminals : SymbolSet;
  nonterminals : SymbolSet
}.

(** [&Grammar{rules: rules}] *)
Definition newGrammar (rs : list Rule) : Grammar := mkGrammar rs ∅ ∅ ∅.

(** [CollectSymbols] (the trace output is left out). *)
Definition CollectSymbols (g : Grammar) : Grammar :=
  let '(nts, syms) :=
    foldl (λ '(nts, syms) rule,
             (SymbolSet_Add nts (symbol rule), SymbolSet_Add syms (symbol rule)))
          (∅, ∅) (rules g) in
  let '(syms, terms) :=
    foldl (λ acc rule,
             foldl (λ '(syms, terms) sym,
                      (SymbolSet_Add syms sym,
                       if SymbolSet_Has nts sym then terms
                       else SymbolSet_Add terms sym))
                   acc (pattern rule))
          (syms, ∅) (rules g) in
  mkGrammar (rules g) syms terms nts.

(** One round of the "iterate until stable" loop of [First]:
    [for _, set := range first { for symbol := range set { ... } }].
    [set] aliases [first[key]], so a merge updates the map in place. *)
Definition First_inner (key : string) (st : SymbolMap * bool) (sym : string)
  : SymbolMap * bool :=
  let '(first, changed) := st in
  let '(set', grew) := SymbolSet_Merge (first !!! key) (first !!! sym) in
  (<[key := set']> first, changed || grew).

Definition First_pass (first : SymbolMap) : SymbolMap * bool :=
  foldl (λ st key, foldl (First_inner key) st (elements (st.1 !!! key)))
        (first, false) (elements (dom first)).

Fixpoint First_loop (fuel : nat) (first : SymbolMap) : res SymbolMap :=
  match fuel with
  | 0 => OutOfFuel
  | S fuel =>
      let '(first', changed) := First_pass first in
      if changed then First_loop fuel first' else Ok first'
  end.

(** Seeding of [first]: terminals point to themselves, then every rule
    contributes the head of its pattern ([rule.pattern[0]] panics on an
    empty pattern). *)
Definition First_seed (g : Grammar) : res SymbolMap :=
  let first0 : SymbolMap :=
    foldl (λ first sym, <[sym := SymbolSet_Add ∅ sym]> first)
          ∅ (elements (terminals g)) in
  res_foldl (λ first rule,
               match pattern rule with
               | [] => Panic
               | p0 :: _ =>
                   Ok (<[symbol rule := SymbolSet_Add (first !!! symbol rule) p0]> first)
               end)
            first0 (rules g).

(** [First] runs [CollectSymbols] on the grammar (a pointer receiver), so
    the updated grammar is returned next to the map. *)
Definition First (fuel : nat) (g : Grammar) : res (Grammar * SymbolMap) :=
  let g := CollectSymbols g in
  first ← First_seed g;
  first ← First_loop fuel first;
  Ok (g, first).

(** One round of the loop of [Follow], over the rules and the positions
    of each pattern.  [set] is [follow[patSym]], created when nil. *)
Definition Follow_pos (first : SymbolMap) (rule : Rule)
    (st : SymbolMap * bool) (ip : nat * string) : SymbolMap * bool :=
  let '(follow, changed) := st in
  let '(i, patSym) := ip in
  let set := follow !!! patSym in
  let follow := <[patSym := set]> follow in
  let '(set', grew) :=
    if decide (i + 1 < length (pattern rule))
    then SymbolSet_Merge set (first !!! (nth (i + 1) (pattern rule) ""))
    else SymbolSet_Merge set (follow !!! symbol rule) in
  (<[patSym := set']> follow, changed || grew).

Definition Follow_pass (g : Grammar) (first follow : SymbolMap)
  : SymbolMap * bool :=
  foldl (λ st rule, foldl (Follow_pos first rule) st (imap pair (pattern rule)))
        (follow, false) (rules g).

Fixpoint Follow_loop (fuel : nat) (g : Grammar) (first follow : SymbolMap)
  : res SymbolMap :=
  match fuel with
  | 0 => OutOfFuel
  | S fuel =>
      let '(follow', changed) := Follow_pass g first follow in
      if changed then Follow_loop fuel g first follow' else Ok follow'
  end.

Definition Follow (fuel : nat) (g : Grammar) (first : SymbolMap)
  : res SymbolMap :=
  match rules g with
  | [] => Panic
  | r0 :: _ =>
      let init := SymbolSet_Add ∅ "$" in
      Follow_loop fuel g first {[ symbol r0 := init ]}
  end.


(** ** Package [lr]: items, closure, goto *)

(** [Action]: the source's empty interface holds a [Shift] or a [Reduce];
    an absent map entry is the nil action.  [Reduce] holds the rule by
    its index. *)
Inductive Action :=
  | Shift (state : nat)
  | Reduce (rule : nat).

#[global] Instance Action_eq_dec : EqDecision Action.
Proof. solve_decision. Defined.

Abbreviation ActionTable := (list (gmap string Action)).

(** [Item]: a rule (by index) and the offset of the dot. *)
Record Item := mkItem { rule : nat; pos : nat }.

#[global] Instance Item_eq_dec : EqDecision Item.
Proof. solve_decision. Defined.

#[global] Instance Item_countable : Countable Item :=
  inj_countable' (λ it, (rule it, pos it)) (λ p, mkItem p.1 p.2)
                 (λ it, match it with mkItem _ _ => eq_refl end).

Abbreviation ItemSet := (gset Item).

(** The rule an item points to.  Every item built below has an index
    inside [grammar.rules] (lemma [Item_ok] and its uses), so the default
    is never read. *)
Definition Item_rule (g : Grammar) (it : Item) : Rule :=
  default (mkRule "" "" [] [] "") (rules g !! rule it).

(** [NextSym]: the symbol after the dot, and whether the dot is at the
    end.  ([i.rule.pattern[i.pos]] with the dot beyond the end would
    panic; no item built below is in that case.) *)
Definition NextSym (g : Grammar) (it : Item) : string * bool :=
  let pat := pattern (Item_rule g it) in
  if decide (pos it = length pat) then ("", true)
  else (nth (pos it) pat "", false).

Definition ItemSet_Add (iset : ItemSet) (it : Item) : ItemSet := {[ it ]} ∪ iset.
Definition ItemSet_Has (iset : ItemSet) (it : Item) : bool := bool_decide (it ∈ iset).
Definition ItemSet_Empty (iset : ItemSet) : bool := Nat.eqb (size iset) 0.

(** [Equals]: same length, and every key of [is] is in [os]. *)
Definition ItemSet_Equals (iset os : ItemSet) : bool :=
  if negb (Nat.eqb (size iset) (size os)) then false
  else forallb (λ k, ItemSet_Has os k) (elements iset).

(** One [for item := range is] round of [Closure].  The round mutates the
    set it ranges over; Go then leaves open whether the new items are
    visited in the same round.  Here a round visits the items present at
    its start; the loop stops after a round that adds nothing, and by
    then every item has been visited with all its expansions present
    (lemma [Closure_closed]). *)
Definition Closure_rule (sym : string) (st : ItemSet * gset string * bool)
    (ir : nat * Rule) : ItemSet * gset string * bool :=
  let '(iset, added, changed) := st in
  let '(ri, r) := ir in
  if decide (symbol r = sym)
  then (ItemSet_Add iset (mkItem ri 0), SymbolSet_Add added sym, true)
  else st.

Definition Closure_item (g : Grammar) (st : ItemSet * gset string * bool)
    (item : Item) : ItemSet * gset string * bool :=
  let '(sym, end_) := NextSym g item in
  if end_ then st
  else if SymbolSet_Has st.1.2 sym then st
  else foldl (Closure_rule sym) st (imap pair (rules g)).

Definition Closure_pass (g : Grammar) (iset : ItemSet) (added : gset string)
  : ItemSet * gset string * bool :=
  foldl (Closure_item g) (iset, added, false) (elements iset).

(** [for changed := true; changed; { ... }]: each round that changes
    something marks a new left-hand side in [added], so the number of
    rules bounds the number of such rounds. *)
Fixpoint Closure_loop (n : nat) (g : Grammar) (iset : ItemSet)
    (added : gset string) : ItemSet :=
  match n with
  | 0 => iset
  | S n =>
      let '(iset', added', changed) := Closure_pass g iset added in
      if changed then Closure_loop n g iset' added' else iset'
  end.

Definition Closure (g : Grammar) (iset : ItemSet) : ItemSet :=
  Closure_loop (S (length (rules g))) g iset ∅.

(** [Goto]: advance the dot over [x], then close. *)
Definition Goto (g : Grammar) (iset : ItemSet) (x : string) : ItemSet :=
  let out :=
    foldl (λ out item,
             let '(sym, end_) := NextSym g item in
             if negb end_ && bool_decide (sym = x)
             then ItemSet_Add out (mkItem (rule item) (pos item + 1))
             else out)
          ∅ (elements iset) in
  Closure g out.

(** ** Package [lr]: the action table *)

(** The orders in which the [range] loops of [ComputeActions] visit their
    maps: the grammar's symbols in round [i] of the state loop, and, in
    the reduce loop, the items of state [i] and the follow set of an
    item's rule. *)
Record MapOrder := mkMapOrder {
  symRange : nat → gset string → list string;
  itemRange : nat → ItemSet → list Item;
  termRange : nat → Item → gset string → list string
}.

(** A [range] visits every key once. *)
Definition MapOrder_ok (o : MapOrder) : Prop :=
  (∀ i s, symRange o i s ≡ₚ elements s) ∧
  (∀ i s, itemRange o i s ≡ₚ elements s) ∧
  (∀ i it s, termRange o i it s ≡ₚ elements s).

(** The diagnostic printed on a conflict: the item set of the state (its
    dump), the state, the input, the action found and the rule. *)
Record Conflict := mkConflict {
  c_set : ItemSet;
  c_state : nat;
  c_input : string;
  c_found : Action;
  c_rule : nat
}.

(** [for j, oset := range states { if c.Equals(oset) { id = j; break } }] *)
Fixpoint findState (c : ItemSet) (states : list ItemSet) (j : nat)
  : option nat :=
  match states with
  | [] => None
  | oset :: rest =>
      if ItemSet_Equals c oset then Some j else findState c rest (S j)
  end.

(** The body of [for term := range grammar.symbols]. *)
Definition Shift_step (g : Grammar) (set : ItemSet)
    (st : list ItemSet * gmap string Action) (term : string)
  : list ItemSet * gmap string Action :=
  let '(states, actions) := st in
  let c := Goto g set term in
  if ItemSet_Empty c then st
  else
    match findState c states 0 with
    | Some id => (states, <[term := Shift id]> actions)
    | None =>
        let states := states ++ [c] in
        (states, <[term := Shift (length states - 1)]> actions)
    end.

(** [for i := 0; i < len(states); i++]; the row of state [i] is appended
    to the table once filled (the source appends the map first and fills
    it through the alias). *)
Fixpoint Shift_loop (fuel : nat) (o : MapOrder) (g : Grammar) (i : nat)
    (states : list ItemSet) (allActions : ActionTable)
  : res (list ItemSet * ActionTable) :=
  match states !! i with
  | None => Ok (states, allActions)
  | Some set =>
      match fuel with
      | 0 => OutOfFuel
      | S fuel =>
          let '(states, actions) :=
            foldl (Shift_step g set) (states, ∅) (symRange o i (symbols g)) in
          Shift_loop fuel o g (i + 1) states (allActions ++ [actions])
      end
  end.

(** The body of [for term := range f]: the conflict report when the cell
    is taken, then the store. *)
Definition Reduce_term (set : ItemSet) (i : nat) (item : Item)
    (st : gmap string Action * list Conflict) (term : string)
  : gmap string Action * list Conflict :=
  let '(actions, log) := st in
  let log :=
    match actions !! term with
    | Some found => log ++ [mkConflict set i term found (rule item)]
    | None => log
    end in
  (<[term := Reduce (rule item)]> actions, log).

Definition Reduce_item (o : MapOrder) (g : Grammar) (follow : SymbolMap)
    (set : ItemSet) (i : nat)
    (st : gmap string Action * list Conflict) (item : Item)
  : gmap string Action * list Conflict :=
  if negb (NextSym g item).2 then st
  else
    let f := follow !!! symbol (Item_rule g item) in
    foldl (Reduce_term set i item) st (termRange o i item f).

(** [for i, set := range states]; [allActions[i]] panics when the table
    is shorter than the state list. *)
Definition Reduce_state (o : MapOrder) (g : Grammar) (follow : SymbolMap)
    (st : ActionTable * list Conflict) (iset : nat * ItemSet)
  : res (ActionTable * list Conflict) :=
  let '(allActions, log) := st in
  let '(i, set) := iset in
  match allActions !! i with
  | None => Panic
  | Some actions =>
      let '(actions, log) :=
        foldl (Reduce_item o g follow set i) (actions, log) (itemRange o i set) in
      Ok (<[i := actions]> allActions, log)
  end.

Definition Reduce_loop (o : MapOrder) (g : Grammar) (follow : SymbolMap)
    (states : list ItemSet) (allActions : ActionTable)
  : res (ActionTable * list Conflict) :=
  res_foldl (Reduce_state o g follow) (allActions, []) (imap pair states).

(** The first half of [ComputeActions]: FIRST, FOLLOW, and the state list
    with the shift entries. *)
Definition ComputeStates (fuel : nat) (o : MapOrder) (g : Grammar)
  : res (Grammar * SymbolMap * list ItemSet * ActionTable) :=
  '(g, first) ← First fuel g;
  follow ← Follow fuel g first;
  match rules g with
  | [] => Panic
  | _ :: _ =>
      let states := [Closure g {[ mkItem 0 0 ]}] in
      '(states, allActions) ← Shift_loop fuel o g 0 states [];
      Ok (g, follow, states, allActions)
  end.

(** [ComputeActions] returns the table; the conflict reports go to the
    process-wide logger and are returned next to it. *)
Definition ComputeActions (fuel : nat) (o : MapOrder) (g : Grammar)
  : res (ActionTable * list Conflict) :=
  '(g, follow, states, allActions) ← ComputeStates fuel o g;
  Reduce_loop o g follow states allActions.

(** ** Package [lr]: emitting the tables *)

(** [fmt]'s [%d]. *)
Definition itoa (z : Z) : string := NilZero.string_of_int (Z.to_int z).

(** [sort.Strings] orders strings byte by byte. *)
Definition str_le (a b : string) : Prop := String.leb a b = true.

#[global] Instance str_le_dec : RelDecision str_le.
Proof. intros a b. unfold str_le. apply _. Defined.

Definition sort_Strings (keys : list string) : list string :=
  merge_sort str_le keys.

(** [strings.Trim(s, cutset)] *)
Fixpoint TrimLeft (s : string) (cutset : list ascii) : string :=
  match s with
  | "" => ""
  | String c rest =>
      if bool_decide (c ∈ cutset) then TrimLeft rest cutset else s
  end.

Fixpoint TrimRight (s : string) (cutset : list ascii) : string :=
  match s with
  | "" => ""
  | String c rest =>
      match TrimRight rest cutset with
      | "" => if bool_decide (c ∈ cutset) then "" else String c ""
      | rest' => String c rest'
      end
  end.

Definition Trim (s : string) (cutset : list ascii) : string :=
  TrimRight (TrimLeft s cutset) cutset.

Section Emit.

(** [fmt]'s [%q] ([strconv.Quote]) belongs to the Go library. *)
Variable quote : string → string.

(** [%#v] of a (non-nil) [[]string]. *)
Definition gosyntax (l : list string) : string :=
  "[]string{" +:+ String.concat ", " (map quote l) +:+ "}".

(** The binding of a pattern variable in a semantic action; the lookup
    [rule.pattern[j]] panics beyond the pattern. *)
Definition writeVar (types : gmap string string) (r : Rule)
    (w : codegen.Writer) (jv : nat * string) : res codegen.Writer :=
  let '(j, varname) := jv in
  if decide (varname = "") then Ok w
  else
    match pattern r !! j with
    | None => Panic
    | Some sym =>
        let typ := default "" (types !! sym) in
        let typ := if decide (typ = "") then "Tok" else typ in
        Ok (codegen.Line w (varname +:+ " := data[" +:+ itoa (Z.of_nat j)
                              +:+ "].(" +:+ typ +:+ ")"))
    end.

Definition writeRule (types : gmap string string) (w : codegen.Writer)
    (r : Rule) : res codegen.Writer :=
  let w := codegen.Line w ("{" +:+ quote (symbol r) +:+ ", "
                             +:+ gosyntax (pattern r) +:+ ",") in
  w ← (if decide (code r = "") then Ok (codegen.Line w "nil,")
       else
         let w := codegen.Line w "func(data []interface{}) interface{} {" in
         w ← res_foldl (writeVar types r) w (imap pair (vars r));
         let w := codegen.Line w (Trim (code r) [" "; "009"; "010"]%char) in
         Ok (codegen.Line w "},"));
  Ok (codegen.Line w "},").

(** [ruleIds[rule] = i] for every rule of the grammar. *)
Definition ruleIdsOf (g : Grammar) : gmap nat nat :=
  foldl (λ ids ir, <[ir.1 := ir.1]> ids) ∅ (imap pair (rules g)).

(** One entry of a row: [action := state[tok]], the type switch and the
    [Linef].  A rule missing from [ruleIds] reads as 0. *)
Definition writeEntry (ruleIds : gmap nat nat) (state : gmap string Action)
    (w : codegen.Writer) (tok : string) : res codegen.Writer :=
  match state !! tok with
  | Some (Shift st) =>
      Ok (codegen.Line w (quote tok +:+ ": " +:+ itoa (Z.of_nat st) +:+ ","))
  | Some (Reduce r) =>
      Ok (codegen.Line w (quote tok +:+ ": "
                            +:+ itoa (- Z.of_nat (default 0 (ruleIds !! r))) +:+ ","))
  | None => Panic
  end.

(** One row: the keys are collected in map order and then sorted. *)
Definition writeRow (keyRange : gmap string Action → list string)
    (ruleIds : gmap nat nat) (w : codegen.Writer)
    (state : gmap string Action) : res codegen.Writer :=
  let w := codegen.Line w "{" in
  let keys := sort_Strings (keyRange state) in
  w ← res_foldl (writeEntry ruleIds state) w keys;
  Ok (codegen.Line w "},").

(** The second half of [writeTables]: the action table. *)
Definition writeActions (keyRange : gmap string Action → list string)
    (ruleIds : gmap nat nat) (w : codegen.Writer) (prefix : string)
    (table : ActionTable) : res codegen.Writer :=
  let w := codegen.Line w ("var " +:+ prefix +:+ "Actions = " +:+ prefix
                             +:+ "ActionTable{") in
  w ← res_foldl (writeRow keyRange ruleIds) w table;
  Ok (codegen.Line w "}").

(** [writeTables]: the rule list, an empty line, the action table.
    [keyRange] is the order of [for k := range state]. *)
Definition writeTables (keyRange : gmap string Action → list string)
    (w : codegen.Writer) (prefix : string) (g : Grammar)
    (table : ActionTable) : res codegen.Writer :=
  let types : gmap string string :=
    foldl (λ types r, <[symbol r := typ r]> types) ∅ (rules g) in
  let w := codegen.Line w ("var " +:+ prefix +:+ "Rules = []*" +:+ prefix
                             +:+ "Rule{") in
  let ruleIds := ruleIdsOf g in
  w ← res_foldl (writeRule types) w (rules g);
  let w := codegen.Line w "}" in
  let w := codegen.Line w "" in
  writeActions keyRange ruleIds w prefix table.

End Emit.

(** ** Package [lr]: reading patterns, and the driver *)

(** [strings.Split(s, sep)] for a one-byte separator. *)
Fixpoint Split (s : string) (sep : ascii) : list string :=
  match s with
  | "" => [""]
  | String c rest =>
      let r := Split rest sep in
      if decide (c = sep) then "" :: r
      else match r with
           | hd :: tl => String c hd :: tl
           | [] => [String c ""]
           end
  end.

(** The test of [parsePattern] on one element:
    [len(pat) > 2 && pat[0] != '\'' && pat[1] == '=']. *)
Definition isVarPattern (pat : string) : bool :=
  bool_decide (2 < String.length pat)
  && negb (bool_decide (String.get 0 pat = Some "'"%char))
  && bool_decide (String.get 1 pat = Some "="%char).

Definition parsePattern_step (st : list string * list string)
    (ip : nat * string) : list string * list string :=
  let '(pattern, vars) := st in
  let '(i, pat) := ip in
  if isVarPattern pat
  then (<[i := String.substring 2 (String.length pat - 2) pat]> pattern,
        <[i := String.substring 0 1 pat]> vars)
  else st.

Definition parsePattern (patternStr : string) : list string * list string :=
  let pattern := Split patternStr " " in
  let vars := replicate (length pattern) "" in
  foldl parsePattern_step (pattern, vars) (imap pair pattern).

Record Params := mkParams {
  Prefix : string;
  Package : string;
  TokenType : string;
  Trace : bool
}.

(** What a run returns: the code, or an error. *)
Inductive outcome :=
  | Code (code : string)
  | Error (msg : string).

Section Driver.

Variable quote : string → string.
(** [go/format.Source] *)
Variable format_Source : string → string + string.
(** The text that [text/template] produces from [parseTemplate] (a
    constant the sources above do not include) for given parameters. *)
Variable template : Params → string.

(** The buffer that [Main] builds from the parameters and the rules. *)
Definition emit (fuel : nat) (o : MapOrder)
    (keyRange : gmap string Action → list string)
    (params : Params) (rs : list Rule) : res codegen.Writer :=
  (* [ComputeActions] fills the symbol sets of [g] in place; what
     follows reads [g.rules] only. *)
  let g := newGrammar rs in
  '(actions, _) ← ComputeActions fuel o g;
  let w := codegen.empty in
  let w := codegen.WriteString w (template params) in
  let w := codegen.Line w "// Result returns the final result of a successful parse." in
  match rules g with
  | [] => Panic
  | r0 :: _ =>
      let w := codegen.Line w ("func (p *" +:+ Prefix params +:+ "Parser) Result() "
                                 +:+ typ r0 +:+ " {") in
      let w := codegen.Line w ("return p.data[0].(" +:+ typ r0 +:+ ")") in
      let w := codegen.Line w "}" in
      writeTables quote keyRange w (Prefix params) g actions
  end.

(** [Main], after [Parse] (which goes through [go/parser]) has returned
    [parsed]: an error, or the parameters and the rules. *)
Definition Main (fuel : nat) (o : MapOrder)
    (keyRange : gmap string Action → list string)
    (parsed : string + Params * list Rule) : res outcome :=
  match parsed with
  | inl err => Ok (Error err)
  | inr (params, rs) =>
      w ← emit fuel o keyRange params rs;
      match codegen.Fmt format_Source w with
      | inr err =>
          Ok (Error ("error formatting code: " +:+ err +:+ codegen.nl
                       +:+ "code: " +:+ codegen.Raw w +:+ codegen.nl))
      | inl code => Ok (Code code)
      end
  end.

End Driver.

End lr.

(** ** Package [lex] *)

Module lex.

Inductive BlockId :=
  | BlockSpecial
  | BlockSymbol
  | BlockKeyword.

#[global] Instance BlockId_eq_dec : EqDecision BlockId.
Proof. solve_decision. Defined.

Record Token := mkToken {
  name : string;
  value : string;
  block : BlockId
}.

(** The last byte of a word, and the word without it. *)
Fixpoint lastByte (s : string) : option ascii :=
  match s with
  | "" => None
  | String c "" => Some c
  | String _ rest => lastByte rest
  end.

Definition dropLast (s : string) : string :=
  String.substring 0 (String.length s - 1) s.

(** The [switch name] of [ReadTokens]; [None] is the [log.Fatalf] of the
    default case. *)
Definition blockOf (name : string) : option BlockId :=
  if decide (name = "specials") then Some BlockSpecial
  else if decide (name = "symbols") then Some BlockSymbol
  else if decide (name = "keywords") then Some BlockKeyword
  else None.

(** [ReadTokens], on the words that [bufio.ScanWords] delivers (the scanner
    is the Go library's; it delivers no empty word, and on an empty word
    [name[len(name)-1]] would panic).  [id] starts as the zero [BlockId]. *)
Fixpoint ReadTokens_loop (words : list string) (id : BlockId)
    (tokens : list Token) : res (list Token) :=
  match words with
  | [] => Ok tokens
  | name :: rest =>
      match lastByte name with
      | None => Panic
      | Some c =>
          if decide (c = ":"%char) then
            match blockOf (dropLast name) with
            | Some id => ReadTokens_loop rest id tokens
            | None => Panic
            end
          else
            match rest with
            | [] => Ok tokens
            | value :: rest =>
                ReadTokens_loop rest id (tokens ++ [mkToken name value id])
            end
      end
  end.

Definition ReadTokens (words : list string) : res (list Token) :=
  ReadTokens_loop words BlockSpecial [].

Section Emit.

Variable quote : string → string.

(** [fmt]'s [%c] of a byte: the UTF-8 encoding of the code point. *)
Definition fmt_c (b : ascii) : string :=
  let n := N_of_ascii b in
  if (n <? 128)%N then String b ""
  else String (ascii_of_N (192 + n / 64)) (String (ascii_of_N (128 + n mod 64)) "").

Definition writeTokenIds (w : codegen.Writer) (tokens : list Token)
  : codegen.Writer :=
  let w := codegen.Line w "const (" in
  let w :=
    foldl (λ w it,
             if decide (it.1 = 0)
             then codegen.Line w ("t" +:+ name it.2 +:+ " TokenId = iota")
             else codegen.Line w ("t" +:+ name it.2))
          w (imap pair tokens) in
  codegen.Line w ")".

Definition writeTokenNames (w : codegen.Writer) (tokens : list Token)
  : codegen.Writer :=
  let w := codegen.Line w "var TokNames = []string{" in
  let w :=
    foldl (λ w t, codegen.Line w (String "034" (value t) +:+ String "034" ","))
          w tokens in
  codegen.Line w "}".

Definition writeTokenLookup (w : codegen.Writer) (tokens : list Token)
  : codegen.Writer :=
  let w := codegen.Line w "var TokIds = map[string]TokenId{" in
  let w :=
    foldl (λ w t, codegen.Line w (quote (value t) +:+ ": t" +:+ name t +:+ ","))
          w tokens in
  codegen.Line w "}".

Definition writeKeywords (w : codegen.Writer) (tokens : list Token)
  : codegen.Writer :=
  let w := codegen.Line w "var Keywords = map[string]TokenId{" in
  let w :=
    foldl (λ w t,
             if decide (block t = BlockKeyword)
             then codegen.Line w (quote (value t) +:+ ": t" +:+ name t +:+ ",")
             else w)
          w tokens in
  codegen.Line w "}".

(** [symM]: a node of the symbol trie.  A nil [next] and an empty one are
    the same map here; [add] never leaves an empty non-nil map. *)
Inductive symM := mkSymM { accept : string; next : gmap ascii symM }.

(** The zero [symM]. *)
Definition symM_zero : symM := mkSymM "" ∅.

(** [add]: the source updates the nodes in place through pointers; here
    the updated node is returned and stored back. *)
Fixpoint add (s : symM) (input : string) (acc : string) : symM :=
  match input with
  | "" => mkSymM acc (next s)
  | String c rest =>
      let ns := default symM_zero (next s !! c) in
      mkSymM (accept s) (<[c := add ns rest acc]> (next s))
  end.

(** [sort.Sort(Chars(keys))]: bytes in increasing order. *)
Definition byte_le (a b : ascii) : Prop := (N_of_ascii a <= N_of_ascii b)%N.

#[global] Instance byte_le_dec : RelDecision byte_le.
Proof. intros a b. unfold byte_le. apply _. Defined.

Definition sort_Chars (keys : list ascii) : list ascii :=
  merge_sort byte_le keys.

(** [writeSwitch]; [charRange] is the order of [for char := range s.next]. *)
Fixpoint writeSwitch (charRange : gset ascii → list ascii) (s : symM)
    (w : codegen.Writer) (top : bool) {struct s} : codegen.Writer :=
  let sub := (λ ns, writeSwitch charRange ns) <$> next s in
  if decide (dom (next s) = ∅) then codegen.Line w ("return t" +:+ accept s)
  else
    let w := codegen.Line w "switch r.Next() {" in
    let keys := sort_Chars (charRange (dom (next s))) in
    let w := if top then codegen.Line w "case 0: return tEOF" else w in
    let w :=
      foldl (λ w char,
               let w := codegen.Line w ("case '" +:+ fmt_c char +:+ "':") in
               match sub !! char with
               | Some write => write w false
               | None => w
               end)
            w keys in
    let w := codegen.Line w "default:" in
    let w := codegen.Line w "r.Back()" in
    let w :=
      if decide (accept s = "") then
        let w := codegen.Line w "// It's up to the caller to figure it out." in
        codegen.Line w "return tNone"
      else codegen.Line w ("return t" +:+ accept s) in
    codegen.Line w "}".

(** The trie of [writeMachine]: only the tokens of the symbol block are
    added. *)
Definition buildMachine (tokens : list Token) : symM :=
  foldl (λ sm tok,
           if decide (block tok ≠ BlockSymbol) then sm
           else add sm (value tok) (name tok))
        symM_zero tokens.

Definition writeMachine (charRange : gset ascii → list ascii)
    (w : codegen.Writer) (tokens : list Token) : codegen.Writer :=
  let sm := buildMachine tokens in
  let w := codegen.Line w "func lex(r ByteReader) TokenId {" in
  let w := writeSwitch charRange sm w true in
  codegen.Line w "}".

(** [go/format.Source] *)
Variable format_Source : string → string + string.

Definition byteReaderDecl : string :=
  "// ByteReader is the interface expected by the lex function." +:+ codegen.nl +:+
  "type ByteReader interface {" +:+ codegen.nl +:+
  "  // Next reads another byte.  It should return 0 on EOF and panic on error." +:+ codegen.nl +:+
  "  Next() byte" +:+ codegen.nl +:+
  "  // Back backs up by one byte." +:+ codegen.nl +:+
  "  Back()" +:+ codegen.nl +:+
  "}" +:+ codegen.nl.

(** The buffer that [Main] builds from the tokens. *)
Definition emit (charRange : gset ascii → list ascii) (tokens : list Token)
  : codegen.Writer :=
  let w := codegen.empty in
  let w := codegen.Line w "package main" in
  let w := codegen.Line w byteReaderDecl in
  let w := codegen.Line w "type TokenId int" in
  let w := writeTokenIds w tokens in
  let w := codegen.Line w "" in
  let w := writeTokenNames w tokens in
  let w := codegen.Line w "" in
  let w := writeTokenLookup w tokens in
  let w := codegen.Line w "" in
  let w := writeKeywords w tokens in
  let w := codegen.Line w "" in
  writeMachine charRange w tokens.

(** [Main], after [os.Open] has returned [opened]: an error, or the file,
    given by its words.  The result of [w.Fmt()] is returned as it is. *)
Definition Main (charRange : gset ascii → list ascii)
    (opened : string + list string) : res lr.outcome :=
  match opened with
  | inl err => Ok (lr.Error err)
  | inr words =>
      tokens ← ReadTokens words;
      let w := emit charRange tokens in
      match codegen.Fmt format_Source w with
      | inl code => Ok (lr.Code code)
      | inr err => Ok (lr.Error err)
      end
  end.

End Emit.

End lex.

(** ** The lexer of the grammar files *)

Module lexer.

Definition isWhitespace (c : ascii) : bool :=
  bool_decide (c = " "%char) || bool_decide (c = "009"%char)
  || bool_decide (c = "010"%char).

Inductive TokenId :=
  | tNone
  | tEOF
  | tSemi
  | tEquals
  | tIdent
  | tCode.

#[global] Instance TokenId_eq_dec : EqDecision TokenId.
Proof. solve_decision. Defined.

(** Go's [int], taken as 64 bits wide: the result of an addition wraps
    around. *)
Definition wrap (z : Z) : Z :=
  ((z + 2 ^ 63) mod 2 ^ 64 - 2 ^ 63)%Z.

(** [tok.data[0] == '\'' && tok.data[len(tok.data)-1] == '\''], then
    [tok.data[1 : len(tok.data)-1]].  The index panics on an empty
    string, the slice when its bounds cross. *)
Definition unquote (data : string) : res string :=
  match String.get 0 data with
  | None => Panic
  | Some c0 =>
      if bool_decide (c0 = "'"%char)
         && bool_decide (lex.lastByte data = Some "'"%char)
      then
        if decide (String.length data - 1 < 1) then Panic
        else Ok (String.substring 1 (String.length data - 2) data)
      else Ok data
  end.

Section Lexer.

(** [bytereader.Reader] is not among the sources above.  The lexer uses
    its field [Pos] and its methods [Next] (the next byte; the byte 0
    stands for the end of the input) and [Back]. *)
Variable Reader : Type.
Variable Pos : Type.
Variable r_Pos : Reader → Pos.
Variable Next : Reader → ascii * Reader.
Variable Back : Reader → Reader.

Record Tok := mkTok {
  t_Pos : Pos;
  id : TokenId;
  data : string
}.

(** [fmt]'s [%q]. *)
Variable quote : string → string.

Definition Tok_String (t : Tok) : res string :=
  match id t with
  | tEOF => Ok "EOF"
  | tSemi => Ok ";"
  | tEquals => Ok "="
  | tIdent => Ok (quote (data t))
  | tCode => Ok ("{" +:+ quote (data t) +:+ "}")
  | tNone => Panic
  end.

(** The message of the [default] case calls [t.String()], which panics
    itself. *)
Definition Tok_Id (t : Tok) : res string :=
  match id t with
  | tEOF => Ok "$"
  | tSemi => Ok ";"
  | tEquals => Ok "="
  | tIdent => Ok "id"
  | tCode => Ok "code"
  | tNone => _ ← Tok_String t; Panic
  end.

(** [ReadCode]: the bytes up to the brace that closes the block. *)
Fixpoint ReadCode_loop (fuel : nat) (r : Reader) (braces : Z) (buf : string)
  : res (string * Reader) :=
  match fuel with
  | 0 => OutOfFuel
  | S fuel =>
      let '(b, r) := Next r in
      if decide (b = "000"%char) then Panic
      else
        let braces :=
          if decide (b = "{"%char) then wrap (braces + 1)
          else if decide (b = "}"%char) then wrap (braces - 1)
          else braces in
        if decide (braces = 0%Z) then Ok (buf, r)
        else ReadCode_loop fuel r braces (buf +:+ String b "")
  end.

Definition ReadCode (fuel : nat) (r : Reader) : res (string * Reader) :=
  ReadCode_loop fuel r 1%Z "".

(** [for isWhitespace(r.r.Next()) {}] *)
Fixpoint skipWhitespace (fuel : nat) (r : Reader) : res Reader :=
  match fuel with
  | 0 => OutOfFuel
  | S fuel =>
      let '(b, r) := Next r in
      if isWhitespace b then skipWhitespace fuel r else Ok r
  end.

(** The last loop of [Read]: the bytes of an identifier, up to a
    whitespace or the end of the input. *)
Fixpoint readIdent (fuel : nat) (r : Reader) (buf : string)
  : res (string * Reader) :=
  match fuel with
  | 0 => OutOfFuel
  | S fuel =>
      let '(b, r) := Next r in
      if isWhitespace b || bool_decide (b = "000"%char)
      then data ← unquote buf; Ok (data, r)
      else readIdent fuel r (buf +:+ String b "")
  end.

(** [Read] fills the token it is given: every path that returns sets the
    three fields, so the token is returned here next to the reader. *)
Definition Read (fuel : nat) (r : Reader) : res (Tok * Reader) :=
  r ← skipWhitespace fuel r;
  let r := Back r in
  let p := r_Pos r in
  let '(b, r) := Next r in
  if decide (b = "000"%char) then Ok (mkTok p tEOF "", r)
  else if decide (b = ";"%char) then Ok (mkTok p tSemi "", r)
  else if decide (b = "="%char) then Ok (mkTok p tEquals "", r)
  else if decide (b = "{"%char) then
    '(code, r) ← ReadCode fuel r;
    Ok (mkTok p tCode code, r)
  else
    let r := Back r in
    '(data, r) ← readIdent fuel r "";
    Ok (mkTok p tIdent data, r).

End Lexer.

End lexer.

(** ** Package [lr]: reading the rules from a Go file *)

Module input.
Import lr.

(** The nodes of [go/ast] that the reader looks at; every other
    expression, statement, specification or declaration is a node that
    it only tells apart from these. *)
Inductive Kind :=
  | INT
  | FLOAT
  | IMAG
  | CHAR
  | STRING.

#[global] Instance Kind_eq_dec : EqDecision Kind.
Proof. solve_decision. Defined.

Inductive Expr :=
  | BasicLit (kind : Kind) (value : string)
  | Ident (name : string)
  | CallExpr (fn : Expr) (args : list Expr)
  | OtherExpr (tag : nat).

Inductive Stmt :=
  | ExprStmt (x : Expr)
  | OtherStmt (tag : nat).

(** [fn.Name.Name]; the types of [fn.Type.Results.List], absent when the
    function has no result list; [fn.Body.List], absent when the
    function has no body. *)
Record FuncDecl := mkFuncDecl {
  Name : string;
  Results : option (list Expr);
  Body : option (list Stmt)
}.

Inductive Spec :=
  | ValueSpec (names : list string) (values : list Expr)
  | OtherSpec.

(** [d.Tok] of a [GenDecl]. *)
Inductive DeclTok :=
  | CONST
  | IMPORT
  | TYPE
  | VAR.

#[global] Instance DeclTok_eq_dec : EqDecision DeclTok.
Proof. solve_decision. Defined.

Record GenDecl := mkGenDecl {
  Tok : DeclTok;
  Specs : list Spec
}.

Inductive Decl :=
  | DGen (d : GenDecl)
  | DFunc (fn : FuncDecl)
  | DBad.

(** [f.Name.Name] and [f.Decls]. *)
Record File := mkFile {
  PkgName : string;
  Decls : list Decl
}.

(** What [astStr] prints: a list of statements, or an expression. *)
Inductive Node :=
  | NStmts (code : list Stmt)
  | NExpr (e : Expr).

(** [s[1 : len(s)-1]]: the slice panics when the string has fewer than
    two bytes. *)
Definition unwrap (s : string) : res string :=
  if decide (String.length s < 2) then Panic
  else Ok (String.substring 1 (String.length s - 2) s).

(** [isSyntaxCall]; the type assertion of [e.Args[0]] to a basic literal
    panics on any other argument. *)
Definition isSyntaxCall (s : Stmt) : res (bool * string) :=
  match s with
  | ExprStmt (CallExpr (Ident name) args) =>
      if decide (name ≠ "syntax") then Ok (false, "")
      else
        match args with
        | [arg] =>
            match arg with
            | BasicLit _ value => pattern ← unwrap value; Ok (true, pattern)
            | _ => Panic
            end
        | _ => Ok (false, "")
        end
  | _ => Ok (false, "")
  end.

(** [literalString]: the string and [ok], and the warning it prints. *)
Definition literalString (e : Expr) : res (string * bool * list string) :=
  match e with
  | BasicLit kind value =>
      if decide (kind ≠ STRING) then Ok ("", false, ["expected string"])
      else str ← unwrap value; Ok (str, true, [])
  | _ => Ok ("", false, ["expected literal value"])
  end.

(** One name of a [ValueSpec]: [vs.Values[i]] panics when the
    specification has no value at [i]. *)
Definition processName (values : list Expr)
    (st : Params * list string) (iname : nat * string)
  : res (Params * list string) :=
  let '(params, log) := st in
  let '(i, name) := iname in
  if decide (name = "lrPrefix") then
    match values !! i with
    | None => Panic
    | Some v =>
        '(str, ok, warned) ← literalString v;
        Ok (if ok : bool
            then mkParams str (Package params) (TokenType params) (Trace params)
            else params,
            log ++ warned)
    end
  else if decide (name = "lrTokenType") then
    match values !! i with
    | None => Panic
    | Some v =>
        '(str, ok, warned) ← literalString v;
        Ok (if ok : bool
            then mkParams (Prefix params) (Package params) str (Trace params)
            else params,
            log ++ warned)
    end
  else if decide (name = "lrTrace") then
    match values !! i with
    | None => Panic
    | Some (Ident b) =>
        if decide (b = "true")
        then Ok (mkParams (Prefix params) (Package params) (TokenType params)
                   true, log)
        else if decide (b = "false")
        then Ok (mkParams (Prefix params) (Package params) (TokenType params)
                   false, log)
        else Ok (params, log ++ ["expected bool"])
    | Some _ => Ok (params, log ++ ["expected bool"])
    end
  else Ok (params, log ++ ["unknown parameter"]).

Definition processSpec (st : Params * list string) (spec : Spec)
  : res (Params * list string) :=
  match spec with
  | OtherSpec => Ok (st.1, st.2 ++ ["unused spec"])
  | ValueSpec names values =>
      res_foldl (processName values) st (imap pair names)
  end.

(** [processDecl]; the warnings go to the standard error, and are
    returned here (without their positions) next to the parameters. *)
Definition processDecl (d : GenDecl) (st : Params * list string)
  : res (Params * list string) :=
  if decide (Tok d ≠ CONST) then Ok (st.1, st.2 ++ ["unused decl"])
  else res_foldl processSpec st (Specs d).

Section Reader.

(** [printer.Fprint] belongs to the Go library: the text, or an error. *)
Variable printer_Fprint : Node → string + string.

Definition astStr (n : Node) : res string :=
  match printer_Fprint n with
  | inl text => Ok text
  | inr _ => Panic
  end.

(** [astStr(fset, fn.Type.Results.List[0].Type)] *)
Definition resultType (fn : FuncDecl) : res string :=
  match Results fn with
  | Some (t :: _) => astStr (NExpr t)
  | _ => Panic
  end.

(** The rule in hand, if any, gets its code and is appended to the
    rules. *)
Definition finish (rule : option Rule) (code : list Stmt) (rules : list Rule)
  : res (list Rule) :=
  match rule with
  | None => Ok rules
  | Some r =>
      text ← astStr (NStmts code);
      Ok (rules ++ [mkRule (symbol r) (typ r) (pattern r) (vars r) text])
  end.

(** The body of the loop of [processFunction]. *)
Definition processStmt (fn : FuncDecl)
    (st : option Rule * list Stmt * list Rule) (stmt : Stmt)
  : res (option Rule * list Stmt * list Rule) :=
  let '(rule, code, rules) := st in
  '(matched, patternStr) ← isSyntaxCall stmt;
  if matched : bool then
    rules ← finish rule code rules;
    let '(pattern, vars) := parsePattern patternStr in
    typ ← resultType fn;
    Ok (Some (mkRule (Name fn) typ pattern vars ""), [], rules)
  else Ok (rule, code ++ [stmt], rules).

Definition processFunction (fn : FuncDecl) (rules : list Rule)
  : res (list Rule) :=
  match Body fn with
  | None => Panic
  | Some body =>
      '(rule, code, rules) ← res_foldl (processStmt fn) (None, [], rules) body;
      finish rule code rules
  end.

(** The function that [ast.Inspect] applies to the nodes of the file:
    the declarations are visited in order, and nothing below a
    declaration is. *)
Definition inspect (st : Params * list Rule * list string) (d : Decl)
  : res (Params * list Rule * list string) :=
  let '(params, rules, log) := st in
  match d with
  | DGen gd => '(params, log) ← processDecl gd (params, log); Ok (params, rules, log)
  | DFunc fn => rules ← processFunction fn rules; Ok (params, rules, log)
  | DBad => Ok st
  end.

(** [Parse], after [parser.ParseFile] has returned [parsed]: an error, or
    the file.  The warnings written on the way are returned as well. *)
Definition Parse (parsed : string + File)
  : res ((string + Params * list Rule) * list string) :=
  match parsed with
  | inl err => Ok (inl err, [])
  | inr f =>
      let params := mkParams "" (PkgName f) "Token" false in
      '(params, rules, log) ← res_foldl inspect (params, [], []) (Decls f);
      Ok (inr (params, rules), log)
  end.

End Reader.

End input.

(** * Properties *)

Lemma holds_inv {A} (m : res A) (P : A → Prop) :
  holds m P → ∃ a, m = Ok a ∧ P a.
Proof. destruct m as [a| |]; [|done..]. intros HP. by exists a. Qed.

(** Appending strings. *)
Lemma string_length_app (a b : string) :
  String.length (a +:+ b) = String.length a + String.length b.
Proof. induction a as [|c a IH]; [done|]. simpl. by rewrite IH. Qed.

Lemma string_app_assoc (a b c : string) :
  (a +:+ b) +:+ c = a +:+ (b +:+ c).
Proof.
  induction a as [|x a IH]; [done|].
  change (String x ((a +:+ b) +:+ c) = String x (a +:+ (b +:+ c))).
  by rewrite IH.
Qed.

Lemma string_app_nil_r (a : string) : a +:+ "" = a.
Proof.
  induction a as [|x a IH]; [done|].
  change (String x (a +:+ "") = String x a). by rewrite IH.
Qed.

Lemma string_app_inv_head (a b c : string) : a +:+ b = a +:+ c → b = c.
Proof.
  induction a as [|x a IH]; [done|].
  change (String x (a +:+ b) = String x (a +:+ c) → b = c).
  intros [=]. by apply IH.
Qed.

(** [%q] on a string of printable ASCII bytes without a double quote or a
    backslash: the string between double quotes. *)
Definition quote_plain (s : string) : string :=
  String "034" s +:+ String "034" "".

(** ** The token file reader *)

Module lex_facts.
Import lex.

(** A token file as the format describes it: block headers and
    [NAME LITERAL] pairs. *)
Inductive entry :=
  | Header (b : BlockId)
  | Pair (name literal : string).

Definition headerWord (b : BlockId) : string :=
  match b with
  | BlockSpecial => "specials:"
  | BlockSymbol => "symbols:"
  | BlockKeyword => "keywords:"
  end.

Definition entryWords (e : entry) : list string :=
  match e with
  | Header b => [headerWord b]
  | Pair n l => [n; l]
  end.

Definition fileWords (es : list entry) : list string :=
  flat_map entryWords es.

(** The tokens of the pairs, each in the block of the last header before
    it, or in [cur] when there is none. *)
Fixpoint classify (cur : BlockId) (es : list entry) : list Token :=
  match es with
  | [] => []
  | Header b :: es => classify b es
  | Pair n l :: es => mkToken n l cur :: classify cur es
  end.

Fixpoint lastBlock (cur : BlockId) (es : list entry) : BlockId :=
  match es with
  | [] => cur
  | Header b :: es => lastBlock b es
  | Pair _ _ :: es => lastBlock cur es
  end.

(** A [NAME] is a word that is not a header: not empty, and not ending
    with a colon. *)
Definition isName (w : string) : Prop :=
  ∃ c, lastByte w = Some c ∧ c ≠ ":"%char.

Definition entry_ok (e : entry) : Prop :=
  match e with
  | Header _ => True
  | Pair n _ => isName n
  end.

Lemma ReadTokens_loop_header b rest id tokens :
  ReadTokens_loop (headerWord b :: rest) id tokens
  = ReadTokens_loop rest b tokens.
Proof. by destruct b. Qed.

Lemma ReadTokens_loop_pair n l rest id tokens :
  isName n →
  ReadTokens_loop (n :: l :: rest) id tokens
  = ReadTokens_loop rest id (tokens ++ [mkToken n l id]).
Proof.
  intros (c & Hc & Hne). simpl. rewrite Hc.
  by destruct (decide (c = ":"%char)).
Qed.

Lemma ReadTokens_loop_dangling n id tokens :
  isName n → ReadTokens_loop [n] id tokens = Ok tokens.
Proof.
  intros (c & Hc & Hne). simpl. rewrite Hc.
  by destruct (decide (c = ":"%char)).
Qed.

Lemma ReadTokens_loop_entries es tail id tokens :
  Forall entry_ok es →
  ReadTokens_loop (fileWords es ++ tail) id tokens
  = ReadTokens_loop tail (lastBlock id es) (tokens ++ classify id es).
Proof.
  intros Hes. revert id tokens.
  induction Hes as [|e es He _ IH]; intros id tokens.
  - by rewrite app_nil_r.
  - destruct e as [b|n l]; cbn [fileWords flat_map entryWords app].
    + rewrite ReadTokens_loop_header. apply IH.
    + rewrite ReadTokens_loop_pair by done.
      cbn [classify lastBlock]. fold (fileWords es).
      rewrite IH. by rewrite <- app_assoc.
Qed.

Lemma classify_pairs b (pairs : list (string * string)) rest :
  classify b (map (λ p, Pair p.1 p.2) pairs ++ rest)
  = map (λ p, mkToken p.1 p.2 b) pairs ++ classify b rest.
Proof. induction pairs as [|[a l] pairs IH]; [done|]. cbn. by rewrite IH. Qed.

(** C10.  On a token file made of block headers and [NAME LITERAL] pairs
    and ending with a [NAME] that has no [LITERAL], [ReadTokens] returns
    without failing, the result being the tokens of the complete pairs:
    the dangling name is dropped.  Every pair is classified by the last
    header before it, and by [BlockSpecial] when no header precedes it. *)
Theorem ReadTokens_dangling_name (es : list entry) (n : string) :
  Forall entry_ok es → isName n →
  ReadTokens (fileWords es ++ [n]) = Ok (classify BlockSpecial es)
  ∧ ReadTokens (fileWords es) = Ok (classify BlockSpecial es)
  ∧ ∀ pairs rest,
      es = map (λ p, Pair p.1 p.2) pairs ++ rest →
      classify BlockSpecial es
      = map (λ p, mkToken p.1 p.2 BlockSpecial) pairs
        ++ classify BlockSpecial rest.
Proof.
  intros Hes Hn. unfold ReadTokens. split_and!.
  - rewrite ReadTokens_loop_entries by done.
    by rewrite ReadTokens_loop_dangling.
  - rewrite <- (app_nil_r (fileWords es)).
    by rewrite ReadTokens_loop_entries.
  - intros pairs rest ->. apply classify_pairs.
Qed.

Lemma ReadTokens_dangling_name_witness :
  ReadTokens (["Early"; "e"; "symbols:"; "Semi"; ";"; "keywords:"; "For"; "for"]
              ++ ["Dangling"])
  = Ok [mkToken "Early" "e" BlockSpecial; mkToken "Semi" ";" BlockSymbol;
        mkToken "For" "for" BlockKeyword].
Proof.
  refine (proj1 (ReadTokens_dangling_name
    [Pair "Early" "e"; Header BlockSymbol; Pair "Semi" ";";
     Header BlockKeyword; Pair "For" "for"] "Dangling" _ _)).
  - repeat constructor; eexists; (split; [reflexivity | discriminate]).
  - eexists; (split; [reflexivity | discriminate]).
Defined.

End lex_facts.

(** ** Pattern strings *)

Module pattern_facts.
Import lr.

(** What [parsePattern] does with one element of the split string: an
    element of at least three bytes whose second byte is the equals sign
    and whose first byte is not an apostrophe gives that first byte as
    the variable and the bytes after the equals sign as the symbol; any
    other element is kept whole, with an empty variable. *)
Definition splitToken (w : string) : string * string :=
  match w with
  | String x (String e (String y sym)) =>
      if decide (x ≠ "'"%char ∧ e = "="%char)
      then (String y sym, String x "")
      else (w, "")
  | _ => (w, "")
  end.

(** The split as the specification words it: the first character must be
    an ASCII letter. *)
Definition isAsciiLetter (c : ascii) : bool :=
  let n := N_of_ascii c in
  ((65 <=? n) && (n <=? 90) || (97 <=? n) && (n <=? 122))%N.

Definition splitToken_claimed (w : string) : string * string :=
  match w with
  | String x (String e sym) =>
      if isAsciiLetter x && bool_decide (e = "="%char)
      then (sym, String x "")
      else (w, "")
  | _ => (w, "")
  end.

Lemma substring_0_length (s : string) :
  String.substring 0 (String.length s) s = s.
Proof. induction s as [|c s IH]; [done|]. cbn. by rewrite IH. Qed.

Lemma parsePattern_token (pat : string) :
  (if isVarPattern pat
   then (String.substring 2 (String.length pat - 2) pat,
         String.substring 0 1 pat)
   else (pat, ""))
  = splitToken pat.
Proof.
  destruct pat as [|x [|e [|y sym]]]; try done.
  unfold isVarPattern, splitToken.
  change (String.length (String x (String e (String y sym))))
    with (S (S (S (String.length sym)))).
  rewrite bool_decide_true by lia.
  cbn [String.get andb].
  replace (S (S (S (String.length sym))) - 2) with (S (String.length sym)) by lia.
  change (String.substring 2 (S (String.length sym))
            (String x (String e (String y sym))))
    with (String y (String.substring 0 (String.length sym) sym)).
  rewrite substring_0_length.
  change (String.substring 0 1 (String x (String e (String y sym))))
    with (String x (String.substring 0 0 (String e (String y sym)))).
  cbn [String.substring].
  case_decide as Hsplit.
  - destruct Hsplit as [Hx ->].
    rewrite bool_decide_false by congruence.
    by rewrite bool_decide_true.
  - repeat case_bool_decide; cbn; try done.
    destruct Hsplit. split; congruence.
Qed.

Lemma parsePattern_fold (pre l : list string) :
  foldl parsePattern_step
        (map (fst ∘ splitToken) pre ++ l,
         map (snd ∘ splitToken) pre ++ replicate (length l) "")
        (imap (λ i, pair (length pre + i)) l)
  = (map (fst ∘ splitToken) (pre ++ l), map (snd ∘ splitToken) (pre ++ l)).
Proof.
  revert pre. induction l as [|pat l IH]; intros pre.
  - by rewrite !app_nil_r.
  - cbn [imap foldl length replicate].
    assert (foldl parsePattern_step
              (map (fst ∘ splitToken) (pre ++ [pat]) ++ l,
               map (snd ∘ splitToken) (pre ++ [pat]) ++ replicate (length l) "")
              (imap (λ i, pair (length (pre ++ [pat]) + i)) l)
            = (map (fst ∘ splitToken) (pre ++ pat :: l),
               map (snd ∘ splitToken) (pre ++ pat :: l))) as <-.
    { rewrite IH. by rewrite <- !app_assoc. }
    f_equal.
    + unfold parsePattern_step at 1.
      rewrite !map_app, <- !app_assoc. cbn [map app compose].
      rewrite <- (parsePattern_token pat).
      destruct (isVarPattern pat); cbn [fst snd]; [|done].
      rewrite !insert_app_r_alt by (rewrite length_map; lia).
      rewrite !length_map.
      replace (length pre + 0 - length pre) with 0 by lia. done.
    + apply imap_ext. intros i x _. cbn. rewrite length_app. cbn.
      f_equal. lia.
Qed.

(** C7 (as amended).  [parsePattern] cuts the pattern string at every
    single space and treats each element on its own: an element of at
    least three bytes whose second byte is [=] and whose first byte is
    not an apostrophe yields that first byte as the variable and the rest
    after [=] as the symbol; every other element (among them those that
    begin with an apostrophe) is kept whole with an empty variable. *)
Theorem parsePattern_elements (patternStr : string) :
  parsePattern patternStr
  = (map (fst ∘ splitToken) (Split patternStr " "),
     map (snd ∘ splitToken) (Split patternStr " ")).
Proof.
  unfold parsePattern.
  exact (parsePattern_fold [] (Split patternStr " ")).
Qed.

(** C7 as stated fails: the element [1=foo] does not begin with an ASCII
    letter, yet it is split. *)
Lemma parsePattern_digit_variable :
  parsePattern "1=foo" = (["foo"], ["1"])
  ∧ parsePattern "1=foo"
    ≠ (map (fst ∘ splitToken_claimed) (Split "1=foo" " "),
       map (snd ∘ splitToken_claimed) (Split "1=foo" " ")).
Proof. split; [reflexivity | discriminate]. Qed.

End pattern_facts.

(** ** The symbol trie *)

Module trie_facts.
Import lex.

(** Walking the trie from a node along the bytes of a string. *)
Fixpoint walk (s : symM) (input : string) : option symM :=
  match input with
  | "" => Some s
  | String c rest =>
      match next s !! c with
      | Some ns => walk ns rest
      | None => None
      end
  end.

(** The [accept] field found at the end of the walk; empty when the walk
    leaves the trie. *)
Definition acceptAt (s : symM) (input : string) : string :=
  match walk s input with
  | Some node => accept node
  | None => ""
  end.

(** The name of the last token of the symbol block whose literal is
    [input]; empty when there is none. *)
Definition lastSymbol (tokens : list Token) (input : string) : string :=
  foldl (λ acc tok,
           if decide (block tok = BlockSymbol ∧ value tok = input)
           then name tok else acc)
        "" tokens.

Lemma acceptAt_nil s : acceptAt s "" = accept s.
Proof. done. Qed.

Lemma acceptAt_cons s c rest :
  acceptAt s (String c rest)
  = match next s !! c with Some ns => acceptAt ns rest | None => "" end.
Proof. unfold acceptAt. cbn. by destruct (next s !! c). Qed.

Lemma acceptAt_zero input : acceptAt symM_zero input = "".
Proof. destruct input; [done|]. by rewrite acceptAt_cons. Qed.

Lemma acceptAt_default (o : option symM) rest :
  acceptAt (default symM_zero o) rest
  = match o with Some ns => acceptAt ns rest | None => "" end.
Proof. destruct o; [done|]. apply acceptAt_zero. Qed.

Lemma acceptAt_add_same s input acc : acceptAt (add s input acc) input = acc.
Proof.
  revert s. induction input as [|c rest IH]; intros s; [done|].
  rewrite acceptAt_cons. cbn [add next]. by rewrite lookup_insert_eq.
Qed.

Lemma acceptAt_add_other s input acc p :
  p ≠ input → acceptAt (add s input acc) p = acceptAt s p.
Proof.
  revert s p. induction input as [|c rest IH]; intros s p Hp.
  - destruct p as [|c' p]; [done|]. by rewrite !acceptAt_cons.
  - destruct p as [|c' p]; [done|].
    rewrite !acceptAt_cons. cbn [add next].
    destruct (decide (c = c')) as [->|Hc].
    + rewrite lookup_insert_eq, IH by congruence.
      apply acceptAt_default.
    + by rewrite lookup_insert_ne.
Qed.

Lemma walk_add_same s input acc : is_Some (walk (add s input acc) input).
Proof.
  revert s. induction input as [|c rest IH]; intros s; [done|].
  cbn [walk add next]. by rewrite lookup_insert_eq.
Qed.

Lemma walk_add_keeps s input acc p :
  is_Some (walk s p) → is_Some (walk (add s input acc) p).
Proof.
  revert s p. induction input as [|c rest IH]; intros s p.
  - by destruct p.
  - destruct p as [|c' p]; [done|]. cbn [walk add next].
    destruct (decide (c = c')) as [->|Hc].
    + rewrite lookup_insert_eq.
      destruct (next s !! c') as [ns|]; [apply IH | by intros []].
    + by rewrite lookup_insert_ne.
Qed.

Lemma buildMachine_snoc tokens tok :
  buildMachine (tokens ++ [tok])
  = if decide (block tok ≠ BlockSymbol) then buildMachine tokens
    else add (buildMachine tokens) (value tok) (name tok).
Proof. unfold buildMachine. by rewrite foldl_app. Qed.

Lemma lastSymbol_snoc tokens tok input :
  lastSymbol (tokens ++ [tok]) input
  = if decide (block tok = BlockSymbol ∧ value tok = input)
    then name tok else lastSymbol tokens input.
Proof. unfold lastSymbol. by rewrite foldl_app. Qed.

Lemma buildMachine_acceptAt tokens input :
  acceptAt (buildMachine tokens) input = lastSymbol tokens input.
Proof.
  induction tokens as [|tok tokens IH] using rev_ind.
  - apply acceptAt_zero.
  - rewrite buildMachine_snoc, lastSymbol_snoc.
    destruct (decide (block tok ≠ BlockSymbol)) as [Hb|Hb].
    + rewrite decide_False by (by intros [? _]). done.
    + apply dec_stable in Hb.
      destruct (decide (value tok = input)) as [<-|Hv].
      * rewrite decide_True by done. apply acceptAt_add_same.
      * rewrite decide_False by (by intros [_ ?]).
        by rewrite acceptAt_add_other.
Qed.

Lemma buildMachine_walk tokens tok :
  tok ∈ tokens → block tok = BlockSymbol →
  is_Some (walk (buildMachine tokens) (value tok)).
Proof.
  induction tokens as [|tok' tokens IH] using rev_ind; [by intros ?%elem_of_nil|].
  intros [Hin | ->%list_elem_of_singleton]%elem_of_app Hb;
    rewrite buildMachine_snoc.
  - case_decide; [by apply IH|]. by apply walk_add_keeps, IH.
  - rewrite decide_False by naive_solver. apply walk_add_same.
Qed.

Lemma buildMachine_filter tokens :
  buildMachine tokens
  = buildMachine (filter (λ tok, block tok = BlockSymbol) tokens).
Proof.
  induction tokens as [|tok tokens IH] using rev_ind; [done|].
  rewrite filter_app, buildMachine_snoc.
  rewrite filter_cons, filter_nil.
  destruct (decide (block tok = BlockSymbol)) as [Hb|Hb].
  - rewrite buildMachine_snoc, <- IH. by rewrite !decide_False by naive_solver.
  - rewrite app_nil_r, <- IH. by rewrite decide_True.
Qed.

Lemma lastSymbol_last pre tok post :
  block tok = BlockSymbol →
  (∀ t, t ∈ post → block t = BlockSymbol → value t ≠ value tok) →
  lastSymbol (pre ++ tok :: post) (value tok) = name tok.
Proof.
  intros Hb. induction post as [|t post IH] using rev_ind; intros Hpost.
  - rewrite lastSymbol_snoc. by rewrite decide_True.
  - change (pre ++ tok :: post ++ [t]) with (pre ++ (tok :: post) ++ [t]).
    rewrite app_assoc, lastSymbol_snoc.
    rewrite decide_False.
    + apply IH. intros t' Ht'. apply Hpost. set_solver.
    + intros [Hbt Hvt]. eapply Hpost; [|done..]. set_solver.
Qed.

(** C8 (as amended).  The trie holds the tokens of the symbol block and
    nothing else.  For every token of that block, the walk from the root
    along the bytes of its literal ends in a node, and the [accept] field
    there is the name of the last symbol token with that literal: the
    token's own name unless a later symbol token repeats the literal.
    At every string the [accept] field found is the name of the last
    symbol token with that literal, and empty when there is none; tokens
    of the special and keyword blocks add nothing. *)
Theorem buildMachine_symbols (tokens : list Token) :
  (∀ tok, tok ∈ tokens → block tok = BlockSymbol →
     ∃ node, walk (buildMachine tokens) (value tok) = Some node
             ∧ accept node = lastSymbol tokens (value tok))
  ∧ (∀ pre tok post, tokens = pre ++ tok :: post →
       block tok = BlockSymbol →
       (∀ t, t ∈ post → block t = BlockSymbol → value t ≠ value tok) →
       acceptAt (buildMachine tokens) (value tok) = name tok)
  ∧ (∀ input, acceptAt (buildMachine tokens) input = lastSymbol tokens input)
  ∧ buildMachine tokens
    = buildMachine (filter (λ tok, block tok = BlockSymbol) tokens).
Proof.
  split_and!.
  - intros tok Hin Hb.
    destruct (buildMachine_walk tokens tok Hin Hb) as [node Hnode].
    exists node. split; [done|].
    rewrite <- buildMachine_acceptAt. unfold acceptAt. by rewrite Hnode.
  - intros pre tok post -> Hb Hpost.
    rewrite buildMachine_acceptAt. by apply lastSymbol_last.
  - apply buildMachine_acceptAt.
  - apply buildMachine_filter.
Qed.

(** C8 as stated fails when two symbol tokens share a literal: the walk
    along [=] ends in a node whose [accept] is the name of the second
    token, not that of the first. *)
Lemma buildMachine_repeated_literal :
  let tokens := [mkToken "Eq" "=" BlockSymbol; mkToken "Assign" "=" BlockSymbol] in
  accept <$> walk (buildMachine tokens) "=" = Some "Assign"
  ∧ accept <$> walk (buildMachine tokens) "=" ≠ Some "Eq".
Proof. split; [reflexivity | discriminate]. Qed.

End trie_facts.

(** ** Formatter failures in the two drivers *)

Module driver_facts.

(** [msg] includes [raw] as a run of consecutive bytes. *)
Definition includes (msg raw : string) : Prop :=
  ∃ pre post, msg = pre +:+ raw +:+ post.

Lemma includes_length msg raw :
  includes msg raw → (String.length raw ≤ String.length msg)%nat.
Proof. intros (pre & post & ->). rewrite !string_length_app. lia. Qed.

(** X18.  In [lr] mode a formatter failure is returned with the raw buffer. *)
Lemma lr_Main_format_error quote format_Source template fuel o keyRange
    params rs w err :
  lr.emit quote template fuel o keyRange params rs = Ok w →
  format_Source (codegen.Raw w) = inr err →
  ∃ msg, lr.Main quote format_Source template fuel o keyRange (inr (params, rs))
         = Ok (lr.Error msg)
         ∧ includes msg (codegen.Raw w) ∧ includes msg err.
Proof.
  intros Hemit Hfmt. unfold lr.Main. rewrite Hemit. cbn.
  unfold codegen.Fmt. rewrite Hfmt. eexists. split; [done|]. split.
  - exists ("error formatting code: " +:+ err +:+ codegen.nl +:+ "code: "),
      codegen.nl.
    by rewrite !string_app_assoc.
  - by exists "error formatting code: ",
      (codegen.nl +:+ "code: " +:+ codegen.Raw w +:+ codegen.nl).
Qed.

(** In [lex] mode the formatter's error is returned as it is. *)
Lemma lex_Main_format_error quote format_Source charRange words tokens err :
  lex.ReadTokens words = Ok tokens →
  format_Source (codegen.Raw (lex.emit quote charRange tokens)) = inr err →
  lex.Main quote format_Source charRange (inr words) = Ok (lr.Error err).
Proof.
  intros Hread Hfmt. unfold lex.Main. rewrite Hread. cbn.
  unfold codegen.Fmt. by rewrite Hfmt.
Qed.

(** C9 fails in [lex] mode.  The token file [symbols: a-b ;] gives the
    line [ta-b TokenId = iota], which is not Go; with a formatter that
    rejects the buffer with a position and a message, the run fails with
    that message alone, and the raw buffer is not in it. *)
Theorem lex_Main_error_omits_buffer :
  let format_Source : string → string + string :=
    λ _, inr "12:3: syntax error: unexpected -" in
  let words := ["symbols:"; "a-b"; ";"] in
  ∃ tokens msg,
    lex.ReadTokens words = Ok tokens
    ∧ lex.Main quote_plain format_Source elements (inr words)
      = Ok (lr.Error msg)
    ∧ msg = "12:3: syntax error: unexpected -"
    ∧ ¬ includes msg (codegen.Raw (lex.emit quote_plain elements tokens)).
Proof.
  intros format_Source words.
  exists [lex.mkToken "a-b" ";" lex.BlockSymbol],
    "12:3: syntax error: unexpected -".
  split_and!; [reflexivity..|].
  intros Hlen%includes_length. vm_compute in Hlen. lia.
Qed.

End driver_facts.

(** ** Emitting the action table *)

Module emit_facts.
Import lr.

(** *** The order of [sort.Strings] *)

Lemma ascii_compare_refl (x : ascii) : Ascii.compare x x = Eq.
Proof. apply N.compare_refl. Qed.

Lemma ascii_compare_lt_trans (x y z : ascii) :
  Ascii.compare x y = Lt → Ascii.compare y z = Lt → Ascii.compare x z = Lt.
Proof.
  unfold Ascii.compare. rewrite !N.compare_lt_iff. apply N.lt_trans.
Qed.

Lemma string_leb_trans (a b c : string) :
  String.leb a b = true → String.leb b c = true → String.leb a c = true.
Proof.
  unfold String.leb. revert b c.
  induction a as [|x a IH]; intros [|y b] [|z c]; cbn; try done.
  destruct (Ascii.compare x y) eqn:Hxy; [| |done].
  - apply Ascii.compare_eq_iff in Hxy as ->.
    destruct (Ascii.compare y z); [apply IH|done..].
  - destruct (Ascii.compare y z) eqn:Hyz; [| |done].
    + apply Ascii.compare_eq_iff in Hyz as <-. by rewrite Hxy.
    + by rewrite (ascii_compare_lt_trans x y z).
Qed.

#[global] Instance str_le_trans : Transitive str_le.
Proof. intros a b c. apply string_leb_trans. Qed.

#[global] Instance str_le_total : Total str_le.
Proof. intros a b. apply String.leb_total. Qed.

#[global] Instance str_le_antisym : AntiSymm (=) str_le.
Proof. intros a b. apply String.leb_antisym. Qed.

(** Strictly before, in the order of [sort.Strings]. *)
Definition str_lt (a b : string) : Prop := str_le a b ∧ a ≠ b.

Lemma StronglySorted_strict (l : list string) :
  StronglySorted str_le l → NoDup l → StronglySorted str_lt l.
Proof.
  induction 1 as [|x l Hl IH Hx]; intros Hnd; [constructor|].
  apply NoDup_cons in Hnd as [Hnin Hnd].
  constructor; [by apply IH|].
  apply Forall_forall. intros y Hy. split.
  - by eapply Forall_forall in Hx.
  - by intros ->.
Qed.

(** Two sorted lists with the same elements are the same list, so the
    result of the sort does not depend on the order in which the keys
    were collected. *)
Lemma StronglySorted_strict_unique (l1 l2 : list string) :
  StronglySorted str_lt l1 → StronglySorted str_lt l2 →
  l1 ≡ₚ l2 → l1 = l2.
Proof.
  intros H1. revert l2.
  induction H1 as [|x l1 Hl1 IH Hx]; intros l2 H2 Hp.
  - by apply Permutation_nil_l in Hp.
  - destruct H2 as [|y l2 Hl2 Hy].
    { by apply Permutation_nil_r in Hp. }
    assert (x = y) as ->.
    { assert (x ∈ y :: l2) as Hxin by (rewrite <- Hp; left).
      assert (y ∈ x :: l1) as Hyin by (rewrite Hp; left).
      apply elem_of_cons in Hxin as [->|Hxin]; [done|].
      apply elem_of_cons in Hyin as [->|Hyin]; [done|].
      eapply Forall_forall in Hx as [Hxy _]; [|done].
      eapply Forall_forall in Hy as [Hyx _]; [|done].
      by apply (anti_symm str_le). }
    f_equal. apply IH; [done|]. by apply Permutation_cons_inv in Hp.
Qed.

Lemma sort_Strings_sorted (keys : list string) :
  NoDup keys →
  StronglySorted str_lt (sort_Strings keys) ∧ sort_Strings keys ≡ₚ keys.
Proof.
  intros Hnd. unfold sort_Strings. split; [|apply merge_sort_Permutation].
  apply StronglySorted_strict.
  - apply (StronglySorted_merge_sort str_le).
  - by rewrite merge_sort_Permutation.
Qed.

Lemma sort_Strings_order_irrelevant (keys1 keys2 : list string) :
  NoDup keys1 → keys1 ≡ₚ keys2 → sort_Strings keys1 = sort_Strings keys2.
Proof.
  intros Hnd Hp.
  assert (NoDup keys2) as Hnd2 by (by rewrite <- Hp).
  destruct (sort_Strings_sorted keys1 Hnd) as [Hs1 Hp1].
  destruct (sort_Strings_sorted keys2 Hnd2) as [Hs2 Hp2].
  apply StronglySorted_strict_unique; [done..|].
  by rewrite Hp1, Hp2.
Qed.

(** *** The text of the action table *)

(** The integer written for an action. *)
Definition encode (a : Action) : Z :=
  match a with
  | Shift s => Z.of_nat s
  | Reduce r => - Z.of_nat r
  end.

Definition texts (l : list string) : string := foldr String.append "" l.

Definition entryText (quote : string → string) (row : gmap string Action)
    (tok : string) : string :=
  match row !! tok with
  | Some a => quote tok +:+ ": " +:+ itoa (encode a) +:+ "," +:+ codegen.nl
  | None => ""
  end.

Definition rowText (quote : string → string) (row : gmap string Action)
    (keys : list string) : string :=
  "{" +:+ codegen.nl +:+ texts (map (entryText quote row) keys)
  +:+ "}," +:+ codegen.nl.

Definition tableText (quote : string → string) (prefix : string)
    (table : ActionTable) (keyss : list (list string)) : string :=
  "var " +:+ prefix +:+ "Actions = " +:+ prefix +:+ "ActionTable{" +:+ codegen.nl
  +:+ texts (zip_with (rowText quote) table keyss) +:+ "}" +:+ codegen.nl.

(** Every [Reduce] of the table names a rule of the grammar. *)
Definition action_ok (g : Grammar) (a : Action) : Prop :=
  match a with
  | Shift _ => True
  | Reduce r => r < length (rules g)
  end.

#[global] Instance action_ok_dec g a : Decision (action_ok g a).
Proof. destruct a; unfold action_ok; apply _. Defined.

Definition table_rules_ok (g : Grammar) (table : ActionTable) : Prop :=
  Forall (map_Forall (λ _ : string, action_ok g)) table.

(** A [range] over a row visits every key once. *)
Definition keyRange_ok (keyRange : gmap string Action → list string) : Prop :=
  ∀ row, keyRange row ≡ₚ elements (dom row : gset string).

Lemma ruleIds_fold (l : list Rule) (k : nat) (m : gmap nat nat) (r : nat) :
  foldl (λ ids (ir : nat * Rule), <[ir.1 := ir.1]> ids) m
        (imap (λ i, pair (k + i)) l) !! r
  = if decide (k ≤ r < k + length l) then Some r else m !! r.
Proof.
  revert k m. induction l as [|x l IH]; intros k m.
  - cbn. case_decide; [lia|done].
  - cbn [imap foldl fst length].
    rewrite (imap_ext _ (λ i, pair (S k + i))) by (intros; cbn; f_equal; lia).
    rewrite IH, Nat.add_0_r.
    destruct (decide (r = k)) as [->|Hne].
    + rewrite decide_False, decide_True by lia. apply lookup_insert_eq.
    + rewrite lookup_insert_ne by done.
      destruct (decide (S k ≤ r < S k + length l)).
      * by rewrite decide_True by lia.
      * by rewrite decide_False by lia.
Qed.

Lemma ruleIdsOf_lookup (g : Grammar) (r : nat) :
  r < length (rules g) → ruleIdsOf g !! r = Some r.
Proof.
  intros Hr. unfold ruleIdsOf.
  rewrite (ruleIds_fold (rules g) 0 ∅ r). by rewrite decide_True by lia.
Qed.

Lemma Line_buf (w : codegen.Writer) (text : string) :
  codegen.Line w text = codegen.mkWriter (codegen.buf w +:+ text +:+ codegen.nl).
Proof. done. Qed.

Section Layout.

Variable quote : string → string.
Variable g : Grammar.

Lemma writeEntry_text (row : gmap string Action) (w : codegen.Writer)
    (tok : string) (a : Action) :
  row !! tok = Some a → action_ok g a →
  writeEntry quote (ruleIdsOf g) row w tok
  = Ok (codegen.mkWriter (codegen.buf w +:+ entryText quote row tok)).
Proof.
  intros Hrow Ha. unfold writeEntry, entryText. rewrite Hrow.
  destruct a as [s|r]; cbn [encode].
  - by rewrite Line_buf, !string_app_assoc.
  - rewrite ruleIdsOf_lookup by done. cbn [default].
    by rewrite Line_buf, !string_app_assoc.
Qed.

Lemma writeEntries_text (row : gmap string Action) (keys : list string)
    (w : codegen.Writer) :
  map_Forall (λ _ : string, action_ok g) row →
  (∀ tok, tok ∈ keys → is_Some (row !! tok)) →
  res_foldl (writeEntry quote (ruleIdsOf g) row) w keys
  = Ok (codegen.mkWriter
          (codegen.buf w +:+ texts (map (entryText quote row) keys))).
Proof.
  intros Hrow. revert w. induction keys as [|tok keys IH]; intros w Hkeys.
  - cbn. rewrite string_app_nil_r. by destruct w.
  - destruct (Hkeys tok) as [a Ha]; [left|].
    cbn [res_foldl]. erewrite writeEntry_text; [|done|by eapply Hrow].
    cbn [mbind res_bind]. rewrite IH by (intros; apply Hkeys; by right).
    cbn [codegen.buf map texts foldr]. by rewrite string_app_assoc.
Qed.

Lemma writeRow_text (keyRange : gmap string Action → list string)
    (row : gmap string Action) (w : codegen.Writer) :
  keyRange_ok keyRange →
  map_Forall (λ _ : string, action_ok g) row →
  writeRow quote keyRange (ruleIdsOf g) w row
  = Ok (codegen.mkWriter
          (codegen.buf w +:+ rowText quote row (sort_Strings (keyRange row)))).
Proof.
  intros Hrange Hrow. unfold writeRow.
  rewrite writeEntries_text; [|done|].
  - cbn [mbind res_bind]. rewrite !Line_buf. cbn [codegen.buf].
    unfold rowText. by rewrite !string_app_assoc.
  - intros tok Htok. apply (elem_of_dom (D:=gset string)).
    apply elem_of_elements. rewrite <- (Hrange row).
    unfold sort_Strings in Htok. by rewrite merge_sort_Permutation in Htok.
Qed.

Lemma writeRows_text (keyRange : gmap string Action → list string)
    (table : ActionTable) (w : codegen.Writer) :
  keyRange_ok keyRange → table_rules_ok g table →
  res_foldl (writeRow quote keyRange (ruleIdsOf g)) w table
  = Ok (codegen.mkWriter
          (codegen.buf w
           +:+ texts (zip_with (rowText quote) table
                        (map (λ row, sort_Strings (keyRange row)) table)))).
Proof.
  intros Hrange Htable. revert w.
  induction Htable as [|row table Hrow _ IH]; intros w.
  - cbn. rewrite string_app_nil_r. by destruct w.
  - cbn [res_foldl]. rewrite writeRow_text by done.
    cbn [mbind res_bind]. rewrite IH.
    cbn [codegen.buf map zip_with texts foldr]. by rewrite string_app_assoc.
Qed.

(** C6.  The action table is written row by row in state order.  The
    entries of a row are written in strictly increasing order of their
    terminals under the byte-wise order of [sort.Strings], each terminal
    once, whatever the order in which the row's keys were collected.  A
    [Shift s] is written as the integer [s], hence non-negative, and a
    [Reduce] of the rule of index [r] as the negation of [r]. *)
Theorem writeActions_layout (keyRange : gmap string Action → list string)
    (w : codegen.Writer) (prefix : string) (table : ActionTable) :
  keyRange_ok keyRange → table_rules_ok g table →
  ∃ keyss : list (list string),
    Forall2 (λ (row : gmap string Action) keys,
               StronglySorted str_lt keys
               ∧ keys ≡ₚ elements (dom row : gset string))
            table keyss
    ∧ writeActions quote keyRange (ruleIdsOf g) w prefix table
      = Ok (codegen.mkWriter
              (codegen.buf w +:+ tableText quote prefix table keyss)).
Proof.
  intros Hrange Htable.
  exists (map (λ row, sort_Strings (keyRange row)) table). split.
  - apply Forall2_fmap_r, Forall_Forall2_diag, Forall_forall.
    intros row _.
    assert (NoDup (keyRange row)) as Hnd.
    { rewrite (Hrange row). apply NoDup_elements. }
    destruct (sort_Strings_sorted _ Hnd) as [Hs Hp].
    split; [done|]. by rewrite Hp.
  - unfold writeActions. rewrite writeRows_text by done.
    cbn [mbind res_bind]. rewrite !Line_buf. cbn [codegen.buf].
    unfold tableText. by rewrite !string_app_assoc.
Qed.

End Layout.

Lemma writeActions_layout_witness :
  ∃ keyss : list (list string),
    Forall2 (λ (row : gmap string Action) keys,
               StronglySorted str_lt keys
               ∧ keys ≡ₚ elements (dom row : gset string))
            [ {[ "t" := Shift 1; "n" := Shift 2 ]}; {[ "$" := Reduce 0 ]};
              {[ "t" := Reduce 1; "$" := Reduce 1 ]} ] keyss
    ∧ writeActions quote_plain (λ row, elements (dom row : gset string))
        (ruleIdsOf (newGrammar [mkRule "s" "" ["t"] [""] "";
                                mkRule "s" "" ["n"; "t"] [""; ""] ""]))
        codegen.empty "lr"
        [ {[ "t" := Shift 1; "n" := Shift 2 ]}; {[ "$" := Reduce 0 ]};
          {[ "t" := Reduce 1; "$" := Reduce 1 ]} ]
      = Ok (codegen.mkWriter
              (codegen.buf codegen.empty
               +:+ tableText quote_plain "lr"
                     [ {[ "t" := Shift 1; "n" := Shift 2 ]}; {[ "$" := Reduce 0 ]};
                       {[ "t" := Reduce 1; "$" := Reduce 1 ]} ] keyss)).
Proof.
  apply writeActions_layout.
  - intros row. reflexivity.
  - refine (bool_decide_unpack _ _). vm_compute. exact I.
Defined.

End emit_facts.

(** ** FIRST sets and the order of map iteration *)

Module first_facts.
Import lr.

(** A loop that ends within its bound ends the same way within any larger
    bound. *)
Lemma First_loop_mono (fuel fuel' : nat) (first r : SymbolMap) :
  First_loop fuel first = Ok r → fuel ≤ fuel' → First_loop fuel' first = Ok r.
Proof.
  revert fuel' first. induction fuel as [|fuel IH]; intros fuel' first; [done|].
  intros Hrun Hle. destruct fuel' as [|fuel']; [lia|].
  cbn in *. destruct (First_pass first) as [first' [|]]; [|done].
  apply IH; [done | lia].
Qed.

Lemma Follow_loop_mono (fuel fuel' : nat) g (first follow r : SymbolMap) :
  Follow_loop fuel g first follow = Ok r → fuel ≤ fuel' →
  Follow_loop fuel' g first follow = Ok r.
Proof.
  revert fuel' follow. induction fuel as [|fuel IH]; intros fuel' follow; [done|].
  intros Hrun Hle. destruct fuel' as [|fuel']; [lia|].
  cbn in *. destruct (Follow_pass g first follow) as [follow' [|]]; [|done].
  apply IH; [done | lia].
Qed.

Lemma Shift_loop_mono (fuel fuel' : nat) o g i states allActions r :
  Shift_loop fuel o g i states allActions = Ok r → fuel ≤ fuel' →
  Shift_loop fuel' o g i states allActions = Ok r.
Proof.
  revert fuel' i states allActions.
  induction fuel as [|fuel IH]; intros fuel' i states allActions Hrun Hle.
  - destruct fuel'; cbn in *; by destruct (states !! i).
  - destruct fuel' as [|fuel']; [lia|]. cbn in *.
    destruct (states !! i) as [set|]; [|done].
    destruct (foldl _ _ _) as [states' actions].
    apply IH; [done | lia].
Qed.

Lemma First_mono (fuel fuel' : nat) g r :
  First fuel g = Ok r → fuel ≤ fuel' → First fuel' g = Ok r.
Proof.
  unfold First. intros Hrun Hle.
  destruct (First_seed (CollectSymbols g)) as [first0| |]; [|done..].
  cbn in *.
  destruct (First_loop fuel first0) as [first| |] eqn:Hloop; [|done..].
  by rewrite (First_loop_mono _ _ _ _ Hloop Hle).
Qed.

Lemma Follow_mono (fuel fuel' : nat) g first r :
  Follow fuel g first = Ok r → fuel ≤ fuel' → Follow fuel' g first = Ok r.
Proof.
  unfold Follow. destruct (rules g); [done|]. apply Follow_loop_mono.
Qed.

(** The grammar [E := A; A := x]. *)
Definition chain : Grammar :=
  newGrammar [mkRule "E" "T" ["A"] [""] ""; mkRule "A" "T" ["x"] [""] ""].

(** C2 fails on the code.  For the grammar [E := A; A := x] the loop of
    [First] ends, and in the map it returns [first["E"]] holds [A], which
    is a nonterminal: the head of a pattern is put into the set of its
    rule and nothing takes it out again. *)
Theorem First_keeps_nonterminal :
  ∃ g' first,
    (∀ fuel, 2 ≤ fuel → First fuel chain = Ok (g', first))
    ∧ first !! "E" = Some ({[ "A"; "x" ]} : gset string)
    ∧ "A" ∈ nonterminals g' ∧ "A" ∉ terminals g'.
Proof.
  assert (holds (First 2 chain) (λ r,
            r.2 !! "E" = Some ({[ "A"; "x" ]} : gset string)
            ∧ bool_decide ("A" ∈ nonterminals r.1) = true
            ∧ bool_decide ("A" ∈ terminals r.1) = false)) as Hrun.
  { vm_compute. by split_and!. }
  apply holds_inv in Hrun as ([g' first] & HFirst & HE & Hnt & Ht).
  exists g', first. split_and!.
  - intros fuel Hfuel. exact (First_mono _ _ _ _ HFirst Hfuel).
  - exact HE.
  - by apply bool_decide_eq_true_1 in Hnt.
  - by apply bool_decide_eq_false_1 in Ht.
Qed.

End first_facts.

(** ** The output and the order of map iteration *)

Module order_facts.
Import lr.

(** Writing after a longer buffer gives the same bytes after the longer
    buffer. *)
Definition shifted (p : string) (r : res codegen.Writer) : res codegen.Writer :=
  w ← r; Ok (codegen.mkWriter (p +:+ codegen.buf w)).

Definition prefix_stable (f : codegen.Writer → res codegen.Writer) : Prop :=
  ∀ p w, f (codegen.mkWriter (p +:+ codegen.buf w)) = shifted p (f w).

Lemma Line_shift (p : string) (w : codegen.Writer) (text : string) :
  codegen.Line (codegen.mkWriter (p +:+ codegen.buf w)) text
  = codegen.mkWriter (p +:+ codegen.buf (codegen.Line w text)).
Proof.
  unfold codegen.Line, codegen.WriteString. cbn [codegen.buf].
  by rewrite string_app_assoc.
Qed.

Lemma prefix_stable_bind (f h : codegen.Writer → res codegen.Writer) :
  prefix_stable f → prefix_stable h → prefix_stable (λ w, w' ← f w; h w').
Proof.
  intros Hf Hh p w. cbn beta. rewrite Hf. unfold shifted.
  destruct (f w) as [w'| |]; cbn; [|done..]. apply Hh.
Qed.

Lemma prefix_stable_foldl {B} (f : codegen.Writer → B → res codegen.Writer)
    (l : list B) :
  (∀ b, prefix_stable (λ w, f w b)) → prefix_stable (λ w, res_foldl f w l).
Proof.
  intros Hf. induction l as [|b l IH]; intros p w; [done|].
  cbn [res_foldl]. apply (prefix_stable_bind (λ w, f w b) _ (Hf b) IH).
Qed.

Section Stable.

Variable quote : string → string.

Lemma writeVar_stable types r jv :
  prefix_stable (λ w, writeVar types r w jv).
Proof.
  intros p w. unfold writeVar. destruct jv as [j varname].
  case_decide; [done|].
  destruct (pattern r !! j); [|done]. cbn [shifted mbind res_bind]. by rewrite Line_shift.
Qed.

Lemma writeRule_stable types r : prefix_stable (λ w, writeRule quote types w r).
Proof.
  intros p w. unfold writeRule. rewrite Line_shift.
  case_decide.
  - cbn [shifted mbind res_bind]. by rewrite !Line_shift.
  - rewrite Line_shift.
    rewrite (prefix_stable_foldl _ _ (writeVar_stable types r)).
    unfold shifted. destruct (res_foldl _ _ _) as [w'| |]; cbn [mbind res_bind]; [|done..].
    by rewrite !Line_shift.
Qed.

Lemma writeEntry_stable ruleIds state tok :
  prefix_stable (λ w, writeEntry quote ruleIds state w tok).
Proof.
  intros p w. unfold writeEntry.
  destruct (state !! tok) as [[s|r]|]; cbn [shifted mbind res_bind];
    by rewrite ?Line_shift.
Qed.

Lemma writeRow_stable keyRange ruleIds state :
  prefix_stable (λ w, writeRow quote keyRange ruleIds w state).
Proof.
  intros p w. unfold writeRow. rewrite Line_shift.
  rewrite (prefix_stable_foldl _ _ (writeEntry_stable ruleIds state)).
  unfold shifted. destruct (res_foldl _ _ _) as [w'| |]; cbn [mbind res_bind]; [|done..].
  by rewrite Line_shift.
Qed.

Lemma writeActions_stable keyRange ruleIds prefix table :
  prefix_stable (λ w, writeActions quote keyRange ruleIds w prefix table).
Proof.
  intros p w. unfold writeActions. rewrite Line_shift.
  rewrite (prefix_stable_foldl _ _ (writeRow_stable keyRange ruleIds)).
  unfold shifted. destruct (res_foldl _ _ _) as [w'| |]; cbn [mbind res_bind]; [|done..].
  by rewrite Line_shift.
Qed.

Lemma writeTables_stable keyRange prefix g table :
  prefix_stable (λ w, writeTables quote keyRange w prefix g table).
Proof.
  intros p w. unfold writeTables. rewrite Line_shift.
  rewrite (prefix_stable_foldl _ _ (writeRule_stable _)).
  unfold shifted. destruct (res_foldl _ _ _) as [w'| |]; cbn [mbind res_bind]; [|done..].
  rewrite !Line_shift. apply writeActions_stable.
Qed.

(** The text that the template contributes stands in front of the rest,
    which does not depend on it. *)
Lemma emit_template template fuel o keyRange params rs :
  emit quote template fuel o keyRange params rs
  = shifted (template params)
            (emit quote (λ _, "") fuel o keyRange params rs).
Proof.
  unfold emit. destruct (ComputeActions _ _ _) as [[actions log]| |]; [|done..].
  cbn [mbind res_bind]. destruct (rules (newGrammar rs)) as [|r0 rest]; [done|].
  replace (codegen.WriteString codegen.empty (template params))
    with (codegen.mkWriter (template params
            +:+ codegen.buf (codegen.WriteString codegen.empty ""))).
  - rewrite !Line_shift. apply writeTables_stable.
  - unfold codegen.WriteString. cbn. by rewrite string_app_nil_r.
Qed.

End Stable.

(** The order of the keys, and the reverse order. *)
Definition forwards : MapOrder :=
  mkMapOrder (λ _ s, elements s) (λ _ s, elements s) (λ _ _ s, elements s).

Definition backwards : MapOrder :=
  mkMapOrder (λ _ s, reverse (elements s)) (λ _ s, reverse (elements s))
             (λ _ _ s, reverse (elements s)).

Lemma forwards_ok : MapOrder_ok forwards.
Proof. by split_and!. Qed.

Lemma backwards_ok : MapOrder_ok backwards.
Proof. split_and!; intros; apply reverse_Permutation. Qed.

(** C1 fails on the code.  [ComputeActions] numbers the states in the
    order in which [range grammar.symbols] delivers the symbols, and that
    order is not fixed by the input.  For the rules [start := item] and
    [item := x], two orders that both visit every key once give two
    buffers that differ: the states reached on [item] and on [x] swap
    their numbers, and the rows of the emitted table with them. *)
Theorem emit_depends_on_map_order (template : Params → string) :
  let rs := [mkRule "start" "T" ["item"] [""] "";
             mkRule "item" "T" ["x"] [""] ""] in
  let params := mkParams "lr" "main" "Token" false in
  let keyRange := λ row : gmap string Action, elements (dom row : gset string) in
  ∃ w1 w2,
    MapOrder_ok forwards ∧ MapOrder_ok backwards
    ∧ emit quote_plain template 3 forwards keyRange params rs = Ok w1
    ∧ emit quote_plain template 3 backwards keyRange params rs = Ok w2
    ∧ codegen.Raw w1 ≠ codegen.Raw w2.
Proof.
  intros rs params keyRange.
  assert (holds (emit quote_plain (λ _, "") 3 forwards keyRange params rs)
            (λ w1,
               holds (emit quote_plain (λ _, "") 3 backwards keyRange params rs)
                 (λ w2, String.eqb (codegen.buf w1) (codegen.buf w2) = false)))
    as Hrun.
  { vm_compute. reflexivity. }
  apply holds_inv in Hrun as (w1 & H1 & Hrun).
  apply holds_inv in Hrun as (w2 & H2 & Hneq).
  exists (codegen.mkWriter (template params +:+ codegen.buf w1)),
    (codegen.mkWriter (template params +:+ codegen.buf w2)).
  split_and!.
  - apply forwards_ok.
  - apply backwards_ok.
  - rewrite emit_template. fold rs params keyRange. rewrite H1. reflexivity.
  - rewrite emit_template. fold rs params keyRange. rewrite H2. reflexivity.
  - cbn [codegen.Raw codegen.buf]. intros Heq%string_app_inv_head.
    apply String.eqb_neq in Hneq. exact (Hneq Heq).
Qed.

End order_facts.

(** ** The canonical collection *)

Module states_facts.
Import lr.

(** [Equals] decides equality of item sets. *)
Lemma ItemSet_Equals_eq (a b : ItemSet) : ItemSet_Equals a b = true ↔ a = b.
Proof.
  unfold ItemSet_Equals. split.
  - destruct (Nat.eqb_spec (size a) (size b)) as [Hsize|]; [|done]. cbn.
    rewrite forallb_forall. intros Hall.
    apply (set_subseteq_size_eq (C:=ItemSet)); [|lia].
    intros k Hk. apply (bool_decide_eq_true_1 (k ∈ b)), Hall.
    by apply list_elem_of_In, elem_of_elements.
  - intros ->. rewrite Nat.eqb_refl. cbn. apply forallb_forall.
    intros k Hk%list_elem_of_In%elem_of_elements.
    by apply bool_decide_eq_true_2.
Qed.

Lemma ItemSet_Empty_eq (a : ItemSet) : ItemSet_Empty a = true ↔ a = ∅.
Proof.
  unfold ItemSet_Empty. rewrite Nat.eqb_eq, size_empty_iff.
  by unfold_leibniz.
Qed.

Lemma findState_Some c states k j :
  findState c states k = Some j → k ≤ j ∧ states !! (j - k) = Some c.
Proof.
  revert k. induction states as [|oset rest IH]; intros k; [done|]. cbn.
  destruct (ItemSet_Equals c oset) eqn:Heq.
  - intros [= <-]. apply ItemSet_Equals_eq in Heq as <-.
    by rewrite Nat.sub_diag.
  - intros [Hle Hj]%IH. split; [lia|].
    replace (j - k) with (S (j - S k)) by lia. done.
Qed.

Lemma findState_None c states k : findState c states k = None → c ∉ states.
Proof.
  revert k. induction states as [|oset rest IH]; intros k.
  - intros _ ?%elem_of_nil. done.
  - cbn. destruct (ItemSet_Equals c oset) eqn:Heq; [done|].
    intros Hnone [->|Hin]%elem_of_cons.
    + assert (ItemSet_Equals oset oset = true) by by apply ItemSet_Equals_eq.
      congruence.
    + by eapply IH.
Qed.

(** What the shift entries of a row say, for the state [set] of the row:
    an entry on [term] is a [Shift] to a state that is the goto of [set]
    on [term]. *)
Definition row_sound (g : Grammar) (states : list ItemSet) (set : ItemSet)
    (row : gmap string Action) : Prop :=
  ∀ term a, row !! term = Some a →
    ∃ j, a = Shift j ∧ states !! j = Some (Goto g set term)
         ∧ Goto g set term ≠ ∅.

Lemma row_sound_app g states ext set row :
  row_sound g states set row → row_sound g (states ++ ext) set row.
Proof.
  intros Hrow term a Ha. destruct (Hrow term a Ha) as (j & -> & Hj & Hne).
  exists j. split_and!; [done| |done]. by apply lookup_app_l_Some.
Qed.

Lemma Shift_step_spec g set states actions term :
  NoDup states → row_sound g states set actions →
  ∃ ext,
    (Shift_step g set (states, actions) term).1 = states ++ ext
    ∧ NoDup (states ++ ext)
    ∧ row_sound g (states ++ ext) set
        (Shift_step g set (states, actions) term).2
    ∧ (∀ x, is_Some (actions !! x) →
            is_Some ((Shift_step g set (states, actions) term).2 !! x))
    ∧ (Goto g set term ≠ ∅ →
       is_Some ((Shift_step g set (states, actions) term).2 !! term)).
Proof.
  intros Hnd Hrow. unfold Shift_step.
  destruct (ItemSet_Empty (Goto g set term)) eqn:Hempty.
  { apply ItemSet_Empty_eq in Hempty. exists []. rewrite app_nil_r.
    split_and!; done. }
  assert (Goto g set term ≠ ∅) as Hne.
  { intros Heq%ItemSet_Empty_eq. congruence. }
  destruct (findState (Goto g set term) states 0) as [id|] eqn:Hfind.
  - apply findState_Some in Hfind as [_ Hid]. rewrite Nat.sub_0_r in Hid.
    exists []. rewrite app_nil_r. cbn [fst snd]. split_and!; [done..| | |].
    + intros x a. destruct (decide (term = x)) as [<-|Hx].
      * rewrite lookup_insert_eq. intros [= <-]. by exists id.
      * rewrite lookup_insert_ne by done. apply Hrow.
    + intros x Hx. destruct (decide (term = x)) as [<-|Hne'].
      * by rewrite lookup_insert_eq.
      * by rewrite lookup_insert_ne.
    + intros _. by rewrite lookup_insert_eq.
  - apply findState_None in Hfind.
    exists [Goto g set term]. cbn [fst snd]. split_and!; [done| | | |].
    + apply NoDup_app. split_and!; [done| |apply NoDup_singleton].
      intros x Hx ->%list_elem_of_singleton. done.
    + intros x a. destruct (decide (term = x)) as [<-|Hx].
      * rewrite lookup_insert_eq. intros [= <-].
        exists (length (states ++ [Goto g set term]) - 1).
        split_and!; [done| |done].
        rewrite length_app. cbn [length].
        replace (length states + 1 - 1) with (length states + 0) by lia.
        by rewrite lookup_app_r, Nat.add_0_r, Nat.sub_diag by lia.
      * rewrite lookup_insert_ne by done. intros Ha.
        by eapply row_sound_app.
    + intros x Hx. destruct (decide (term = x)) as [<-|Hne'].
      * by rewrite lookup_insert_eq.
      * by rewrite lookup_insert_ne.
    + intros _. by rewrite lookup_insert_eq.
Qed.

Lemma Shift_row_spec g set terms states actions :
  NoDup states → row_sound g states set actions →
  ∃ ext,
    (foldl (Shift_step g set) (states, actions) terms).1 = states ++ ext
    ∧ NoDup (states ++ ext)
    ∧ row_sound g (states ++ ext) set
        (foldl (Shift_step g set) (states, actions) terms).2
    ∧ (∀ x, is_Some (actions !! x) →
            is_Some ((foldl (Shift_step g set) (states, actions) terms).2 !! x))
    ∧ (∀ term, term ∈ terms → Goto g set term ≠ ∅ →
         is_Some ((foldl (Shift_step g set) (states, actions) terms).2 !! term)).
Proof.
  revert states actions.
  induction terms as [|term terms IH]; intros states actions Hnd Hrow.
  - exists []. rewrite app_nil_r. cbn. split_and!; [done..|].
    by intros term ?%elem_of_nil.
  - cbn [foldl].
    destruct (Shift_step_spec g set states actions term Hnd Hrow)
      as (ext1 & Hst & Hnd1 & Hrow1 & Hkeep1 & Hnew1).
    destruct (Shift_step g set (states, actions) term) as [states1 actions1].
    cbn [fst snd] in *. subst states1.
    destruct (IH _ _ Hnd1 Hrow1) as (ext2 & Hst2 & Hnd2 & Hrow2 & Hkeep2 & Hnew2).
    exists (ext1 ++ ext2). rewrite app_assoc.
    split_and!; [done..| |].
    + intros x Hx. by apply Hkeep2, Hkeep1.
    + intros x [->|Hx]%elem_of_cons Hne.
      * by apply Hkeep2, Hnew1.
      * by apply Hnew2.
Qed.

(** A row has an entry on every symbol of the grammar on which its state
    has a goto. *)
Definition row_complete (g : Grammar) (set : ItemSet)
    (row : gmap string Action) : Prop :=
  ∀ term, term ∈ symbols g → Goto g set term ≠ ∅ → is_Some (row !! term).

(** The loop invariant of the state loop: the states are pairwise
    different, the first [i] of them have their rows, and each row is
    sound and complete for its state. *)
Definition collection_ok (g : Grammar) (states : list ItemSet)
    (allActions : ActionTable) : Prop :=
  NoDup states
  ∧ length allActions ≤ length states
  ∧ ∀ k row, allActions !! k = Some row →
      ∃ set, states !! k = Some set
             ∧ row_sound g states set row ∧ row_complete g set row.

Lemma Shift_loop_spec fuel o g i states allActions states' allActions' :
  MapOrder_ok o →
  collection_ok g states allActions → length allActions = i →
  Shift_loop fuel o g i states allActions = Ok (states', allActions') →
  collection_ok g states' allActions'
  ∧ length allActions' = length states'
  ∧ ∃ ext, states' = states ++ ext.
Proof.
  intros Ho. revert i states allActions.
  induction fuel as [|fuel IH]; intros i states allActions Hok Hlen Hrun.
  - cbn in Hrun. destruct (states !! i) eqn:Hi; [done|].
    injection Hrun as <- <-. apply lookup_ge_None in Hi.
    pose proof Hok as (Hnd & Hle & Hrows).
    split_and!; [done | lia | exists []; by rewrite app_nil_r].
  - cbn in Hrun. destruct (states !! i) as [set|] eqn:Hi.
    + destruct Hok as (Hnd & Hle & Hrows).
      destruct (Shift_row_spec g set (symRange o i (symbols g)) states ∅ Hnd)
        as (ext & Hst & Hnd1 & Hrow1 & _ & Hnew1).
      { intros term a. by rewrite lookup_empty. }
      destruct (foldl _ _ _) as [states1 actions1]. cbn [fst snd] in *.
      subst states1.
      apply IH in Hrun as (Hok' & Hlen' & ext' & ->).
      * split_and!; [done..|]. exists (ext ++ ext'). by rewrite app_assoc.
      * split_and!; [done| |].
        { rewrite !length_app. cbn. apply lookup_lt_Some in Hi. lia. }
        intros k row Hk. apply lookup_app_Some in Hk as [Hk|[Hge Hk]].
        -- destruct (Hrows k row Hk) as (setk & Hsetk & Hsound & Hcompl).
           exists setk. split_and!; [|by apply row_sound_app|done].
           by apply lookup_app_l_Some.
        -- apply list_lookup_singleton_Some in Hk as [Hk <-].
           assert (k = i) as -> by lia.
           exists set. split_and!; [by apply lookup_app_l_Some|done|].
           intros term Hterm Hne. apply Hnew1; [|done].
           destruct Ho as (Hsym & _). rewrite (Hsym i (symbols g)).
           by apply elem_of_elements.
      * rewrite length_app. cbn. lia.
    + injection Hrun as <- <-. apply lookup_ge_None in Hi.
      pose proof Hok as (Hnd & Hle & Hrows).
      split_and!; [done | lia | exists []; by rewrite app_nil_r].
Qed.

Lemma rules_CollectSymbols g : rules (CollectSymbols g) = rules g.
Proof.
  unfold CollectSymbols.
  destruct (foldl _ _ _) as [nts syms]. by destruct (foldl _ _ _).
Qed.

Lemma First_rules fuel g g' first :
  First fuel g = Ok (g', first) → g' = CollectSymbols g.
Proof.
  unfold First. destruct (First_seed _) as [first0| |]; [|done..]. cbn.
  destruct (First_loop _ _) as [first1| |]; [|done..]. cbn. by intros [= <- _].
Qed.

Lemma ComputeStates_collection fuel o g g' follow states allActions :
  MapOrder_ok o →
  ComputeStates fuel o g = Ok (g', follow, states, allActions) →
  collection_ok g' states allActions ∧ length allActions = length states
  ∧ states !! 0 = Some (Closure g' {[ mkItem 0 0 ]}).
Proof.
  intros Ho. unfold ComputeStates.
  destruct (First fuel g) as [[g1 first]| |]; [|done..].
  cbn [mbind res_bind].
  destruct (Follow fuel g1 first) as [follow1| |]; [|done..].
  cbn [mbind res_bind].
  destruct (rules g1) as [|r0 rs]; [done|].
  destruct (Shift_loop fuel o g1 0 [Closure g1 {[ mkItem 0 0 ]}] [])
    as [[states1 allActions1]| |] eqn:Hloop; [|done..].
  cbn [mbind res_bind]. intros [= -> -> -> ->].
  apply Shift_loop_spec in Hloop as (Hok & Hlen & ext & ->); [done|done| |done].
  split_and!; [apply NoDup_singleton | cbn; lia | done].
Qed.

(** C5.  In the collection that [ComputeActions] builds no two states are
    equal as item sets, so [Equals] is false on any two of them.  State 0
    is the closure of the start item.  Every shift entry of row [i] on a
    symbol leads to the state that is the goto of state [i] on that
    symbol (a goto already in the list is found there and its index
    used, a new one is appended), and row [i] has an entry on every symbol
    of the grammar on which state [i] has a non-empty goto. *)
Theorem ComputeStates_canonical fuel o g g' follow states allActions :
  MapOrder_ok o →
  ComputeStates fuel o g = Ok (g', follow, states, allActions) →
  NoDup states
  ∧ (∀ i j a b, states !! i = Some a → states !! j = Some b → i ≠ j →
       ItemSet_Equals a b = false)
  ∧ length allActions = length states
  ∧ states !! 0 = Some (Closure g' {[ mkItem 0 0 ]})
  ∧ ∀ i set row, states !! i = Some set → allActions !! i = Some row →
      row_sound g' states set row ∧ row_complete g' set row.
Proof.
  intros Ho. unfold ComputeStates.
  destruct (First fuel g) as [[g1 first]| |] eqn:HFirst; [|done..].
  cbn [mbind res_bind].
  destruct (Follow fuel g1 first) as [follow1| |]; [|done..].
  cbn [mbind res_bind].
  destruct (rules g1) as [|r0 rs]; [done|].
  destruct (Shift_loop fuel o g1 0 [Closure g1 {[ mkItem 0 0 ]}] [])
    as [[states1 allActions1]| |] eqn:Hloop; [|done..].
  cbn [mbind res_bind]. intros [= -> -> -> ->].
  apply Shift_loop_spec in Hloop
    as ((Hnd & Hle & Hrows) & Hlen & ext & ->); [|done| |done].
  - split_and!; [done| |done|done|].
    + intros i j a b Hi Hj Hij.
      destruct (ItemSet_Equals a b) eqn:Heq; [|done].
      apply ItemSet_Equals_eq in Heq as ->.
      destruct Hij. by eapply NoDup_lookup.
    + intros i set row Hi Hrow.
      destruct (Hrows i row Hrow) as (set' & Hset' & Hsound & Hcompl).
      by simplify_eq.
  - split_and!; [apply NoDup_singleton | cbn; lia | done].
Qed.

Lemma ComputeStates_canonical_witness :
  ∃ g' follow states allActions,
    ComputeStates 3 order_facts.forwards first_facts.chain
    = Ok (g', follow, states, allActions)
    ∧ NoDup states
    ∧ (∀ i j a b, states !! i = Some a → states !! j = Some b → i ≠ j →
         ItemSet_Equals a b = false)
    ∧ length allActions = length states
    ∧ states !! 0 = Some (Closure g' {[ mkItem 0 0 ]})
    ∧ ∀ i set row, states !! i = Some set → allActions !! i = Some row →
        row_sound g' states set row ∧ row_complete g' set row.
Proof.
  assert (holds (ComputeStates 3 order_facts.forwards first_facts.chain)
            (λ _, True)) as Hok.
  { vm_compute. exact I. }
  apply holds_inv in Hok as ([[[g' follow] states] allActions] & Hrun & _).
  exists g', follow, states, allActions. split; [exact Hrun|].
  exact (ComputeStates_canonical _ _ _ _ _ _ _ order_facts.forwards_ok Hrun).
Defined.

End states_facts.

(** ** Reduce entries and conflicts *)

Module reduce_facts.
Import lr.

(** The stores of the reduce loop in state [i], in the order in which the
    loop makes them: for every item of the state with the dot at the end,
    in the order of [range set], every input of the follow set of its
    rule, in the order of [range f]. *)
Definition installs (o : MapOrder) (g : Grammar) (follow : SymbolMap)
    (i : nat) (set : ItemSet) : list (Item * string) :=
  flat_map (λ item,
              if (NextSym g item).2
              then map (pair item)
                       (termRange o i item (follow !!! symbol (Item_rule g item)))
              else [])
           (itemRange o i set).

(** The row after a list of stores. *)
Definition rowAfter (row : gmap string Action) (l : list (Item * string))
  : gmap string Action :=
  foldl (λ row it, <[it.2 := Reduce (rule it.1)]> row) row l.

(** The reports that a list of stores adds to the log. *)
Fixpoint conflictsOf (set : ItemSet) (i : nat) (row : gmap string Action)
    (l : list (Item * string)) : list Conflict :=
  match l with
  | [] => []
  | it :: l =>
      match row !! it.2 with
      | Some found => [mkConflict set i it.2 found (rule it.1)]
      | None => []
      end ++ conflictsOf set i (<[it.2 := Reduce (rule it.1)]> row) l
  end.

Lemma Reduce_terms_spec set i item terms row log :
  foldl (Reduce_term set i item) (row, log) terms
  = (rowAfter row (map (pair item) terms),
     log ++ conflictsOf set i row (map (pair item) terms)).
Proof.
  revert row log. induction terms as [|term terms IH]; intros row log.
  - cbn. by rewrite app_nil_r.
  - cbn [foldl map]. unfold Reduce_term at 2. rewrite IH.
    cbn [conflictsOf rowAfter foldl fst snd]. f_equal.
    destruct (row !! term); [|done]. by rewrite <- app_assoc.
Qed.

Lemma rowAfter_app row l1 l2 :
  rowAfter row (l1 ++ l2) = rowAfter (rowAfter row l1) l2.
Proof. apply foldl_app. Qed.

Lemma conflictsOf_app set i row l1 l2 :
  conflictsOf set i row (l1 ++ l2)
  = conflictsOf set i row l1 ++ conflictsOf set i (rowAfter row l1) l2.
Proof.
  revert row. induction l1 as [|it l1 IH]; intros row; [done|].
  cbn [app conflictsOf]. rewrite IH. by rewrite <- app_assoc.
Qed.

Lemma Reduce_items_spec o g follow set i items row log :
  foldl (Reduce_item o g follow set i) (row, log) items
  = (rowAfter row
       (flat_map (λ item,
          if (NextSym g item).2
          then map (pair item)
                 (termRange o i item (follow !!! symbol (Item_rule g item)))
          else []) items),
     log ++ conflictsOf set i row
       (flat_map (λ item,
          if (NextSym g item).2
          then map (pair item)
                 (termRange o i item (follow !!! symbol (Item_rule g item)))
          else []) items)).
Proof.
  revert row log. induction items as [|item items IH]; intros row log.
  - cbn. by rewrite app_nil_r.
  - cbn [foldl flat_map]. unfold Reduce_item at 2.
    destruct (NextSym g item).2; cbn [negb].
    + rewrite Reduce_terms_spec, IH.
      by rewrite rowAfter_app, conflictsOf_app, <- app_assoc.
    + by rewrite IH.
Qed.

Lemma Reduce_state_spec o g follow tbl log i set row :
  tbl !! i = Some row →
  Reduce_state o g follow (tbl, log) (i, set)
  = Ok (<[i := rowAfter row (installs o g follow i set)]> tbl,
        log ++ conflictsOf set i row (installs o g follow i set)).
Proof.
  intros Hrow. unfold Reduce_state. rewrite Hrow.
  by rewrite Reduce_items_spec.
Qed.

Lemma Reduce_states_spec o g follow sts k tbl log :
  k + length sts ≤ length tbl →
  ∃ tbl' log',
    res_foldl (Reduce_state o g follow) (tbl, log)
              (imap (λ j, pair (k + j)) sts) = Ok (tbl', log')
    ∧ length tbl' = length tbl
    ∧ (∀ c, c ∈ log → c ∈ log')
    ∧ (∀ x, x < k → tbl' !! x = tbl !! x)
    ∧ ∀ j set row, sts !! j = Some set → tbl !! (k + j) = Some row →
        tbl' !! (k + j) = Some (rowAfter row (installs o g follow (k + j) set))
        ∧ ∀ c, c ∈ conflictsOf set (k + j) row (installs o g follow (k + j) set) →
               c ∈ log'.
Proof.
  revert k tbl log. induction sts as [|set sts IH]; intros k tbl log Hlen.
  - exists tbl, log. cbn. split_and!; [done..|]. by intros j set row ?.
  - cbn [imap res_foldl length] in *.
    destruct (lookup_lt_is_Some_2 tbl k) as [row Hrow]; [lia|].
    rewrite Nat.add_0_r, (Reduce_state_spec _ _ _ _ _ _ _ row) by done.
    cbn [mbind res_bind].
    rewrite (imap_ext _ (λ j, pair (S k + j))) by (intros; cbn; f_equal; lia).
    destruct (IH (S k) (<[k := rowAfter row (installs o g follow k set)]> tbl)
                (log ++ conflictsOf set k row (installs o g follow k set)))
      as (tbl' & log' & Hrun & Hlen' & Hlog & Hlow & Hrows).
    { rewrite length_insert. lia. }
    exists tbl', log'. rewrite length_insert in Hlen'.
    split_and!; [done..| | |].
    + intros c Hc. apply Hlog, elem_of_app. by left.
    + intros x Hx. rewrite Hlow by lia. by rewrite list_lookup_insert_ne by lia.
    + intros [|j] set' row' Hset' Hrow'.
      * rewrite Nat.add_0_r in *. cbn in Hset'. simplify_eq. split.
        -- rewrite Hlow by lia. apply list_lookup_insert_eq.
           by eapply lookup_lt_Some.
        -- intros c Hc. apply Hlog, elem_of_app. by right.
      * cbn in Hset'. replace (k + S j) with (S k + j) in * by lia.
        apply Hrows; [done|]. by rewrite list_lookup_insert_ne by lia.
Qed.

Lemma conflictsOf_elem set i row pre item term post found :
  rowAfter row pre !! term = Some found →
  mkConflict set i term found (rule item)
  ∈ conflictsOf set i row (pre ++ (item, term) :: post).
Proof.
  intros Hfound. rewrite conflictsOf_app. apply elem_of_app. right.
  cbn [conflictsOf fst snd]. rewrite Hfound. left.
Qed.

Lemma rowAfter_last_Reduce row l term :
  (∃ item, (item, term) ∈ l) →
  ∃ item, (item, term) ∈ l ∧ rowAfter row l !! term = Some (Reduce (rule item)).
Proof.
  induction l as [|[item' term'] l IH] using rev_ind.
  { intros [item Hin]. by apply elem_of_nil in Hin. }
  intros [item Hin]. rewrite rowAfter_app. cbn.
  destruct (decide (term' = term)) as [->|Hne].
  - exists item'. rewrite lookup_insert_eq. split; [|done].
    apply elem_of_app. right. left.
  - rewrite lookup_insert_ne by done.
    apply elem_of_app in Hin as [Hin|Hin%list_elem_of_singleton];
      [|congruence].
    destruct IH as (item0 & Hin0 & Hrow0); [by exists item|].
    exists item0. split; [|done]. apply elem_of_app. by left.
Qed.

Lemma installs_elem o g follow i set item term :
  MapOrder_ok o →
  (item, term) ∈ installs o g follow i set
  ↔ item ∈ set ∧ (NextSym g item).2 = true
    ∧ term ∈ follow !!! symbol (Item_rule g item).
Proof.
  intros (_ & Hitems & Hterms). unfold installs.
  rewrite list_elem_of_In, in_flat_map. split.
  - intros (item' & Hin & Hpair).
    apply list_elem_of_In in Hin. rewrite (Hitems i set) in Hin.
    apply elem_of_elements in Hin.
    destruct (NextSym g item').2 eqn:Hend; [|by destruct Hpair].
    apply list_elem_of_In, list_elem_of_fmap in Hpair as (t & [= -> ->] & Ht).
    rewrite (Hterms i item') in Ht. apply elem_of_elements in Ht. done.
  - intros (Hin & Hend & Hterm). exists item. split.
    + apply list_elem_of_In. rewrite (Hitems i set). by apply elem_of_elements.
    + rewrite Hend. apply list_elem_of_In, list_elem_of_fmap. exists term.
      split; [done|]. rewrite (Hterms i item). by apply elem_of_elements.
Qed.

(** C4.  Once the states are there, [ComputeActions] runs to its end and
    returns a table with one row per state: no conflict stops it.  For
    every state [i], every item of the state with the dot at the end and
    every input [term] of the follow set of the item's rule, the store of
    the [Reduce] for that rule is one of the stores of the loop.  If the
    cell holds an action [found] when that store is made, the log has the
    report with the state [i] (and its item set), the input [term], the
    action [found] and the rule; the store puts the [Reduce] of the rule
    into the cell whatever was there; and at the end the cell holds the
    [Reduce] of the last rule stored there. *)
Theorem ComputeActions_conflicts fuel o g g' follow states allActions :
  MapOrder_ok o →
  ComputeStates fuel o g = Ok (g', follow, states, allActions) →
  ∃ table log,
    ComputeActions fuel o g = Ok (table, log)
    ∧ length table = length states
    ∧ ∀ i set row item term,
        states !! i = Some set → allActions !! i = Some row →
        item ∈ set → (NextSym g' item).2 = true →
        term ∈ follow !!! symbol (Item_rule g' item) →
        ∃ pre post,
          installs o g' follow i set = pre ++ (item, term) :: post
          ∧ (∀ found, rowAfter row pre !! term = Some found →
               mkConflict set i term found (rule item) ∈ log)
          ∧ rowAfter row (pre ++ [(item, term)]) !! term
            = Some (Reduce (rule item))
          ∧ table !! i = Some (rowAfter row (installs o g' follow i set))
          ∧ ∃ item', (item', term) ∈ installs o g' follow i set
              ∧ rowAfter row (installs o g' follow i set) !! term
                = Some (Reduce (rule item')).
Proof.
  intros Ho Hstates.
  destruct (states_facts.ComputeStates_collection _ _ _ _ _ _ _ Ho Hstates)
    as (_ & Hlen & _).
  unfold ComputeActions. rewrite Hstates. cbn [mbind res_bind].
  unfold Reduce_loop.
  destruct (Reduce_states_spec o g' follow states 0 allActions [])
    as (table & log & Hrun & Hlen' & _ & _ & Hrows); [cbn; lia|].
  exists table, log. split_and!; [done | lia |].
  intros i set row item term Hset Hrow Hitem Hend Hterm.
  assert ((item, term) ∈ installs o g' follow i set) as Hin
    by by apply installs_elem.
  destruct (list_elem_of_split _ _ Hin) as (pre & post & Hsplit).
  destruct (Hrows i set row Hset Hrow) as [Htable Hlog]. cbn in Htable, Hlog.
  exists pre, post. split_and!; [done| | |done|].
  - intros found Hfound. apply Hlog. rewrite Hsplit.
    by apply conflictsOf_elem.
  - rewrite rowAfter_app. cbn. apply lookup_insert_eq.
  - apply rowAfter_last_Reduce. by exists item.
Qed.

(** The grammar [s := e; e := e + e | n], which is ambiguous. *)
Definition sums : Grammar :=
  newGrammar [mkRule "s" "T" ["e"] [""] "";
              mkRule "e" "T" ["e"; "+"; "e"] [""; ""; ""] "";
              mkRule "e" "T" ["n"] [""] ""].

Lemma ComputeActions_conflicts_witness :
  ∃ g' follow states allActions table log,
    ComputeStates 5 order_facts.forwards sums
    = Ok (g', follow, states, allActions)
    ∧ ComputeActions 5 order_facts.forwards sums = Ok (table, log)
    ∧ length table = length states
    ∧ ∀ i set row item term,
        states !! i = Some set → allActions !! i = Some row →
        item ∈ set → (NextSym g' item).2 = true →
        term ∈ follow !!! symbol (Item_rule g' item) →
        ∃ pre post,
          installs order_facts.forwards g' follow i set
          = pre ++ (item, term) :: post
          ∧ (∀ found, rowAfter row pre !! term = Some found →
               mkConflict set i term found (rule item) ∈ log)
          ∧ rowAfter row (pre ++ [(item, term)]) !! term
            = Some (Reduce (rule item))
          ∧ table !! i
            = Some (rowAfter row (installs order_facts.forwards g' follow i set))
          ∧ ∃ item', (item', term) ∈ installs order_facts.forwards g' follow i set
              ∧ rowAfter row (installs order_facts.forwards g' follow i set) !! term
                = Some (Reduce (rule item')).
Proof.
  assert (holds (ComputeStates 5 order_facts.forwards sums) (λ _, True))
    as Hok.
  { vm_compute. exact I. }
  apply holds_inv in Hok as ([[[g' follow] states] allActions] & Hrun & _).
  destruct (ComputeActions_conflicts _ _ _ _ _ _ _
              order_facts.forwards_ok Hrun) as (table & log & Hspec).
  exists g', follow, states, allActions, table, log.
  split; [exact Hrun|]. exact Hspec.
Defined.

(** On that grammar the state reached over [e + e] has the shift on [+]
    and the reduce of [e := e + e] on [+]: the one report of the log
    names state 4, the input [+], the shift found and rule 1; the table
    is returned, and the cell holds the reduce. *)
Lemma ComputeActions_sums_conflict :
  ∃ table log,
    ComputeActions 5 order_facts.forwards sums = Ok (table, log)
    ∧ map (λ c, (c_state c, c_input c, c_found c, c_rule c)) log
      = [(4, "+", Shift 3, 1)]
    ∧ table !! 4 ≫= (.!! "+") = Some (Reduce 1).
Proof.
  assert (holds (ComputeActions 5 order_facts.forwards sums) (λ r,
            map (λ c, (c_state c, c_input c, c_found c, c_rule c)) r.2
            = [(4, "+", Shift 3, 1)]
            ∧ r.1 !! 4 ≫= (.!! "+") = Some (Reduce 1))) as Hrun.
  { vm_compute. by split. }
  apply holds_inv in Hrun as ([table log] & Hrun & Hlog & Hcell).
  exists table, log. split_and!; [exact Hrun | exact Hlog | exact Hcell].
Qed.

End reduce_facts.

(** ** Closure and FIRST where nothing is left to add *)

Module closure_facts.
Import lr.

(** A set of the map that already holds the sets of its members is left
    as it is by a round of [First], and the round reports no change. *)
Definition first_closed (first : SymbolMap) : Prop :=
  ∀ key set, first !! key = Some set →
    ∀ sym, sym ∈ set → first !!! sym ⊆ set.

Lemma SymbolSet_Merge_subseteq (ss other : SymbolSet) :
  other ⊆ ss → SymbolSet_Merge ss other = (ss, false).
Proof.
  intros Hsub. unfold SymbolSet_Merge.
  rewrite (comm_L (∪) ss other), (subseteq_union_1_L other ss Hsub).
  by rewrite Nat.eqb_refl.
Qed.

Lemma First_inner_closed key set first syms :
  first !! key = Some set →
  (∀ sym, sym ∈ syms → first !!! sym ⊆ set) →
  foldl (First_inner key) (first, false) syms = (first, false).
Proof.
  intros Hkey. induction syms as [|sym syms IH]; intros Hsyms; [done|].
  cbn [foldl]. unfold First_inner at 2.
  rewrite (lookup_total_correct _ _ _ Hkey).
  rewrite SymbolSet_Merge_subseteq by (apply Hsyms; left).
  rewrite insert_id by done. cbn [orb].
  apply IH. intros sym' Hsym'. apply Hsyms. by right.
Qed.

Lemma First_pass_closed first :
  first_closed first → First_pass first = (first, false).
Proof.
  intros Hclosed. unfold First_pass.
  assert (∀ key, key ∈ elements (dom first : gset string) →
                 is_Some (first !! key)) as Hkeys.
  { intros key Hkey%elem_of_elements. by apply elem_of_dom. }
  induction (elements (dom first)) as [|key keys IH]; [done|].
  cbn [foldl fst].
  destruct (Hkeys key) as [set Hset]; [left|].
  rewrite (lookup_total_correct _ _ _ Hset).
  rewrite (First_inner_closed key set) by
    (try done; intros sym Hsym%elem_of_elements; by eapply Hclosed).
  apply IH. intros key' Hkey'. apply Hkeys. by right.
Qed.

Lemma First_loop_closed fuel first :
  first_closed first → First_loop (S fuel) first = Ok first.
Proof. intros Hclosed. cbn. by rewrite First_pass_closed. Qed.

(** An item set none of whose items has a nonterminal after the dot is
    its own closure. *)
Definition no_expansion (g : Grammar) (item : Item) : Prop :=
  (NextSym g item).2 = true
  ∨ ∀ r, r ∈ rules g → symbol r ≠ (NextSym g item).1.

Lemma Closure_rule_none sym st (l : list (nat * Rule)) :
  (∀ ir, ir ∈ l → symbol ir.2 ≠ sym) →
  foldl (Closure_rule sym) st l = st.
Proof.
  induction l as [|[ri r] l IH]; intros Hl; [done|].
  cbn [foldl]. unfold Closure_rule at 2.
  destruct st as [[iset added] changed].
  rewrite decide_False by (apply (Hl (ri, r)); left).
  apply IH. intros ir Hir. apply Hl. by right.
Qed.

Lemma Closure_item_none g st item :
  no_expansion g item → Closure_item g st item = st.
Proof.
  unfold no_expansion, Closure_item. intros Hitem.
  destruct (NextSym g item) as [sym end_] eqn:Hnext.
  destruct Hitem as [Hend|Hrules]; cbn [fst snd] in *.
  - by rewrite Hend.
  - destruct end_; [done|].
    destruct (SymbolSet_Has st.1.2 sym); [done|].
    apply Closure_rule_none.
    intros [ri r] (i & x & [= -> ->] & Hx)%elem_of_lookup_imap.
    apply Hrules. by eapply list_elem_of_lookup_2.
Qed.

Lemma Closure_pass_none g iset added :
  (∀ item, item ∈ iset → no_expansion g item) →
  Closure_pass g iset added = (iset, added, false).
Proof.
  intros Hitems. unfold Closure_pass.
  assert (∀ item, item ∈ elements iset → no_expansion g item) as Hl.
  { intros item Hitem%elem_of_elements. by apply Hitems. }
  induction (elements iset) as [|item items IH]; [done|].
  cbn [foldl]. rewrite Closure_item_none by (apply Hl; left).
  apply IH. intros item' Hitem'. apply Hl. by right.
Qed.

Lemma Closure_no_expansion g iset :
  (∀ item, item ∈ iset → no_expansion g item) → Closure g iset = iset.
Proof.
  intros Hitems. unfold Closure. cbn [Closure_loop].
  by rewrite Closure_pass_none.
Qed.

Lemma Closure_empty g : Closure g ∅ = ∅.
Proof.
  apply Closure_no_expansion. intros item Hitem.
  by apply not_elem_of_empty in Hitem.
Qed.

(** *** The bound of the closure loop is enough *)

(** The left-hand sides of the grammar. *)
Definition lhs (g : Grammar) : gset string :=
  list_to_set (map symbol (rules g)).

(** The items that expand [sym]: its rules with the dot at the start. *)
Definition expands (g : Grammar) (sym : string) (item : Item) : Prop :=
  ∃ r, rules g !! rule item = Some r ∧ symbol r = sym ∧ pos item = 0.

(** What the loop keeps true of the set and of its [added] guard: a
    symbol of the guard is a left-hand side, and its expansions are in
    the set. *)
Definition guard_ok (g : Grammar) (iset : ItemSet) (added : gset string)
  : Prop :=
  added ⊆ lhs g ∧ ∀ sym item, sym ∈ added → expands g sym item → item ∈ iset.

(** An item has been dealt with: the symbol after its dot, if any, is in
    the guard or has no rule. *)
Definition settled (g : Grammar) (added : gset string) (item : Item) : Prop :=
  (NextSym g item).2 = true
  ∨ (NextSym g item).1 ∈ added
  ∨ (NextSym g item).1 ∉ lhs g.

(** [iset] holds the expansions of the symbols after its dots. *)
Definition closed (g : Grammar) (iset : ItemSet) : Prop :=
  ∀ item, item ∈ iset → (NextSym g item).2 = false →
    ∀ item', expands g (NextSym g item).1 item' → item' ∈ iset.

Lemma elem_of_lhs g sym :
  sym ∈ lhs g ↔ ∃ ri r, rules g !! ri = Some r ∧ symbol r = sym.
Proof.
  unfold lhs. rewrite elem_of_list_to_set, list_elem_of_fmap. split.
  - intros (r & -> & (ri & Hri)%list_elem_of_lookup_1). by exists ri, r.
  - intros (ri & r & Hri & <-). exists r. split; [done|].
    by eapply list_elem_of_lookup_2.
Qed.

Lemma size_lhs g : size (lhs g) ≤ length (rules g).
Proof.
  unfold lhs. rewrite <- (length_map symbol (rules g)).
  generalize (map symbol (rules g)) as l. intros l.
  induction l as [|x l IH]; cbn [list_to_set length].
  - by rewrite size_empty.
  - rewrite size_union_alt, size_singleton.
    assert (size (list_to_set l ∖ {[x]} : gset string)
            ≤ size (list_to_set l : gset string))
      by (apply subseteq_size; set_solver).
    lia.
Qed.

(** The inner loop over the rules, from any position of the rule list. *)
Lemma Closure_rule_fold sym k l iset added changed :
  ∃ iset' added' changed',
    foldl (Closure_rule sym) (iset, added, changed)
          (imap (λ i, pair (k + i)) l) = (iset', added', changed')
    ∧ iset ⊆ iset' ∧ added ⊆ added' ∧ added' ⊆ {[ sym ]} ∪ added
    ∧ (∀ item, item ∈ iset' →
         item ∈ iset ∨ ∃ i r, l !! i = Some r ∧ symbol r = sym
                              ∧ item = mkItem (k + i) 0)
    ∧ (∀ i r, l !! i = Some r → symbol r = sym →
         mkItem (k + i) 0 ∈ iset' ∧ sym ∈ added' ∧ changed' = true)
    ∧ (changed = true → changed' = true)
    ∧ (changed' = true → changed = true ∨ sym ∈ added')
    ∧ (changed' = false → iset' = iset ∧ added' = added).
Proof.
  revert k iset added changed.
  induction l as [|r l IH]; intros k iset added changed.
  - exists iset, added, changed. cbn.
    split_and!; try done; [apply union_subseteq_r|..].
    + by left.
    + by left.
  - cbn [imap foldl]. unfold Closure_rule at 2. rewrite Nat.add_0_r.
    rewrite (imap_ext _ (λ i, pair (S k + i))) by (intros; cbn; f_equal; lia).
    destruct (decide (symbol r = sym)) as [Hr|Hr].
    + destruct (IH (S k) (ItemSet_Add iset (mkItem k 0))
                   (SymbolSet_Add added sym) true)
        as (iset' & added' & changed' & Hrun & Hi & Ha & Ha' & Hfrom & Hall
            & Hch & Hch' & Hno).
      exists iset', added', changed'. rewrite Hrun.
      assert (changed' = true) as -> by by apply Hch.
      unfold ItemSet_Add, SymbolSet_Add in *.
      assert (iset ⊆ iset' ∧ added ⊆ added' ∧ added' ⊆ {[sym]} ∪ added
              ∧ mkItem k 0 ∈ iset' ∧ sym ∈ added')
        as (? & ? & ? & ? & ?) by (clear -Hi Ha Ha'; set_solver).
      split_and!; try done.
      * intros item Hitem. destruct (Hfrom item Hitem) as [Hin|Hin].
        -- apply elem_of_union in Hin as [->%elem_of_singleton|Hin];
             [|by left].
           right. exists 0, r. by rewrite Nat.add_0_r.
        -- right. destruct Hin as (i & r' & Hi' & Hr' & ->).
           exists (S i), r'. split_and!; [done..|]. f_equal. lia.
      * intros [|i] r' Hi' Hr'.
        -- rewrite Nat.add_0_r. by split_and!.
        -- cbn in Hi'. destruct (Hall i r' Hi' Hr') as (? & ? & ?).
           replace (k + S i) with (S k + i) by lia. done.
      * intros _. by right.
    + destruct (IH (S k) iset added changed)
        as (iset' & added' & changed' & Hrun & Hi & Ha & Ha' & Hfrom & Hall
            & Hch & Hch' & Hno).
      exists iset', added', changed'. rewrite Hrun.
      split_and!; try done.
      * intros item Hitem. destruct (Hfrom item Hitem) as [Hin|Hin];
          [by left|].
        right. destruct Hin as (i & r' & Hi' & Hr' & ->).
        exists (S i), r'. split_and!; [done..|]. f_equal. lia.
      * intros [|i] r' Hi' Hr'.
        -- cbn in Hi'. by simplify_eq.
        -- cbn in Hi'. destruct (Hall i r' Hi' Hr') as (? & ? & ?).
           replace (k + S i) with (S k + i) by lia. done.
Qed.


Lemma settled_mono g added added' item :
  added ⊆ added' → settled g added item → settled g added' item.
Proof. unfold settled. set_solver. Qed.

Lemma Closure_item_spec g iset added changed item :
  guard_ok g iset added →
  ∃ iset' added' changed',
    Closure_item g (iset, added, changed) item = (iset', added', changed')
    ∧ iset ⊆ iset' ∧ added ⊆ added' ∧ guard_ok g iset' added'
    ∧ settled g added' item
    ∧ (∀ it, it ∈ iset' →
         it ∈ iset ∨ ((NextSym g item).2 = false
                      ∧ expands g (NextSym g item).1 it))
    ∧ (changed = true → changed' = true)
    ∧ (changed' = true → changed = true ∨ ∃ sym, sym ∈ added' ∧ sym ∉ added)
    ∧ (changed' = false → iset' = iset ∧ added' = added).
Proof.
  intros [Hlhs Hexp]. unfold Closure_item, settled.
  destruct (NextSym g item) as [sym end_]. cbn [fst snd].
  destruct end_.
  { exists iset, added, changed. split_and!; try done; by left. }
  unfold SymbolSet_Has. case_bool_decide as Hadded.
  { exists iset, added, changed. split_and!; try done; [|by left..].
    right. by left. }
  destruct (decide (sym ∈ lhs g)) as [Hsym|Hsym].
  - change (imap pair (rules g)) with (imap (λ i, pair (0 + i)) (rules g)).
    destruct (Closure_rule_fold sym 0 (rules g) iset added changed)
      as (iset' & added' & changed' & Hrun & Hi & Ha & Ha' & Hfrom & Hall
          & Hch & Hch' & Hno).
    apply elem_of_lhs in Hsym as (ri & r & Hri & Hr).
    destruct (Hall ri r Hri Hr) as (_ & Hin & ->).
    exists iset', added', true. rewrite Hrun.
    split_and!; try done.
    + split.
      * intros x Hx. apply Ha' in Hx.
        apply elem_of_union in Hx as [->%elem_of_singleton|Hx]; [|by apply Hlhs].
        apply elem_of_lhs. by exists ri, r.
      * intros sym' [ri' pos'] Hsym' (r' & Hr' & Hs' & Hp'). cbn in *. subst.
        apply Ha' in Hsym'.
        apply elem_of_union in Hsym' as [Heq%elem_of_singleton|Hsym'].
        -- by apply (Hall ri' r' Hr' Heq).
        -- apply Hi. apply (Hexp (symbol r')); [done|]. by exists r'.
    + right. by left.
    + intros it Hit. destruct (Hfrom it Hit) as [Hin'|(i & r' & Hi' & Hr' & ->)];
        [by left|].
      right. split; [done|]. by exists r'.
    + intros _. right. by exists sym.
  - rewrite Closure_rule_none.
    + exists iset, added, changed. split_and!; try done; [|by left..].
      right. by right.
    + intros [ri r] (i & x & [= -> ->] & Hx)%elem_of_lookup_imap Heq.
      apply Hsym, elem_of_lhs. by exists i, x.
Qed.

Lemma Closure_items_spec g l iset added changed :
  guard_ok g iset added →
  ∃ iset' added' changed',
    foldl (Closure_item g) (iset, added, changed) l = (iset', added', changed')
    ∧ iset ⊆ iset' ∧ added ⊆ added' ∧ guard_ok g iset' added'
    ∧ (∀ item, item ∈ l → settled g added' item)
    ∧ (∀ it, it ∈ iset' →
         it ∈ iset ∨ ∃ item, item ∈ l ∧ (NextSym g item).2 = false
                             ∧ expands g (NextSym g item).1 it)
    ∧ (changed = true → changed' = true)
    ∧ (changed' = true → changed = true ∨ ∃ sym, sym ∈ added' ∧ sym ∉ added)
    ∧ (changed' = false → iset' = iset ∧ added' = added).
Proof.
  revert iset added changed.
  induction l as [|item l IH]; intros iset added changed Hok.
  - exists iset, added, changed. cbn. split_and!; try done; [|by left..].
    by intros item ?%elem_of_nil.
  - cbn [foldl].
    destruct (Closure_item_spec g iset added changed item Hok)
      as (iset1 & added1 & changed1 & -> & Hi1 & Ha1 & Hok1 & Hset1 & Hfrom1
          & Hch1 & Hch1' & Hno1).
    destruct (IH iset1 added1 changed1 Hok1)
      as (iset2 & added2 & changed2 & -> & Hi2 & Ha2 & Hok2 & Hset2 & Hfrom2
          & Hch2 & Hch2' & Hno2).
    exists iset2, added2, changed2.
    split_and!; [done | set_solver | set_solver | done | | | | | ].
    + intros item' [->|Hin]%elem_of_cons; [|by apply Hset2].
      by eapply settled_mono.
    + intros it Hit. destruct (Hfrom2 it Hit) as [Hin|(item' & Hin & Hn & He)].
      * destruct (Hfrom1 it Hin) as [Hin'|[Hn He]]; [by left|].
        right. exists item. split_and!; [left|done..].
      * right. exists item'. split_and!; [by right|done..].
    + intros Hc. by apply Hch2, Hch1.
    + intros Hc. destruct (Hch2' Hc) as [Hc1|(sym & Hin & Hnin)].
      * destruct (Hch1' Hc1) as [?|(sym & Hin & Hnin)]; [by left|].
        right. exists sym. split; [set_solver|done].
      * right. exists sym. split; [done|set_solver].
    + intros Hc. destruct (Hno2 Hc) as [-> ->].
      destruct changed1.
      * by specialize (Hch2 eq_refl); subst.
      * by apply Hno1.
Qed.

(** The loop of [Closure] leaves its bound unused: it stops after a round
    without change, and the set it returns holds the start set, is closed,
    and lies within every closed set that holds the start set.  Every
    order of visiting the items leads to that same set. *)
Lemma Closure_loop_spec n g iset added :
  guard_ok g iset added → size (lhs g ∖ added) < n →
  iset ⊆ Closure_loop n g iset added
  ∧ closed g (Closure_loop n g iset added)
  ∧ ∀ X : ItemSet, iset ⊆ X → closed g X → Closure_loop n g iset added ⊆ X.
Proof.
  revert iset added. induction n as [|n IH]; intros iset added Hok Hsize;
    [lia|].
  cbn [Closure_loop]. unfold Closure_pass.
  destruct (Closure_items_spec g (elements iset) iset added false Hok)
    as (iset' & added' & changed' & -> & Hi & Ha & Hok' & Hset & Hfrom
        & _ & Hch' & Hno).
  destruct changed'.
  - destruct (Hch' eq_refl) as [?|(sym & Hin & Hnin)]; [done|].
    destruct (IH iset' added' Hok') as (Hsub & Hclosed & Hleast).
    { destruct Hok' as [Hlhs' _].
      assert (lhs g ∖ added' ⊂ lhs g ∖ added) as Hlt%subset_size; [|lia].
      split; [set_solver|]. intros Hsubs.
      assert (sym ∈ lhs g ∖ added) as Hs by set_solver. apply Hsubs in Hs.
      set_solver. }
    split_and!; [set_solver|done|].
    intros X HX Hcl. apply Hleast; [|done].
    intros it Hit. destruct (Hfrom it Hit) as [?|(item & Hitem & Hn & He)];
      [set_solver|].
    apply (Hcl item); [|done..]. apply HX. by apply elem_of_elements.
  - destruct (Hno eq_refl) as [-> ->]. split_and!; [done| |done].
    intros item Hitem Hn item' (r & Hr & Hs & Hp).
    destruct (Hset item) as [Hend|[Hin|Hnin]].
    + by apply elem_of_elements.
    + congruence.
    + destruct Hok as [_ Hexp]. apply (Hexp (NextSym g item).1); [done|].
      by exists r.
    + destruct Hnin. apply elem_of_lhs. by exists (rule item'), r.
Qed.

Theorem Closure_spec g iset :
  iset ⊆ Closure g iset
  ∧ closed g (Closure g iset)
  ∧ ∀ X : ItemSet, iset ⊆ X → closed g X → Closure g iset ⊆ X.
Proof.
  apply Closure_loop_spec.
  - split; [set_solver|]. intros sym item Hsym. set_solver.
  - pose proof (size_lhs g).
    assert (size (lhs g ∖ ∅) ≤ size (lhs g)) by (apply subseteq_size; set_solver).
    lia.
Qed.

End closure_facts.

(** ** The grammar with the single rule [start := t] *)

Module single_rule_facts.
Import lr.

Section SingleRule.

(** The rule [s := t], with any type, variables and code. *)
Variables (s t ty cd : string) (vs : list string).
Hypothesis t_terminal : t ≠ s.

Let r : Rule := mkRule s ty [t] vs cd.

(** The grammar once [CollectSymbols] has run. *)
Let g1 : Grammar := mkGrammar [r] {[ t; s ]} {[ t ]} {[ s ]}.

Let S0 : ItemSet := {[ mkItem 0 0 ]}.
Let S1 : ItemSet := {[ mkItem 0 1 ]}.
Let dollar : gset string := {[ "$" ]}.

Lemma single_CollectSymbols : CollectSymbols (newGrammar [r]) = g1.
Proof.
  unfold CollectSymbols, newGrammar, SymbolSet_Add, SymbolSet_Has. cbn.
  rewrite bool_decide_false by set_solver.
  unfold g1. f_equal; set_solver.
Qed.

Lemma single_First fuel :
  1 ≤ fuel → ∃ first, First fuel (newGrammar [r]) = Ok (g1, first).
Proof.
  intros Hfuel. destruct fuel as [|fuel]; [lia|].
  unfold First. rewrite single_CollectSymbols.
  unfold First_seed. cbn [terminals rules g1].
  rewrite elements_singleton. cbn [foldl res_foldl pattern r symbol].
  cbn [mbind res_bind].
  rewrite closure_facts.First_loop_closed; [by eexists|].
  intros key set Hkey sym Hsym.
  unfold SymbolSet_Add in *.
  rewrite lookup_total_insert_ne, lookup_total_empty in Hkey by done.
  assert (set = {[ t ]}) as ->.
  { apply lookup_insert_Some in Hkey as [[_ <-]|[_ Hkey]]; [set_solver|].
    apply lookup_insert_Some in Hkey as [[_ <-]|[_ Hkey]]; [set_solver|].
    by rewrite lookup_empty in Hkey. }
  apply elem_of_singleton in Hsym as ->.
  rewrite lookup_total_insert_ne, lookup_total_insert_eq by done.
  set_solver.
Qed.

Lemma inhabitant_SymbolSet : (inhabitant : gset string) = ∅.
Proof. done. Qed.

Lemma single_Follow fuel first :
  2 ≤ fuel →
  ∃ follow, Follow fuel g1 first = Ok follow ∧ follow !!! s = dollar.
Proof.
  intros Hfuel. destruct fuel as [|[|fuel]]; [lia..|].
  unfold Follow. cbn [rules g1 symbol r].
  replace (SymbolSet_Add ∅ "$") with dollar by (unfold SymbolSet_Add; set_solver).
  assert (Follow_pass g1 first {[ s := dollar ]}
          = (<[t := dollar]> {[ s := dollar ]}, true)) as Hpass1.
  { unfold Follow_pass. cbn [rules g1 foldl pattern r imap].
    unfold Follow_pos. cbn [length pattern r symbol].
    rewrite decide_False by lia.
    rewrite lookup_total_singleton_ne by done.
    rewrite lookup_total_insert_ne, lookup_total_singleton_eq by done.
    unfold SymbolSet_Merge.
    rewrite inhabitant_SymbolSet, insert_insert_eq, (left_id_L ∅ (∪)).
    unfold dollar. by rewrite size_singleton, size_empty. }
  assert (Follow_pass g1 first (<[t := dollar]> {[ s := dollar ]})
          = (<[t := dollar]> {[ s := dollar ]}, false)) as Hpass2.
  { unfold Follow_pass. cbn [rules g1 foldl pattern r imap].
    unfold Follow_pos. cbn [length pattern r symbol].
    rewrite decide_False by lia.
    rewrite lookup_total_insert_eq.
    rewrite lookup_total_insert_ne, lookup_total_insert_ne,
      lookup_total_singleton_eq by done.
    unfold SymbolSet_Merge.
    rewrite !insert_insert_eq, (idemp_L (∪)).
    by rewrite Nat.eqb_refl. }
  cbn [Follow_loop]. rewrite Hpass1, Hpass2.
  eexists. split; [done|].
  by rewrite lookup_total_insert_ne, lookup_total_singleton_eq.
Qed.

Lemma single_NextSym_0 : NextSym g1 (mkItem 0 0) = (t, false).
Proof. done. Qed.

Lemma single_NextSym_1 : NextSym g1 (mkItem 0 1) = ("", true).
Proof. done. Qed.

Lemma single_Closure_S0 : Closure g1 S0 = S0.
Proof.
  apply closure_facts.Closure_no_expansion.
  intros item ->%elem_of_singleton. right.
  intros r' ->%list_elem_of_singleton. rewrite single_NextSym_0.
  cbn. congruence.
Qed.

Lemma single_Closure_S1 : Closure g1 S1 = S1.
Proof.
  apply closure_facts.Closure_no_expansion.
  intros item ->%elem_of_singleton. by left.
Qed.

Lemma single_Goto_S0 x : Goto g1 S0 x = if decide (x = t) then S1 else ∅.
Proof.
  unfold Goto, S0. rewrite elements_singleton. cbn [foldl].
  rewrite single_NextSym_0. cbn [negb andb rule pos].
  case_decide as Hx.
  - subst x. rewrite bool_decide_true by done.
    unfold ItemSet_Add. rewrite (right_id_L ∅ (∪)). apply single_Closure_S1.
  - rewrite bool_decide_false by done. apply closure_facts.Closure_empty.
Qed.

Lemma single_Goto_S1 x : Goto g1 S1 x = ∅.
Proof.
  unfold Goto, S1. rewrite elements_singleton. cbn [foldl].
  rewrite single_NextSym_1. cbn [negb andb].
  apply closure_facts.Closure_empty.
Qed.

Lemma single_S1_S0 : ItemSet_Equals S1 S0 = false.
Proof.
  destruct (ItemSet_Equals S1 S0) eqn:Heq; [|done].
  apply states_facts.ItemSet_Equals_eq in Heq.
  assert (mkItem 0 1 ∈ S0) as Hin by (rewrite <- Heq; by apply elem_of_singleton).
  by apply elem_of_singleton in Hin.
Qed.

Lemma single_S1_S1 : ItemSet_Equals S1 S1 = true.
Proof. by apply states_facts.ItemSet_Equals_eq. Qed.

Lemma single_S1_nonempty : ItemSet_Empty S1 = false.
Proof. unfold ItemSet_Empty, S1. by rewrite size_singleton. Qed.

Lemma single_empty_empty : ItemSet_Empty (∅ : ItemSet) = true.
Proof. unfold ItemSet_Empty. by rewrite size_empty. Qed.

(** The row of state 0, in whatever order the symbols come. *)
Lemma single_row0_done (l : list string) :
  foldl (Shift_step g1 S0) ([S0; S1], {[ t := Shift 1 ]}) l
  = ([S0; S1], {[ t := Shift 1 ]}).
Proof.
  induction l as [|x l IH]; [done|]. cbn [foldl].
  unfold Shift_step at 2. rewrite single_Goto_S0.
  case_decide as Hx.
  - subst x. rewrite single_S1_nonempty. cbn [findState].
    rewrite single_S1_S0, single_S1_S1.
    by rewrite insert_singleton_eq.
  - by rewrite single_empty_empty.
Qed.

Lemma single_row0 (l : list string) :
  t ∈ l →
  foldl (Shift_step g1 S0) ([S0], ∅) l = ([S0; S1], {[ t := Shift 1 ]}).
Proof.
  induction l as [|x l IH]; [by intros ?%elem_of_nil|].
  intros Hin. cbn [foldl]. unfold Shift_step at 2. rewrite single_Goto_S0.
  case_decide as Hx.
  - subst x. rewrite single_S1_nonempty. cbn [findState].
    rewrite single_S1_S0. cbn [app length Nat.sub].
    rewrite insert_empty. apply single_row0_done.
  - rewrite single_empty_empty. apply IH.
    apply elem_of_cons in Hin as [->|Hin]; done.
Qed.

Lemma single_row1 (states : list ItemSet) (l : list string) :
  foldl (Shift_step g1 S1) (states, ∅) l = (states, ∅).
Proof.
  induction l as [|x l IH]; [done|]. cbn [foldl].
  unfold Shift_step at 2. by rewrite single_Goto_S1, single_empty_empty.
Qed.

Lemma single_Shift_loop fuel o :
  MapOrder_ok o → 2 ≤ fuel →
  Shift_loop fuel o g1 0 [S0] []
  = Ok ([S0; S1], [ {[ t := Shift 1 ]}; ∅ ]).
Proof.
  intros (Hsym & _) Hfuel. destruct fuel as [|[|fuel]]; [lia..|].
  cbn [Shift_loop lookup list_lookup].
  rewrite single_row0.
  - cbn [Nat.add lookup list_lookup app]. rewrite single_row1.
    cbn [Nat.add]. by destruct fuel.
  - rewrite (Hsym 0 (symbols g1)). apply elem_of_elements.
    cbn. set_solver.
Qed.

Lemma single_installs_0 o follow :
  MapOrder_ok o → reduce_facts.installs o g1 follow 0 S0 = [].
Proof.
  intros (_ & Hitems & _). unfold reduce_facts.installs.
  pose proof (Hitems 0 S0) as Hperm. unfold S0 in Hperm at 2.
  rewrite elements_singleton in Hperm.
  apply Permutation_singleton_r in Hperm as ->.
  cbn [flat_map]. by rewrite single_NextSym_0.
Qed.

Lemma single_installs_1 o follow :
  MapOrder_ok o → follow !!! s = dollar →
  reduce_facts.installs o g1 follow 1 S1 = [(mkItem 0 1, "$")].
Proof.
  intros (_ & Hitems & Hterms) Hfollow. unfold reduce_facts.installs.
  pose proof (Hitems 1 S1) as Hperm. unfold S1 in Hperm at 2.
  rewrite elements_singleton in Hperm.
  apply Permutation_singleton_r in Hperm as ->.
  cbn [flat_map]. rewrite single_NextSym_1. cbn [snd].
  change (symbol (Item_rule g1 (mkItem 0 1))) with s. rewrite Hfollow.
  pose proof (Hterms 1 (mkItem 0 1) dollar) as Hperm. unfold dollar in Hperm at 2.
  rewrite elements_singleton in Hperm.
  apply Permutation_singleton_r in Hperm as ->. done.
Qed.

Lemma single_Reduce_loop o follow :
  MapOrder_ok o → follow !!! s = dollar →
  Reduce_loop o g1 follow [S0; S1] [ {[ t := Shift 1 ]}; ∅ ]
  = Ok ([ {[ t := Shift 1 ]}; {[ "$" := Reduce 0 ]} ], []).
Proof.
  intros Ho Hfollow. unfold Reduce_loop. cbn [imap res_foldl compose].
  rewrite (reduce_facts.Reduce_state_spec _ _ _ _ _ _ _ {[ t := Shift 1 ]})
    by done.
  rewrite single_installs_0 by done. cbn [mbind res_bind].
  cbn [reduce_facts.rowAfter reduce_facts.conflictsOf foldl app].
  cbn [insert list_insert].
  rewrite (reduce_facts.Reduce_state_spec _ _ _ _ _ _ _ ∅) by done.
  rewrite single_installs_1 by done. cbn [mbind res_bind].
  cbn [reduce_facts.rowAfter reduce_facts.conflictsOf foldl app fst snd rule].
  rewrite lookup_empty. cbn [insert list_insert app].
  by rewrite insert_empty.
Qed.

(** C3.  For the grammar whose only rule is [s := t], with [t] a
    terminal (so [t] is not [s]), [ComputeActions] ends as soon as its
    loops may run twice, whatever the order of its map iterations.  The
    collection has exactly two states, the item sets of [s := . t] and of
    [s := t .], and the table has one row for each: the only entry of row
    0 is the shift to state 1 on [t], the only entry of row 1 is the
    reduce by rule 0 on the end-of-input terminal; no conflict is
    reported. *)
Theorem ComputeActions_single_rule fuel o :
  MapOrder_ok o → 2 ≤ fuel →
  (∃ g' follow,
     ComputeStates fuel o (newGrammar [mkRule s ty [t] vs cd])
     = Ok (g', follow, [ {[ mkItem 0 0 ]}; {[ mkItem 0 1 ]} ],
           [ {[ t := Shift 1 ]}; ∅ ]))
  ∧ ComputeActions fuel o (newGrammar [mkRule s ty [t] vs cd])
    = Ok ([ {[ t := Shift 1 ]}; {[ "$" := Reduce 0 ]} ], []).
Proof.
  intros Ho Hfuel.
  destruct (single_First fuel) as [first HFirst]; [lia|].
  destruct (single_Follow fuel first Hfuel) as (follow & HFollow & Hdollar).
  assert (ComputeStates fuel o (newGrammar [mkRule s ty [t] vs cd])
          = Ok (g1, follow, [S0; S1], [ {[ t := Shift 1 ]}; ∅ ])) as Hstates.
  { unfold ComputeStates. fold r. rewrite HFirst. cbn [mbind res_bind].
    rewrite HFollow. cbn [mbind res_bind rules g1].
    fold S0. rewrite single_Closure_S0.
    by rewrite single_Shift_loop. }
  split.
  - by exists g1, follow.
  - unfold ComputeActions. rewrite Hstates. cbn [mbind res_bind].
    by apply single_Reduce_loop.
Qed.

End SingleRule.

Lemma ComputeActions_single_rule_witness :
  (∃ g' follow,
     ComputeStates 2 order_facts.forwards
       (newGrammar [mkRule "start" "T" ["t"] [""] ""])
     = Ok (g', follow, [ {[ mkItem 0 0 ]}; {[ mkItem 0 1 ]} ],
           [ {[ "t" := Shift 1 ]}; ∅ ]))
  ∧ ComputeActions 2 order_facts.forwards
      (newGrammar [mkRule "start" "T" ["t"] [""] ""])
    = Ok ([ {[ "t" := Shift 1 ]}; {[ "$" := Reduce 0 ]} ], []).
Proof.
  apply (ComputeActions_single_rule "start" "t" "T" "" [""]).
  - discriminate.
  - apply order_facts.forwards_ok.
  - lia.
Defined.

End single_rule_facts.

(** ** Items stay inside their rules *)

Module validity_facts.
Import lr.

(** The rule of the item is a rule of the grammar and the dot is not
    beyond its pattern: then [NextSym] reads inside the pattern. *)
Definition Item_ok (g : Grammar) (item : Item) : Prop :=
  ∃ r, rules g !! rule item = Some r ∧ pos item ≤ length (pattern r).

Definition ItemSet_ok (g : Grammar) (iset : ItemSet) : Prop :=
  ∀ item, item ∈ iset → Item_ok g item.

(** The start items of all the rules. *)
Definition starts (g : Grammar) : ItemSet :=
  list_to_set (imap (λ i _, mkItem i 0) (rules g)).

Lemma elem_of_starts g item :
  item ∈ starts g ↔ ∃ r, rules g !! rule item = Some r ∧ pos item = 0.
Proof.
  unfold starts. rewrite elem_of_list_to_set, elem_of_lookup_imap. split.
  - intros (i & r & -> & Hr). by exists r.
  - intros (r & Hr & Hp). exists (rule item), r. split; [|done].
    destruct item as [ri p]. cbn in *. by subst.
Qed.

Lemma expands_starts g sym item :
  closure_facts.expands g sym item → item ∈ starts g.
Proof. intros (r & Hr & _ & Hp). apply elem_of_starts. by exists r. Qed.

Lemma Closure_within g iset : Closure g iset ⊆ iset ∪ starts g.
Proof.
  apply closure_facts.Closure_spec; [set_solver|].
  intros item _ _ item' Hexp. apply elem_of_union. right.
  by eapply expands_starts.
Qed.

Lemma Closure_ok g iset : ItemSet_ok g iset → ItemSet_ok g (Closure g iset).
Proof.
  intros Hok item Hitem. apply Closure_within in Hitem.
  apply elem_of_union in Hitem as [Hitem|Hitem]; [by apply Hok|].
  apply elem_of_starts in Hitem as (r & Hr & Hp). exists r.
  split; [done|lia].
Qed.

(** Where [NextSym] reports a symbol, the dot is strictly inside. *)
Lemma NextSym_inside g item r :
  rules g !! rule item = Some r → pos item ≤ length (pattern r) →
  (NextSym g item).2 = false →
  pos item < length (pattern r)
  ∧ pattern r !! pos item = Some (NextSym g item).1.
Proof.
  intros Hr Hpos. unfold NextSym, Item_rule. rewrite Hr.
  change (default (mkRule "" "" [] [] "") (Some r)) with r.
  case_decide as Hlen; [done|]. intros _. cbn [fst].
  split; [lia|].
  destruct (nth_lookup_or_length (pattern r) (pos item) "") as [?|?]; [done|lia].
Qed.

Lemma Goto_ok g iset x : ItemSet_ok g iset → ItemSet_ok g (Goto g iset x).
Proof.
  intros Hok. unfold Goto. apply Closure_ok.
  assert (∀ item, item ∈ elements iset → Item_ok g item) as Hl.
  { intros item Hitem%elem_of_elements. by apply Hok. }
  assert (ItemSet_ok g ∅) as Hout by (by intros item ?%not_elem_of_empty).
  revert Hout. generalize (∅ : ItemSet) as out.
  induction (elements iset) as [|item items IH]; intros out Hout; [done|].
  cbn [foldl]. apply IH.
  - intros item' Hitem'. apply Hl. by right.
  - destruct (NextSym g item) as [sym end_] eqn:Hnext.
    destruct end_; cbn [negb andb]; [done|].
    case_bool_decide; [|done]. unfold ItemSet_Add.
    intros it [->%elem_of_singleton|Hit]%elem_of_union; [|by apply Hout].
    destruct (Hl item) as (r & Hr & Hpos); [left|].
    destruct (NextSym_inside g item r Hr Hpos) as [Hlt _];
      [by rewrite Hnext|].
    exists r. cbn. split; [done|lia].
Qed.

Lemma Shift_step_ok g set st term :
  ItemSet_ok g set → Forall (ItemSet_ok g) st.1 →
  Forall (ItemSet_ok g) (Shift_step g set st term).1.
Proof.
  intros Hset Hst. unfold Shift_step. destruct st as [states actions].
  destruct (ItemSet_Empty _); [done|].
  destruct (findState _ _ _); [done|]. cbn [fst] in *.
  apply Forall_app. split; [done|].
  apply Forall_singleton. by apply Goto_ok.
Qed.

Lemma Shift_row_ok g set terms st :
  ItemSet_ok g set → Forall (ItemSet_ok g) st.1 →
  Forall (ItemSet_ok g) (foldl (Shift_step g set) st terms).1.
Proof.
  intros Hset. revert st. induction terms as [|term terms IH]; intros st Hst;
    [done|].
  cbn [foldl]. apply IH. by apply Shift_step_ok.
Qed.

Lemma Shift_loop_ok fuel o g i states allActions states' allActions' :
  Forall (ItemSet_ok g) states →
  Shift_loop fuel o g i states allActions = Ok (states', allActions') →
  Forall (ItemSet_ok g) states'.
Proof.
  revert i states allActions.
  induction fuel as [|fuel IH]; intros i states allActions Hok Hrun.
  - cbn in Hrun. destruct (states !! i); [done|]. by simplify_eq.
  - cbn in Hrun. destruct (states !! i) as [set|] eqn:Hi; [|by simplify_eq].
    pose proof (Shift_row_ok g set (symRange o i (symbols g)) (states, ∅)) as Hrow.
    destruct (foldl _ _ _) as [states1 actions1]. cbn [fst] in Hrow.
    eapply IH; [|done]. apply Hrow; [|done].
    eapply Forall_lookup_1 in Hok; done.
Qed.

(** Every item of every state of the collection is inside its rule. *)
Theorem ComputeStates_items_ok fuel o g g' follow states allActions :
  ComputeStates fuel o g = Ok (g', follow, states, allActions) →
  Forall (ItemSet_ok g') states.
Proof.
  unfold ComputeStates.
  destruct (First fuel g) as [[g1 first]| |]; [|done..]. cbn [mbind res_bind].
  destruct (Follow fuel g1 first) as [follow1| |]; [|done..].
  cbn [mbind res_bind].
  destruct (rules g1) as [|r0 rs] eqn:Hrules; [done|].
  destruct (Shift_loop fuel o g1 0 _ []) as [[states1 allActions1]| |] eqn:Hloop;
    [|done..].
  cbn [mbind res_bind]. intros [= -> -> -> ->].
  eapply Shift_loop_ok; [|done].
  apply Forall_singleton, Closure_ok.
  intros item ->%elem_of_singleton. exists r0. rewrite Hrules.
  split; [done|cbn; lia].
Qed.

Lemma rowAfter_lookup row l term a :
  reduce_facts.rowAfter row l !! term = Some a →
  row !! term = Some a ∨ ∃ item, (item, term) ∈ l ∧ a = Reduce (rule item).
Proof.
  induction l as [|[item' term'] l IH] using rev_ind; [by left|].
  rewrite reduce_facts.rowAfter_app. cbn.
  destruct (decide (term' = term)) as [->|Hne].
  - rewrite lookup_insert_eq. intros [= <-]. right. exists item'.
    split; [|done]. apply elem_of_app. right. left.
  - rewrite lookup_insert_ne by done. intros [?|(item & Hin & ->)]%IH;
      [by left|].
    right. exists item. split; [|done]. apply elem_of_app. by left.
Qed.

Lemma ComputeStates_grammar fuel o g g' follow states allActions :
  ComputeStates fuel o g = Ok (g', follow, states, allActions) →
  g' = CollectSymbols g.
Proof.
  unfold ComputeStates.
  destruct (First fuel g) as [[g1 first]| |] eqn:HFirst; [|done..].
  apply states_facts.First_rules in HFirst as ->. cbn [mbind res_bind].
  destruct (Follow _ _ _); [|done..]. cbn [mbind res_bind].
  destruct (rules (CollectSymbols g)); [done|].
  destruct (Shift_loop _ _ _ _ _ _) as [[? ?]| |]; [|done..].
  cbn [mbind res_bind]. by intros [= <- _ _ _].
Qed.

(** The table that [ComputeActions] returns names rules of the grammar
    only, which is what the emission of the table asks for. *)
Theorem ComputeActions_table_ok fuel o g table log :
  MapOrder_ok o →
  ComputeActions fuel o g = Ok (table, log) →
  emit_facts.table_rules_ok g table.
Proof.
  intros Ho. unfold ComputeActions.
  destruct (ComputeStates fuel o g)
    as [[[[g' follow] states] allActions]| |] eqn:Hstates; [|done..].
  cbn [mbind res_bind]. intros Hrun.
  pose proof (ComputeStates_items_ok _ _ _ _ _ _ _ Hstates) as Hitems.
  destruct (states_facts.ComputeStates_collection _ _ _ _ _ _ _ Ho Hstates)
    as ((_ & _ & Hrows) & Hlen & _).
  assert (rules g' = rules g) as Hrules.
  { rewrite (ComputeStates_grammar _ _ _ _ _ _ _ Hstates).
    apply states_facts.rules_CollectSymbols. }
  unfold Reduce_loop in Hrun.
  destruct (reduce_facts.Reduce_states_spec o g' follow states 0 allActions [])
    as (table' & log' & Hrun' & Hlen' & _ & _ & Hafter); [cbn; lia|].
  change (imap (λ j, pair (0 + j)) states) with (imap pair states) in Hrun'.
  rewrite Hrun' in Hrun. injection Hrun as <- <-.
  apply Forall_lookup_2. intros i row Hrow term a Ha.
  destruct (lookup_lt_is_Some_2 states i) as [set Hset].
  { apply lookup_lt_Some in Hrow. lia. }
  destruct (lookup_lt_is_Some_2 allActions i) as [row0 Hrow0].
  { apply lookup_lt_Some in Hrow. lia. }
  destruct (Hafter i set row0 Hset Hrow0) as [Htable _].
  cbn in Htable. rewrite Htable in Hrow. injection Hrow as <-.
  apply rowAfter_lookup in Ha as [Ha|(item & Hin & ->)].
  - destruct (Hrows i row0 Hrow0) as (set' & _ & Hsound & _).
    by destruct (Hsound term a Ha) as (j & -> & _).
  - apply reduce_facts.installs_elem in Hin as (Hin & _); [|done].
    eapply Forall_lookup_1 in Hitems; [|done].
    destruct (Hitems item Hin) as (r & Hr & _).
    cbn. rewrite <- Hrules. by eapply lookup_lt_Some.
Qed.

End validity_facts.

(** ** The loops end *)

Module termination_facts.
Import lr.

(** *** Maps of sets that only grow *)

(** The pairs of a key and a member of its set. *)
Definition pairs (m : SymbolMap) : gset (string * string) :=
  list_to_set (map_to_list m ≫= λ p, pair p.1 <$> elements p.2).

Lemma elem_of_pairs m k x :
  (k, x) ∈ pairs m ↔ ∃ set, m !! k = Some set ∧ x ∈ set.
Proof.
  unfold pairs. rewrite elem_of_list_to_set, list_elem_of_bind. split.
  - intros ([k' set] & Hin & Hp%elem_of_map_to_list).
    apply list_elem_of_fmap in Hin as (x' & [= -> ->] & Hx%elem_of_elements).
    by exists set.
  - intros (set & Hk & Hx). exists (k, set). split.
    + apply list_elem_of_fmap. exists x. split; [done|].
      by apply elem_of_elements.
    + by apply elem_of_map_to_list.
Qed.

(** The keys of [m] are in [D] and its sets within [U]. *)
Definition keys_in (D U : gset string) (m : SymbolMap) : Prop :=
  ∀ k set, m !! k = Some set → k ∈ D ∧ set ⊆ U.

Lemma keys_in_total D U m k : keys_in D U m → m !!! k ⊆ U.
Proof.
  intros Hm. rewrite lookup_total_alt.
  destruct (m !! k) as [set|] eqn:Hk; cbn.
  - by apply (Hm k set).
  - apply empty_subseteq.
Qed.

Lemma pairs_box D U m : keys_in D U m → pairs m ⊆ cprod D U.
Proof.
  intros Hm [k x] (set & Hk & Hx)%elem_of_pairs.
  destruct (Hm k set Hk) as [HD HU].
  apply elem_of_gset_cprod. split; [done|]. by apply HU.
Qed.

(** [set.Merge(other)] on the set stored under [k] (the nil set when
    there is none), stored back. *)
Definition merge_at (m : SymbolMap) (k : string) (other : gset string)
  : SymbolMap * bool :=
  let '(set', grew) := SymbolSet_Merge (m !!! k) other in
  (<[k := set']> m, grew).

(** The state of a round that started from [m0]: the map has grown, and
    if a change is recorded it has grown strictly. *)
Definition grown (D U : gset string) (m0 : SymbolMap)
    (st : SymbolMap * bool) : Prop :=
  keys_in D U st.1 ∧ pairs m0 ⊆ pairs st.1
  ∧ (st.2 = true → pairs m0 ⊂ pairs st.1).

Lemma grown_start D U m0 : keys_in D U m0 → grown D U m0 (m0, false).
Proof. intros Hm. by split_and!. Qed.

Lemma size_grew (X Y : gset string) :
  negb (Nat.eqb (size (X ∪ Y)) (size X)) = true → ∃ x, x ∈ Y ∧ x ∉ X.
Proof.
  intros Hsize%negb_true_iff%Nat.eqb_neq.
  destruct (decide (Y ∖ X = ∅)) as [Hempty|Hne].
  - destruct Hsize. assert (X ∪ Y = X) as Heq; [|by rewrite Heq].
    apply set_eq. intros x. rewrite elem_of_union. split; [|by left].
    intros [?|Hy]; [done|].
    destruct (decide (x ∈ X)) as [?|Hx]; [done|].
    assert (x ∈ Y ∖ X) as Hin by (by apply elem_of_difference).
    rewrite Hempty in Hin. by apply not_elem_of_empty in Hin.
  - apply set_choose_L in Hne as [x [Hy Hx]%elem_of_difference]. by exists x.
Qed.

Lemma merge_at_grown D U m0 m changed k other :
  grown D U m0 (m, changed) → k ∈ D → other ⊆ U →
  grown D U m0 ((merge_at m k other).1, changed || (merge_at m k other).2).
Proof.
  intros (Hkeys & Hsub & Hstrict) Hk Hother.
  unfold grown, merge_at, SymbolSet_Merge. cbn [fst snd] in *.
  assert (pairs m ⊆ pairs (<[k := m !!! k ∪ other]> m)) as Hstep.
  { intros [k' x] (set & Hk' & Hx)%elem_of_pairs. apply elem_of_pairs.
    destruct (decide (k = k')) as [<-|Hne].
    - exists (m !!! k ∪ other). rewrite lookup_insert_eq.
      split; [done|]. rewrite (lookup_total_correct _ _ _ Hk'). set_solver.
    - exists set. by rewrite lookup_insert_ne. }
  split_and!.
  - intros k' set. destruct (decide (k = k')) as [<-|Hne].
    + rewrite lookup_insert_eq. intros [= <-]. split; [done|].
      apply union_subseteq. split; [by apply (keys_in_total D)|done].
    + rewrite lookup_insert_ne by done. apply Hkeys.
  - by etrans.
  - intros [Hc|Hgrew]%orb_true_iff.
    + eapply strict_trans_l; [by apply Hstrict|done].
    + apply size_grew in Hgrew as (x & Hx & Hnx).
      assert ((k, x) ∈ pairs (<[k := m !!! k ∪ other]> m)) as Hin.
      { apply elem_of_pairs. exists (m !!! k ∪ other).
        rewrite lookup_insert_eq. split; [done|]. set_solver. }
      assert ((k, x) ∉ pairs m) as Hnin.
      { intros (set & Hset & Hxs)%elem_of_pairs.
        by rewrite (lookup_total_correct _ _ _ Hset) in Hnx. }
      split; [by etrans|]. intros Hback.
      apply Hnin, Hsub, Hback, Hin.
Qed.

Lemma First_inner_merge key m changed sym :
  First_inner key (m, changed) sym
  = ((merge_at m key (m !!! sym)).1,
     changed || (merge_at m key (m !!! sym)).2).
Proof. unfold First_inner, merge_at. by destruct (SymbolSet_Merge _ _). Qed.

Lemma Follow_pos_merge first r m changed i patSym :
  Follow_pos first r (m, changed) (i, patSym)
  = let other := if decide (i + 1 < length (pattern r))
                 then first !!! nth (i + 1) (pattern r) ""
                 else m !!! symbol r in
    ((merge_at m patSym other).1, changed || (merge_at m patSym other).2).
Proof.
  unfold Follow_pos, merge_at.
  assert (<[patSym := m !!! patSym]> m !!! symbol r = m !!! symbol r) as ->.
  { destruct (decide (patSym = symbol r)) as [->|Hne].
    - by rewrite lookup_total_insert_eq.
    - by rewrite lookup_total_insert_ne. }
  case_decide; destruct (SymbolSet_Merge _ _); cbn [fst snd];
    by rewrite insert_insert_eq.
Qed.

Lemma First_pass_grown D U m : keys_in D U m → grown D U m (First_pass m).
Proof.
  intros Hm. unfold First_pass.
  assert (∀ key, key ∈ elements (dom m : gset string) → key ∈ D) as Hkeys.
  { intros key [set Hset]%elem_of_elements%elem_of_dom. by apply (Hm key set). }
  pose proof (grown_start D U m Hm) as Hst. revert Hst.
  generalize (m, false) as st.
  induction (elements (dom m : gset string)) as [|key keys IH]; intros st Hst;
    [done|].
  cbn [foldl]. apply IH.
  - intros key' Hkey'. apply Hkeys. by right.
  - assert (key ∈ D) as Hkey by (apply Hkeys; left).
    revert Hst. generalize (elements (st.1 !!! key)) as syms. intros syms.
    revert st. induction syms as [|sym syms IHs]; intros [m1 ch] Hst; [done|].
    cbn [foldl]. apply IHs. rewrite First_inner_merge.
    apply merge_at_grown; [done..|].
    apply (keys_in_total D). by destruct Hst.
Qed.

(** The follow sets take their members from the first sets and from the
    end-of-input terminal; their keys are symbols of patterns, or the
    start symbol. *)
Definition values (m : SymbolMap) : gset string := set_map snd (pairs m).

Lemma keys_in_self m : keys_in (dom m) (values m) m.
Proof.
  intros k set Hk. split; [by apply elem_of_dom|].
  intros x Hx. unfold values. apply elem_of_map. exists (k, x).
  split; [done|]. apply elem_of_pairs. by exists set.
Qed.

Lemma lookup_total_values (m : SymbolMap) k : m !!! k ⊆ values m.
Proof. apply (keys_in_total (dom m)), keys_in_self. Qed.

Lemma Follow_pass_grown D U g first m :
  (∀ r x, r ∈ rules g → x ∈ pattern r → x ∈ D) → values first ⊆ U →
  keys_in D U m → grown D U m (Follow_pass g first m).
Proof.
  intros HD HU Hm. unfold Follow_pass.
  pose proof (grown_start D U m Hm) as Hst. revert Hst.
  generalize (m, false) as st.
  assert (∀ r, r ∈ rules g → r ∈ rules g) as Hrules by done. revert Hrules.
  generalize (rules g) at 1 3 as rs. intros rs.
  induction rs as [|r rs IH]; intros Hrules st Hst; [done|].
  cbn [foldl]. apply IH; [intros r' Hr'; apply Hrules; by right|].
  assert (∀ ip, ip ∈ imap pair (pattern r) → ip.2 ∈ D) as Hpat.
  { intros [i x] (i' & x' & [= -> ->] & Hx)%elem_of_lookup_imap.
    apply (HD r); [apply Hrules; left|]. by eapply list_elem_of_lookup_2. }
  revert st Hst Hpat. generalize (imap pair (pattern r)) as ips.
  intros ips. induction ips as [|[i x] ips IHp]; intros [m1 ch] Hst Hpat; [done|].
  cbn [foldl]. apply IHp; [|intros ip Hip; apply Hpat; by right].
  rewrite Follow_pos_merge. cbn zeta.
  apply merge_at_grown; [done|apply (Hpat (i, x)); left|].
  case_decide.
  - etrans; [apply lookup_total_values|done].
  - apply (keys_in_total D). by destruct Hst.
Qed.

(** A loop that repeats a growing round until it records no change ends
    before the pairs of the box are used up, and what it returns is what
    a round without change returned. *)
Lemma growing_loop_ends D U (pass : SymbolMap → SymbolMap * bool)
    (loop : nat → SymbolMap → res SymbolMap) :
  (∀ fuel m, loop (S fuel) m
             = let '(m', changed) := pass m in
               if changed then loop fuel m' else Ok m') →
  (∀ m, keys_in D U m → grown D U m (pass m)) →
  ∀ fuel m, keys_in D U m → size (cprod D U ∖ pairs m) < fuel →
    ∃ m1 r, loop fuel m = Ok r ∧ keys_in D U m1 ∧ keys_in D U r
            ∧ pass m1 = (r, false).
Proof.
  intros Hloop Hpass fuel. induction fuel as [|fuel IH]; intros m Hm Hsize;
    [lia|].
  rewrite Hloop. specialize (Hpass m Hm).
  destruct (pass m) as [m' changed] eqn:Hrun.
  destruct Hpass as (Hm' & Hsub & Hstrict). cbn [fst snd] in *.
  destruct changed.
  - apply IH; [done|].
    assert (cprod D U ∖ pairs m' ⊂ cprod D U ∖ pairs m) as Hlt%subset_size;
      [|lia].
    destruct (Hstrict eq_refl) as [_ Hns]. split.
    + intros p [Hb Hn]%elem_of_difference. apply elem_of_difference.
      split; [done|]. intros Hp. by apply Hn, Hsub.
    + intros Hback. apply Hns. intros p Hp.
      destruct (decide (p ∈ pairs m)) as [|Hnin]; [done|].
      assert (p ∈ cprod D U ∖ pairs m') as Hin.
      { apply Hback, elem_of_difference. split; [|done].
        by apply (pairs_box D U m'). }
      by apply elem_of_difference in Hin as [_ ?].
  - by exists m, m'.
Qed.

(** *** [First] and [Follow] end *)

Lemma First_seed_Ok g :
  Forall (λ r, pattern r ≠ []) (rules g) → ∃ m, First_seed g = Ok m.
Proof.
  intros Hall. unfold First_seed. cbv zeta.
  generalize (foldl (λ (first : SymbolMap) sym,
                       <[sym := SymbolSet_Add ∅ sym]> first)
                    ∅ (elements (terminals g))).
  induction Hall as [|r rs Hr _ IH]; intros m; [by eexists|].
  cbn [res_foldl]. destruct (pattern r) as [|p0 ps]; [done|].
  cbn [mbind res_bind]. apply IH.
Qed.

Lemma First_seed_Panic g :
  Exists (λ r, pattern r = []) (rules g) → First_seed g = Panic.
Proof.
  intros Hex. unfold First_seed. cbv zeta.
  generalize (foldl (λ (first : SymbolMap) sym,
                       <[sym := SymbolSet_Add ∅ sym]> first)
                    ∅ (elements (terminals g))).
  induction Hex as [r rs Hr|r rs _ IH]; intros m; cbn [res_foldl].
  - by rewrite Hr.
  - destruct (pattern r); [done|]. cbn [mbind res_bind]. apply IH.
Qed.

Lemma First_loop_ends fuel m :
  size (cprod (dom m) (values m) ∖ pairs m) < fuel →
  ∃ m1 r, First_loop fuel m = Ok r ∧ First_pass m1 = (r, false).
Proof.
  intros Hsize.
  destruct (growing_loop_ends (dom m) (values m) First_pass First_loop)
    with (fuel := fuel) (m := m) as (m1 & r & Hrun & _ & _ & Hlast);
    [done | apply First_pass_grown | apply keys_in_self | done |].
  by exists m1, r.
Qed.

Lemma Follow_loop_ends g first fuel :
  match rules g with
  | [] => True
  | r0 :: _ =>
      size (cprod (list_to_set (symbol r0 :: flat_map pattern (rules g))
                     : gset string)
                  (values first ∪ {[ "$" ]})) < fuel →
      ∃ m1 r, Follow fuel g first = Ok r
              ∧ Follow_pass g first m1 = (r, false)
  end.
Proof.
  unfold Follow. destruct (rules g) as [|r0 rs] eqn:Hrules; [done|].
  rewrite <- Hrules. intros Hsize.
  set (D := list_to_set (symbol r0 :: flat_map pattern (rules g)) : gset string).
  set (U := values first ∪ {[ "$" ]}).
  destruct (growing_loop_ends D U (Follow_pass g first)
              (λ fuel, Follow_loop fuel g first))
    with (fuel := fuel) (m := {[ symbol r0 := SymbolSet_Add ∅ "$" ]} : SymbolMap)
    as (m1 & r & Hrun & _ & _ & Hlast).
  - done.
  - intros m Hm. apply Follow_pass_grown; [|apply union_subseteq_l|done].
    intros r x Hr Hx. unfold D. apply elem_of_list_to_set. right.
    apply list_elem_of_In, in_flat_map. exists r.
    split; by apply list_elem_of_In.
  - intros k set [<- <-]%lookup_singleton_Some. split.
    + unfold D. apply elem_of_list_to_set. left.
    + unfold SymbolSet_Add, U. rewrite (right_id_L ∅ (∪)).
      apply union_subseteq_r.
  - eapply Nat.le_lt_trans; [|done]. apply subseteq_size.
    intros p [Hp _]%elem_of_difference. done.
  - by exists m1, r.
Qed.

(** *** The state loop ends *)

(** Pairwise different subsets of a set of [n] elements: there are at
    most [2 ^ n] of them. *)
Lemma subsets_length `{Countable A} (V : gset A) (l : list (gset A)) :
  NoDup l → Forall (λ s, s ⊆ V) l → length l ≤ 2 ^ size V.
Proof.
  revert l. induction V as [|x X Hx IH] using set_ind_L; intros l Hnd Hl.
  - rewrite size_empty. cbn.
    destruct l as [|a [|b l]]; cbn; [lia..|].
    apply NoDup_cons in Hnd as [Hab _]. destruct Hab.
    apply Forall_cons in Hl as [Ha [Hb _]%Forall_cons].
    assert (a = ∅) as -> by (apply leibniz_equiv, equiv_empty, Ha).
    assert (b = ∅) as -> by (apply leibniz_equiv, equiv_empty, Hb).
    left.
  - rewrite size_union, size_singleton by set_solver.
    replace (2 ^ (1 + size X)) with (2 ^ size X + 2 ^ size X)
      by (cbn; lia).
    rewrite <- (filter_app_complement (λ s, x ∈ s) l), length_app.
    apply Nat.add_le_mono.
    + rewrite <- (length_fmap (λ s, s ∖ {[ x ]})). apply IH.
      * apply NoDup_fmap_2_strong; [|by apply NoDup_filter].
        intros s1 s2 [Hx1 _]%list_elem_of_filter [Hx2 _]%list_elem_of_filter Heq.
        apply set_eq. intros y. destruct (decide (y = x)) as [->|Hy]; [done|].
        assert (y ∈ s1 ∖ {[x]} ↔ y ∈ s2 ∖ {[x]}) as Hiff by by rewrite Heq.
        rewrite !elem_of_difference, !not_elem_of_singleton in Hiff. tauto.
      * apply Forall_fmap, Forall_forall.
        intros s [_ Hs]%list_elem_of_filter y [Hy Hne]%elem_of_difference.
        eapply Forall_forall in Hl; [|done].
        apply Hl, elem_of_union in Hy as [?|?]; done.
    + apply IH; [by apply NoDup_filter|].
      apply Forall_forall. intros s [Hxs Hs]%list_elem_of_filter y Hy.
      eapply Forall_forall in Hl; [|done].
      pose proof (Hl y Hy) as [->%elem_of_singleton|?]%elem_of_union; done.
Qed.

(** The items that lie inside their rules. *)
Definition allItems (g : Grammar) : ItemSet :=
  list_to_set
    (imap pair (rules g) ≫= λ ir, mkItem ir.1 <$> seq 0 (S (length (pattern ir.2)))).

Lemma elem_of_allItems g item :
  item ∈ allItems g ↔ validity_facts.Item_ok g item.
Proof.
  unfold allItems, validity_facts.Item_ok.
  rewrite elem_of_list_to_set, list_elem_of_bind. split.
  - intros ([ri r] & Hin & (i & x & [= <- <-] & Hx)%elem_of_lookup_imap).
    apply list_elem_of_fmap in Hin as (p & -> & Hp%elem_of_seq).
    exists r. cbn in *. split; [done|lia].
  - intros (r & Hr & Hp). exists (rule item, r). split.
    + apply list_elem_of_fmap. exists (pos item). split; [by destruct item|].
      apply elem_of_seq. cbn. lia.
    + apply elem_of_lookup_imap. by exists (rule item), r.
Qed.

Lemma Shift_loop_ends fuel o g i states allActions :
  NoDup states → Forall (validity_facts.ItemSet_ok g) states →
  2 ^ size (allItems g) ≤ fuel + i →
  ∃ r, Shift_loop fuel o g i states allActions = Ok r.
Proof.
  revert i states allActions.
  induction fuel as [|fuel IH]; intros i states allActions Hnd Hok Hfuel.
  - assert (length states ≤ 2 ^ size (allItems g)) as Hlen.
    { apply subsets_length; [done|]. eapply Forall_impl; [done|].
      intros s Hs item Hitem. by apply elem_of_allItems, Hs. }
    cbn. rewrite (lookup_ge_None_2 states i) by lia. by eexists.
  - cbn. destruct (states !! i) as [set|] eqn:Hi; [|by eexists].
    destruct (states_facts.Shift_row_spec g set (symRange o i (symbols g))
                states ∅ Hnd) as (ext & Hst & Hnd1 & _).
    { intros term a. by rewrite lookup_empty. }
    pose proof (validity_facts.Shift_row_ok g set (symRange o i (symbols g))
                  (states, ∅)) as Hok1.
    destruct (foldl _ _ _) as [states1 actions1]. cbn [fst snd] in *.
    apply IH; [by rewrite Hst| |lia].
    apply Hok1; [|done]. by eapply Forall_lookup_1 in Hok.
Qed.

Lemma First_ends g :
  Forall (λ r, pattern r ≠ []) (rules g) →
  ∃ n first, ∀ fuel, n ≤ fuel → First fuel g = Ok (CollectSymbols g, first).
Proof.
  intros Hpat. destruct (First_seed_Ok (CollectSymbols g)) as [m0 Hseed].
  { by rewrite states_facts.rules_CollectSymbols. }
  destruct (First_loop_ends
              (S (size (cprod (dom m0) (values m0) ∖ pairs m0))) m0)
    as (m1 & r & Hrun & _); [lia|].
  eexists _, r. intros fuel Hfuel. unfold First. cbv zeta.
  rewrite Hseed. cbn [mbind res_bind].
  by rewrite (first_facts.First_loop_mono _ fuel _ _ Hrun Hfuel).
Qed.

Lemma Follow_ends g first :
  rules g ≠ [] → ∃ n follow, ∀ fuel, n ≤ fuel → Follow fuel g first = Ok follow.
Proof.
  intros Hne.
  set (n := S (size (cprod (list_to_set
                              (default "" (symbol <$> head (rules g))
                               :: flat_map pattern (rules g)) : gset string)
                           (values first ∪ {[ "$" ]})))).
  pose proof (Follow_loop_ends g first n) as Hends.
  destruct (rules g) as [|r0 rs] eqn:Hrules; [done|].
  destruct Hends as (m1 & r & Hrun & _); [unfold n; cbn; lia|].
  exists n, r. intros fuel Hfuel.
  by apply (first_facts.Follow_mono n).
Qed.

Lemma ComputeActions_ends g :
  rules g ≠ [] → Forall (λ r, pattern r ≠ []) (rules g) →
  ∃ n, ∀ fuel o, n ≤ fuel → MapOrder_ok o →
    ∃ table log, ComputeActions fuel o g = Ok (table, log)
                 ∧ emit_facts.table_rules_ok g table.
Proof.
  intros Hne Hpat.
  destruct (First_ends g Hpat) as (n1 & first & HFirst).
  set (g1 := CollectSymbols g) in *.
  assert (rules g1 = rules g) as Hrules
    by apply states_facts.rules_CollectSymbols.
  destruct (Follow_ends g1 first) as (n2 & follow & HFollow);
    [by rewrite Hrules|].
  exists (n1 + n2 + 2 ^ size (allItems g1)). intros fuel o Hfuel Ho.
  destruct (Shift_loop_ends fuel o g1 0 [Closure g1 {[ mkItem 0 0 ]}] [])
    as ([states allActions] & Hloop); [apply NoDup_singleton| |lia|].
  { apply Forall_singleton, validity_facts.Closure_ok.
    intros item ->%elem_of_singleton.
    destruct (rules g) as [|r0 rs] eqn:Hrs; [done|].
    exists r0. rewrite Hrules. split; [done|cbn; lia]. }
  assert (ComputeStates fuel o g = Ok (g1, follow, states, allActions))
    as Hstates.
  { unfold ComputeStates. rewrite HFirst by lia. cbn [mbind res_bind].
    rewrite HFollow by lia. cbn [mbind res_bind].
    destruct (rules g1) as [|r0 rs] eqn:Hrs; [by rewrite Hrules in Hrs|].
    by rewrite Hloop. }
  destruct (states_facts.ComputeStates_collection _ _ _ _ _ _ _ Ho Hstates)
    as (_ & Hlen & _).
  destruct (reduce_facts.Reduce_states_spec o g1 follow states 0 allActions [])
    as (table & log & Hrun & _); [cbn; lia|].
  assert (ComputeActions fuel o g = Ok (table, log)) as Hall.
  { unfold ComputeActions. rewrite Hstates. cbn [mbind res_bind]. exact Hrun. }
  exists table, log. split; [done|].
  by eapply validity_facts.ComputeActions_table_ok.
Qed.

(** X1.  [ComputeActions] returns a table for every grammar that has a rule
    and no rule with an empty pattern: its three "until stable" loops
    end, whatever the orders of the [range] loops. *)
Theorem ComputeActions_terminates g :
  rules g ≠ [] → Forall (λ r, pattern r ≠ []) (rules g) →
  ∃ n, ∀ fuel o, n ≤ fuel → MapOrder_ok o →
    ∃ table log, ComputeActions fuel o g = Ok (table, log).
Proof.
  intros Hne Hpat. destruct (ComputeActions_ends g Hne Hpat) as [n Hn].
  exists n. intros fuel o Hfuel Ho.
  destruct (Hn fuel o Hfuel Ho) as (table & log & Hrun & _).
  by exists table, log.
Qed.

Lemma ComputeActions_terminates_witness :
  ∃ n, ∀ fuel o, n ≤ fuel → MapOrder_ok o →
    ∃ table log, ComputeActions fuel o reduce_facts.sums = Ok (table, log).
Proof.
  apply ComputeActions_terminates; [done|].
  repeat (constructor; [done|]). constructor.
Defined.

(** X2.  Without a rule, or with a rule whose pattern is empty,
    [ComputeActions] panics: [Follow] reads [g.rules[0]] and [First]
    reads [rule.pattern[0]]. *)
Theorem ComputeActions_panics fuel o g :
  0 < fuel →
  rules g = [] ∨ Exists (λ r, pattern r = []) (rules g) →
  ComputeActions fuel o g = Panic.
Proof.
  intros Hfuel [Hnil|Hex].
  - destruct g as [rs sy te nt], fuel as [|fuel]; [lia|].
    cbn in Hnil. subst rs. reflexivity.
  - unfold ComputeActions, ComputeStates, First. cbv zeta.
    rewrite First_seed_Panic; [done|].
    by rewrite states_facts.rules_CollectSymbols.
Qed.

Lemma ComputeActions_panics_witness :
  ComputeActions 1 order_facts.forwards
    (newGrammar [mkRule "s" "" [] [] ""]) = Panic.
Proof.
  apply ComputeActions_panics; [lia|]. right. by left.
Defined.

End termination_facts.

(** ** The symbol sets, FIRST and FOLLOW *)

Module grammar_facts.
Import lr.

(** X3.  [Merge] leaves the union of the two sets, and reports a change
    exactly when [other] held a symbol that [ss] did not. *)
Theorem SymbolSet_Merge_grows (ss other : SymbolSet) :
  (SymbolSet_Merge ss other).1 = ss ∪ other
  ∧ ((SymbolSet_Merge ss other).2 = true ↔ ¬ other ⊆ ss).
Proof.
  unfold SymbolSet_Merge. cbn [fst snd]. split; [done|].
  rewrite negb_true_iff, Nat.eqb_neq. split.
  - intros Hne Hsub. destruct Hne.
    by rewrite (comm_L (∪) ss other), (subseteq_union_1_L other ss Hsub).
  - intros Hsub Heq. destruct Hsub.
    assert (ss ∪ other = ss) as Hu.
    { symmetry. apply set_subseteq_size_eq; [apply union_subseteq_l|lia]. }
    rewrite <- Hu. apply union_subseteq_r.
Qed.

(** *** [CollectSymbols] *)

Lemma CollectSymbols_heads (rs : list Rule) (nts syms : SymbolSet) :
  foldl (λ '(nts, syms) rule,
           (SymbolSet_Add nts (symbol rule), SymbolSet_Add syms (symbol rule)))
        (nts, syms) rs
  = (list_to_set (symbol <$> rs) ∪ nts, list_to_set (symbol <$> rs) ∪ syms).
Proof.
  revert nts syms. induction rs as [|r rs IH]; intros nts syms.
  - cbn. by rewrite !(left_id_L ∅ (∪)).
  - cbn [foldl]. rewrite IH. unfold SymbolSet_Add. cbn [fmap list_fmap list_to_set].
    f_equal; set_solver.
Qed.

Lemma CollectSymbols_pattern (nts : SymbolSet) (pat : list string)
    (syms terms : SymbolSet) :
  foldl (λ '(syms, terms) sym,
           (SymbolSet_Add syms sym,
            if SymbolSet_Has nts sym then terms else SymbolSet_Add terms sym))
        (syms, terms) pat
  = (list_to_set pat ∪ syms, list_to_set pat ∖ nts ∪ terms).
Proof.
  revert syms terms. induction pat as [|x pat IH]; intros syms terms.
  - cbn. f_equal; set_solver.
  - cbn [foldl]. rewrite IH. unfold SymbolSet_Add, SymbolSet_Has.
    cbn [list_to_set]. case_bool_decide; f_equal; set_solver.
Qed.

Lemma CollectSymbols_bodies (nts : SymbolSet) (rs : list Rule)
    (syms terms : SymbolSet) :
  foldl (λ acc rule,
           foldl (λ '(syms, terms) sym,
                    (SymbolSet_Add syms sym,
                     if SymbolSet_Has nts sym then terms
                     else SymbolSet_Add terms sym))
                 acc (pattern rule))
        (syms, terms) rs
  = (list_to_set (rs ≫= pattern) ∪ syms,
     list_to_set (rs ≫= pattern) ∖ nts ∪ terms).
Proof.
  revert syms terms. induction rs as [|r rs IH]; intros syms terms.
  - cbn. f_equal; set_solver.
  - cbn [foldl]. rewrite CollectSymbols_pattern, IH.
    cbn [mbind list_bind]. rewrite list_to_set_app_L. f_equal; set_solver.
Qed.

Lemma CollectSymbols_eq g :
  CollectSymbols g
  = mkGrammar (rules g)
      (list_to_set (rules g ≫= pattern) ∪ list_to_set (symbol <$> rules g))
      (list_to_set (rules g ≫= pattern) ∖ list_to_set (symbol <$> rules g))
      (list_to_set (symbol <$> rules g)).
Proof.
  unfold CollectSymbols. rewrite CollectSymbols_heads.
  rewrite CollectSymbols_bodies. f_equal; set_solver.
Qed.

(** X4.  [CollectSymbols] leaves the rules alone.  The nonterminals are the
    left-hand sides, the terminals the pattern symbols that are no
    left-hand side; a symbol is one or the other, never both. *)
Theorem CollectSymbols_partition g :
  rules (CollectSymbols g) = rules g
  ∧ (∀ x, x ∈ nonterminals (CollectSymbols g)
          ↔ ∃ r, r ∈ rules g ∧ symbol r = x)
  ∧ (∀ x, x ∈ terminals (CollectSymbols g)
          ↔ (∃ r, r ∈ rules g ∧ x ∈ pattern r)
            ∧ x ∉ nonterminals (CollectSymbols g))
  ∧ symbols (CollectSymbols g)
    = terminals (CollectSymbols g) ∪ nonterminals (CollectSymbols g)
  ∧ terminals (CollectSymbols g) ## nonterminals (CollectSymbols g).
Proof.
  rewrite CollectSymbols_eq. cbn [rules nonterminals terminals symbols].
  split_and!.
  - done.
  - intros x. rewrite elem_of_list_to_set, list_elem_of_fmap. naive_solver.
  - intros x. rewrite elem_of_difference, elem_of_list_to_set, list_elem_of_bind.
    naive_solver.
  - apply set_eq. intros x.
    rewrite !elem_of_union, elem_of_difference.
    destruct (decide (x ∈ (list_to_set (symbol <$> rules g) : gset string)));
      tauto.
  - intros x [_ Hx]%elem_of_difference. done.
Qed.

(** *** The map that [First] returns *)

Lemma SymbolSet_Merge_false (ss other set' : SymbolSet) :
  SymbolSet_Merge ss other = (set', false) → set' = ss ∧ other ⊆ ss.
Proof.
  unfold SymbolSet_Merge. intros [= <- Hsize].
  apply negb_false_iff, Nat.eqb_eq in Hsize.
  assert (ss ∪ other = ss) as Hu.
  { symmetry. apply set_subseteq_size_eq; [apply union_subseteq_l|lia]. }
  split; [done|]. rewrite <- Hu. apply union_subseteq_r.
Qed.

Lemma First_inner_false key m c sym m' :
  First_inner key (m, c) sym = (m', false) → is_Some (m !! key) →
  c = false ∧ m' = m ∧ m !!! sym ⊆ m !!! key.
Proof.
  unfold First_inner. intros Hrun [set Hset].
  destruct (SymbolSet_Merge (m !!! key) (m !!! sym)) as [set' grew] eqn:Hm.
  injection Hrun as <- Hc. apply orb_false_iff in Hc as [-> ->].
  apply SymbolSet_Merge_false in Hm as [-> Hsub].
  split_and!; [done| |done].
  apply insert_id. by rewrite (lookup_total_correct _ _ _ Hset).
Qed.

Lemma First_syms_false key syms m c m' :
  foldl (First_inner key) (m, c) syms = (m', false) → is_Some (m !! key) →
  c = false ∧ m' = m ∧ ∀ sym, sym ∈ syms → m !!! sym ⊆ m !!! key.
Proof.
  revert m c. induction syms as [|sym syms IH]; intros m c Hrun Hkey.
  - injection Hrun as <- <-. split_and!; [done..|]. by intros sym ?%elem_of_nil.
  - cbn [foldl] in Hrun.
    destruct (First_inner key (m, c) sym) as [m1 c1] eqn:Hstep.
    assert (is_Some (m1 !! key)) as Hkey1.
    { unfold First_inner in Hstep. destruct (SymbolSet_Merge _ _).
      injection Hstep as <- _. by rewrite lookup_insert_eq. }
    destruct (IH m1 c1 Hrun Hkey1) as (-> & -> & Hsyms).
    destruct (First_inner_false _ _ _ _ _ Hstep Hkey) as (-> & -> & Hsym).
    split_and!; [done..|].
    intros sym' [->|Hin]%elem_of_cons; [done|by apply Hsyms].
Qed.

Lemma First_syms_dom key syms st :
  dom st.1 ⊆ dom (foldl (First_inner key) st syms).1.
Proof.
  revert st. induction syms as [|sym syms IH]; intros st; [done|].
  cbn [foldl]. etrans; [|apply IH].
  destruct st as [m c]. unfold First_inner.
  destruct (SymbolSet_Merge _ _) as [set' grew]. cbn [fst].
  rewrite dom_insert. apply union_subseteq_r.
Qed.

Lemma First_keys_false keys m c m' :
  foldl (λ st key, foldl (First_inner key) st (elements (st.1 !!! key)))
        (m, c) keys = (m', false) →
  (∀ key, key ∈ keys → is_Some (m !! key)) →
  c = false ∧ m' = m
  ∧ ∀ key sym, key ∈ keys → sym ∈ m !!! key → m !!! sym ⊆ m !!! key.
Proof.
  revert m c. induction keys as [|key keys IH]; intros m c Hrun Hkeys.
  - injection Hrun as <- <-. split_and!; [done..|]. by intros key sym ?%elem_of_nil.
  - cbn [foldl fst] in Hrun.
    destruct (foldl (First_inner key) (m, c) (elements (m !!! key)))
      as [m1 c1] eqn:Hstep.
    assert (dom m ⊆ dom m1) as Hdom.
    { pose proof (First_syms_dom key (elements (m !!! key)) (m, c)) as Hd.
      by rewrite Hstep in Hd. }
    destruct (IH m1 c1 Hrun) as (-> & -> & Hrest).
    { intros key' Hkey'. apply elem_of_dom, Hdom, elem_of_dom, Hkeys. by right. }
    destruct (First_syms_false _ _ _ _ _ Hstep) as (-> & -> & Hsyms);
      [apply Hkeys; left|].
    split_and!; [done..|].
    intros key' sym [->|Hin]%elem_of_cons Hsym; [|by apply Hrest].
    by apply Hsyms, elem_of_elements.
Qed.

(** A round of [First] that reports no change has left the map as it
    was, and in that map the set of a symbol holds the sets of its
    members. *)
Lemma First_pass_false m m' :
  First_pass m = (m', false) →
  m' = m ∧ ∀ x y, y ∈ m !!! x → m !!! y ⊆ m !!! x.
Proof.
  unfold First_pass. intros Hrun.
  apply First_keys_false in Hrun as (_ & -> & Hclosed).
  - split; [done|]. intros x y Hy. apply Hclosed; [|done].
    apply elem_of_elements, elem_of_dom.
    rewrite lookup_total_alt in Hy.
    destruct (m !! x); [done|]. by apply elem_of_empty in Hy.
  - intros key Hkey%elem_of_elements. by apply elem_of_dom.
Qed.

Lemma First_loop_inv (P : SymbolMap → Prop) fuel m r :
  (∀ m, P m → P (First_pass m).1) → P m → First_loop fuel m = Ok r →
  P r ∧ First_pass r = (r, false).
Proof.
  intros Hpass. revert m. induction fuel as [|fuel IH]; intros m Hm Hrun; [done|].
  cbn in Hrun. destruct (First_pass m) as [m' changed] eqn:Hstep.
  destruct changed.
  - apply (IH m'); [|done]. apply Hpass in Hm. by rewrite Hstep in Hm.
  - injection Hrun as <-.
    destruct (First_pass_false _ _ Hstep) as [-> _]. by split.
Qed.

(** The set of a terminal stays the terminal alone. *)
Definition terminals_fixed (T : gset string) (m : SymbolMap) : Prop :=
  ∀ t, t ∈ T → m !! t = Some {[ t ]}.

Lemma First_syms_fixed T key syms st :
  terminals_fixed T st.1 → (key ∈ T → ∀ sym, sym ∈ syms → sym = key) →
  terminals_fixed T (foldl (First_inner key) st syms).1.
Proof.
  revert st. induction syms as [|sym syms IH]; intros st Hst Hsyms; [done|].
  cbn [foldl]. apply IH; [|intros Hkey sym' Hin; apply Hsyms; [done|by right]].
  destruct st as [m c]. unfold First_inner.
  destruct (SymbolSet_Merge (m !!! key) (m !!! sym)) as [set' grew] eqn:Hm.
  cbn [fst] in *. intros t Ht.
  destruct (decide (t = key)) as [->|Hne].
  - rewrite lookup_insert_eq. f_equal.
    unfold SymbolSet_Merge in Hm. injection Hm as <- _.
    rewrite (Hsyms Ht sym) by left.
    rewrite (lookup_total_correct _ _ _ (Hst key Ht)). set_solver.
  - rewrite lookup_insert_ne by done. by apply Hst.
Qed.

Lemma First_pass_fixed T m :
  terminals_fixed T m → terminals_fixed T (First_pass m).1.
Proof.
  unfold First_pass. generalize (elements (dom m)) as keys.
  generalize false as c. intros c keys. revert m c.
  induction keys as [|key keys IH]; intros m c Hm; [done|].
  cbn [foldl fst].
  destruct (foldl (First_inner key) (m, c) (elements (m !!! key)))
    as [m1 c1] eqn:Hstep.
  apply IH.
  pose proof (First_syms_fixed T key (elements (m !!! key)) (m, c) Hm) as Hfix.
  rewrite Hstep in Hfix. apply Hfix.
  intros Hkey sym Hsym%elem_of_elements.
  rewrite (lookup_total_correct _ _ _ (Hm key Hkey)) in Hsym.
  by apply elem_of_singleton in Hsym.
Qed.

Lemma First_seed_terminals (l : list string) (m : SymbolMap) t :
  foldl (λ first sym, <[sym := SymbolSet_Add ∅ sym]> first) m l !! t
  = if decide (t ∈ l) then Some {[ t ]} else m !! t.
Proof.
  revert m. induction l as [|x l IH]; intros m.
  - cbn. by rewrite decide_False by apply not_elem_of_nil.
  - cbn [foldl]. rewrite IH.
    destruct (decide (t ∈ l)) as [Hin|Hnin].
    + by rewrite decide_True by by right.
    + destruct (decide (t = x)) as [->|Hne].
      * rewrite decide_True by left. rewrite lookup_insert_eq.
        unfold SymbolSet_Add. by rewrite (right_id_L ∅ (∪)).
      * rewrite decide_False by (by intros [?|?]%elem_of_cons).
        by rewrite lookup_insert_ne.
Qed.

Lemma First_seed_rules (rs : list Rule) (m m' : SymbolMap) :
  res_foldl (λ first rule,
               match pattern rule with
               | [] => Panic
               | p0 :: _ =>
                   Ok (<[symbol rule := SymbolSet_Add (first !!! symbol rule) p0]> first)
               end) m rs = Ok m' →
  (∀ k, k ∉ symbol <$> rs → m' !! k = m !! k)
  ∧ (∀ k, m !!! k ⊆ m' !!! k)
  ∧ ∀ r p0 ps, r ∈ rs → pattern r = p0 :: ps → p0 ∈ m' !!! symbol r.
Proof.
  revert m. induction rs as [|r rs IH]; intros m Hrun.
  - injection Hrun as <-. split_and!; [done..|]. by intros r p0 ps ?%elem_of_nil.
  - cbn [res_foldl] in Hrun. destruct (pattern r) as [|p0 ps] eqn:Hpat; [done|].
    cbn [mbind res_bind] in Hrun.
    destruct (IH _ Hrun) as (Hother & Hgrow & Hheads).
    assert (∀ k, m !!! k
                 ⊆ (<[symbol r := SymbolSet_Add (m !!! symbol r) p0]> m) !!! k)
      as Hstep.
    { intros k. destruct (decide (k = symbol r)) as [->|Hne].
      - rewrite lookup_total_insert_eq. unfold SymbolSet_Add.
        apply union_subseteq_r.
      - by rewrite lookup_total_insert_ne. }
    split_and!.
    + intros k Hk. rewrite Hother by (intros Hin; apply Hk; by right).
      apply lookup_insert_ne. intros <-. apply Hk. left.
    + intros k. etrans; [apply Hstep|apply Hgrow].
    + intros r' p0' ps' [->|Hin]%elem_of_cons Hpat'; [|by eapply Hheads].
      rewrite Hpat in Hpat'. injection Hpat' as <- <-.
      apply Hgrow. rewrite lookup_total_insert_eq. unfold SymbolSet_Add.
      apply elem_of_union_l. by apply elem_of_singleton.
Qed.

Lemma pairs_total (m m' : SymbolMap) :
  termination_facts.pairs m ⊆ termination_facts.pairs m' →
  ∀ k, m !!! k ⊆ m' !!! k.
Proof.
  intros Hsub k x Hx. rewrite lookup_total_alt in Hx.
  destruct (m !! k) as [set|] eqn:Hk; [|by apply elem_of_empty in Hx].
  assert ((k, x) ∈ termination_facts.pairs m') as Hin.
  { apply Hsub, termination_facts.elem_of_pairs. by exists set. }
  apply termination_facts.elem_of_pairs in Hin as (set' & Hk' & Hx').
  by rewrite (lookup_total_correct _ _ _ Hk').
Qed.

(** X5.  The map that [First] returns.  The set of a terminal is the terminal
    alone; the set of a left-hand side holds the head of each of its
    patterns; and a set holds the sets of all its members (nonterminals
    among them). *)
Theorem First_result fuel g g' first :
  First fuel g = Ok (g', first) →
  g' = CollectSymbols g
  ∧ (∀ t, t ∈ terminals g' → first !! t = Some {[ t ]})
  ∧ (∀ r p0 ps, r ∈ rules g → pattern r = p0 :: ps → p0 ∈ first !!! symbol r)
  ∧ (∀ x y, y ∈ first !!! x → first !!! y ⊆ first !!! x).
Proof.
  unfold First. cbv zeta.
  destruct (First_seed (CollectSymbols g)) as [m0| |] eqn:Hseed; [|done..].
  cbn [mbind res_bind].
  destruct (First_loop fuel m0) as [r| |] eqn:Hloop; [|done..].
  cbn [mbind res_bind]. intros [= <- <-].
  pose proof (states_facts.rules_CollectSymbols g) as Hrules.
  assert (∀ t, t ∈ terminals (CollectSymbols g) →
               t ∉ symbol <$> rules (CollectSymbols g)) as Hdisj.
  { rewrite CollectSymbols_eq. cbn [terminals rules].
    intros t [_ Hn]%elem_of_difference Hin. apply Hn.
    by apply elem_of_list_to_set. }
  unfold First_seed in Hseed. cbv zeta in Hseed.
  apply First_seed_rules in Hseed as (Hother & Hgrow & Hheads).
  assert (terminals_fixed (terminals (CollectSymbols g)) m0) as Hfixed.
  { intros t Ht. rewrite Hother.
    - rewrite First_seed_terminals. by rewrite decide_True by by apply elem_of_elements.
    - by apply Hdisj. }
  destruct (First_loop_inv
              (λ m, termination_facts.pairs m0 ⊆ termination_facts.pairs m
                    ∧ terminals_fixed (terminals (CollectSymbols g)) m)
              fuel m0 r) as ((Hpairs & Hfix) & Hlast); [|done|done|].
  { intros m [Hp Hf]. split; [|by apply First_pass_fixed].
    etrans; [done|].
    by destruct (termination_facts.First_pass_grown _ _ m
                   (termination_facts.keys_in_self m)) as (_ & ? & _). }
  apply First_pass_false in Hlast as [_ Hclosed].
  split_and!; [done|done| |done].
  intros r' p0 ps Hr' Hpat. apply (pairs_total m0 r Hpairs).
  eapply Hheads; [|done]. by rewrite Hrules.
Qed.

Lemma First_result_witness :
  ∃ g' first,
    First 3 first_facts.chain = Ok (g', first)
    ∧ g' = CollectSymbols first_facts.chain
    ∧ (∀ t, t ∈ terminals g' → first !! t = Some {[ t ]})
    ∧ (∀ r p0 ps, r ∈ rules first_facts.chain → pattern r = p0 :: ps →
         p0 ∈ first !!! symbol r)
    ∧ (∀ x y, y ∈ first !!! x → first !!! y ⊆ first !!! x).
Proof.
  assert (holds (First 3 first_facts.chain) (λ _, True)) as Hok.
  { vm_compute. exact I. }
  apply holds_inv in Hok as ([g' first] & Hrun & _).
  exists g', first. split; [exact Hrun|].
  exact (First_result _ _ _ _ Hrun).
Defined.

(** *** The map that [Follow] returns *)

(** What a position of a pattern merges into the set of its symbol. *)
Definition Follow_source (first : SymbolMap) (r : Rule) (m : SymbolMap)
    (i : nat) : SymbolSet :=
  if decide (i + 1 < length (pattern r))
  then first !!! nth (i + 1) (pattern r) ""
  else m !!! symbol r.

Lemma Follow_pos_false first r m c i x m' :
  Follow_pos first r (m, c) (i, x) = (m', false) →
  c = false ∧ (∀ k, m' !!! k = m !!! k) ∧ Follow_source first r m i ⊆ m !!! x.
Proof.
  rewrite termination_facts.Follow_pos_merge. cbv zeta.
  fold (Follow_source first r m i). unfold termination_facts.merge_at.
  destruct (SymbolSet_Merge (m !!! x) (Follow_source first r m i))
    as [set' grew] eqn:Hm.
  cbn [fst snd]. intros [= <- Hc]. apply orb_false_iff in Hc as [-> ->].
  apply SymbolSet_Merge_false in Hm as [-> Hsub].
  split_and!; [done| |done].
  intros k. destruct (decide (k = x)) as [->|Hne].
  - by rewrite lookup_total_insert_eq.
  - by rewrite lookup_total_insert_ne.
Qed.

Lemma Follow_source_ext first r (m m' : SymbolMap) i :
  (∀ k, m' !!! k = m !!! k) →
  Follow_source first r m' i = Follow_source first r m i.
Proof. intros Heq. unfold Follow_source. by rewrite Heq. Qed.

Lemma Follow_positions_false first r l m c m' :
  foldl (Follow_pos first r) (m, c) l = (m', false) →
  c = false ∧ (∀ k, m' !!! k = m !!! k)
  ∧ ∀ i x, (i, x) ∈ l → Follow_source first r m i ⊆ m !!! x.
Proof.
  revert m c. induction l as [|[i x] l IH]; intros m c Hrun.
  - injection Hrun as <- <-. split_and!; [done..|]. by intros i x ?%elem_of_nil.
  - cbn [foldl] in Hrun.
    destruct (Follow_pos first r (m, c) (i, x)) as [m1 c1] eqn:Hstep.
    destruct (IH m1 c1 Hrun) as (-> & Heq' & Hrest).
    destruct (Follow_pos_false _ _ _ _ _ _ _ Hstep) as (-> & Heq & Hsub).
    split_and!; [done| |].
    + intros k. by rewrite Heq', Heq.
    + intros i' x' [[= -> ->]|Hin]%elem_of_cons; [done|].
      rewrite <- (Follow_source_ext first r m m1), <- Heq by done.
      by apply Hrest.
Qed.

Lemma Follow_rules_false first rs m c m' :
  foldl (λ st rule, foldl (Follow_pos first rule) st (imap pair (pattern rule)))
        (m, c) rs = (m', false) →
  c = false ∧ (∀ k, m' !!! k = m !!! k)
  ∧ ∀ r i x, r ∈ rs → pattern r !! i = Some x →
      Follow_source first r m i ⊆ m !!! x.
Proof.
  revert m c. induction rs as [|r rs IH]; intros m c Hrun.
  - injection Hrun as <- <-. split_and!; [done..|]. by intros r i x ?%elem_of_nil.
  - cbn [foldl] in Hrun.
    destruct (foldl (Follow_pos first r) (m, c) (imap pair (pattern r)))
      as [m1 c1] eqn:Hstep.
    destruct (IH m1 c1 Hrun) as (-> & Heq' & Hrest).
    destruct (Follow_positions_false _ _ _ _ _ _ Hstep) as (-> & Heq & Hsub).
    split_and!; [done| |].
    + intros k. by rewrite Heq', Heq.
    + intros r' i x [->|Hin]%elem_of_cons Hx.
      * apply Hsub, elem_of_lookup_imap. by exists i, x.
      * rewrite <- (Follow_source_ext first r' m m1), <- Heq by done.
        by eapply Hrest.
Qed.

Lemma Follow_pass_pairs g first m :
  termination_facts.pairs m
  ⊆ termination_facts.pairs (Follow_pass g first m).1.
Proof.
  destruct (termination_facts.Follow_pass_grown
              (dom m ∪ list_to_set (rules g ≫= pattern))
              (termination_facts.values first ∪ termination_facts.values m)
              g first m) as (_ & Hsub & _); [| |  |done].
  - intros r x Hr Hx. apply elem_of_union_r, elem_of_list_to_set.
    apply list_elem_of_bind. by exists r.
  - apply union_subseteq_l.
  - intros k set Hk.
    destruct (termination_facts.keys_in_self m k set Hk) as [Hd Hv].
    split; [by apply elem_of_union_l|]. etrans; [done|apply union_subseteq_r].
Qed.

Lemma Follow_loop_inv fuel g first m r :
  Follow_loop fuel g first m = Ok r →
  termination_facts.pairs m ⊆ termination_facts.pairs r
  ∧ ∃ m1, Follow_pass g first m1 = (r, false).
Proof.
  revert m. induction fuel as [|fuel IH]; intros m Hrun; [done|].
  cbn in Hrun. pose proof (Follow_pass_pairs g first m) as Hsub.
  destruct (Follow_pass g first m) as [m' changed] eqn:Hstep.
  destruct changed.
  - destruct (IH m' Hrun) as [Hsub' Hlast]. split; [by etrans|done].
  - injection Hrun as <-. split; [done|]. by exists m.
Qed.

(** X6.  The map that [Follow] returns.  The end marker follows the symbol of
    the first rule; what begins the next symbol of a pattern follows the
    symbol before it; and what follows a left-hand side follows the last
    symbol of each of its patterns. *)
Theorem Follow_result fuel g first follow :
  Follow fuel g first = Ok follow →
  (∀ r0, head (rules g) = Some r0 → "$" ∈ follow !!! symbol r0)
  ∧ (∀ r i x y, r ∈ rules g →
       pattern r !! i = Some x → pattern r !! (i + 1) = Some y →
       first !!! y ⊆ follow !!! x)
  ∧ (∀ r x, r ∈ rules g → last (pattern r) = Some x →
       follow !!! symbol r ⊆ follow !!! x).
Proof.
  unfold Follow. destruct (rules g) as [|r0 rs] eqn:Hrules; [done|].
  rewrite <- Hrules. cbv zeta. intros Hrun.
  apply Follow_loop_inv in Hrun as (Hsub & m1 & Hlast).
  unfold Follow_pass in Hlast.
  apply Follow_rules_false in Hlast as (_ & Heq & Hpos).
  split_and!.
  - rewrite Hrules. intros ? [= <-].
    apply (pairs_total _ _ Hsub). rewrite lookup_total_singleton_eq.
    unfold SymbolSet_Add. apply elem_of_union_l. by apply elem_of_singleton.
  - intros r i x y Hr Hx Hy. rewrite Heq.
    etrans; [|by eapply Hpos]. unfold Follow_source.
    rewrite decide_True by (by apply lookup_lt_Some in Hy).
    by rewrite (nth_lookup_Some _ _ _ _ Hy).
  - intros r x Hr Hx. rewrite !Heq. rewrite last_lookup in Hx.
    etrans; [|by eapply Hpos]. unfold Follow_source.
    apply lookup_lt_Some in Hx as Hlt.
    rewrite decide_False; [done|]. lia.
Qed.

Lemma Follow_result_witness :
  ∃ follow,
    Follow 3 first_facts.chain
      {[ "x" := {[ "x" ]}; "A" := {[ "x" ]}; "E" := {[ "A"; "x" ]} ]}
    = Ok follow
    ∧ (∀ r0, head (rules first_facts.chain) = Some r0 →
         "$" ∈ follow !!! symbol r0)
    ∧ (∀ r i x y, r ∈ rules first_facts.chain →
         pattern r !! i = Some x → pattern r !! (i + 1) = Some y →
         ({[ "x" := {[ "x" ]}; "A" := {[ "x" ]}; "E" := {[ "A"; "x" ]} ]}
            : SymbolMap) !!! y ⊆ follow !!! x)
    ∧ (∀ r x, r ∈ rules first_facts.chain → last (pattern r) = Some x →
         follow !!! symbol r ⊆ follow !!! x).
Proof.
  assert (holds (Follow 3 first_facts.chain
                   {[ "x" := {[ "x" ]}; "A" := {[ "x" ]};
                      "E" := {[ "A"; "x" ]} ]}) (λ _, True)) as Hok.
  { vm_compute. exact I. }
  apply holds_inv in Hok as (follow & Hrun & _).
  exists follow. split; [exact Hrun|].
  exact (Follow_result _ _ _ _ Hrun).
Defined.

End grammar_facts.

(** ** Items, closure, goto and the table *)

Module items_facts.
Import lr.

(** X7.  [Equals] is equality of item sets: the two tests of the source (same
    size, every key of the one in the other) are symmetric together. *)
Theorem ItemSet_Equals_decides (a b : ItemSet) :
  (ItemSet_Equals a b = true ↔ a = b)
  ∧ ItemSet_Equals a b = ItemSet_Equals b a.
Proof.
  split; [apply states_facts.ItemSet_Equals_eq|].
  destruct (ItemSet_Equals a b) eqn:Hab, (ItemSet_Equals b a) eqn:Hba; try done.
  - apply states_facts.ItemSet_Equals_eq in Hab as ->.
    rewrite <- Hba. symmetry. by apply states_facts.ItemSet_Equals_eq.
  - apply states_facts.ItemSet_Equals_eq in Hba as ->.
    rewrite <- Hab. by apply states_facts.ItemSet_Equals_eq.
Qed.

(** X8.  [Closure] returns the least set that holds the given items and, with
    an item, the start items of the rules of the symbol after its dot.
    Closing twice is closing once, and a larger set has a larger
    closure. *)
Theorem Closure_hull g (iset : ItemSet) :
  iset ⊆ Closure g iset
  ∧ (∀ item ri r, item ∈ Closure g iset → (NextSym g item).2 = false →
       rules g !! ri = Some r → symbol r = (NextSym g item).1 →
       mkItem ri 0 ∈ Closure g iset)
  ∧ (∀ X : ItemSet, iset ⊆ X → closure_facts.closed g X → Closure g iset ⊆ X)
  ∧ Closure g (Closure g iset) = Closure g iset
  ∧ (∀ iset' : ItemSet, iset ⊆ iset' → Closure g iset ⊆ Closure g iset').
Proof.
  destruct (closure_facts.Closure_spec g iset) as (Hsub & Hclosed & Hleast).
  split_and!; [done| |done| |].
  - intros item ri r Hitem Hnext Hr Hsym. apply (Hclosed item Hitem Hnext).
    by exists r.
  - destruct (closure_facts.Closure_spec g (Closure g iset))
      as (Hsub2 & _ & Hleast2).
    apply (anti_symm (⊆)); [by apply Hleast2|done].
  - intros iset' Hsub'.
    destruct (closure_facts.Closure_spec g iset') as (Hsub2 & Hclosed2 & _).
    apply Hleast; [by etrans|done].
Qed.

(** The items of [iset] with [x] after the dot, the dot moved over it. *)
Definition kernel (g : Grammar) (iset : ItemSet) (x : string) : ItemSet :=
  set_map (λ item, mkItem (rule item) (pos item + 1))
          (filter (λ item, NextSym g item = (x, false)) iset).

Lemma Goto_fold g x (l : list Item) (out : ItemSet) :
  foldl (λ out item,
           let '(sym, end_) := NextSym g item in
           if negb end_ && bool_decide (sym = x)
           then ItemSet_Add out (mkItem (rule item) (pos item + 1))
           else out) out l
  = out ∪ list_to_set ((λ item, mkItem (rule item) (pos item + 1))
                         <$> filter (λ item, NextSym g item = (x, false)) l).
Proof.
  revert out. induction l as [|item l IH]; intros out.
  - cbn. by rewrite (right_id_L ∅ (∪)).
  - cbn [foldl]. rewrite IH. rewrite filter_cons.
    destruct (NextSym g item) as [sym end_] eqn:Hnext.
    destruct end_; cbn [negb andb].
    + by rewrite decide_False by done.
    + case_bool_decide as Hsym.
      * subst sym. rewrite decide_True by done.
        unfold ItemSet_Add. cbn [fmap list_fmap list_to_set]. set_solver.
      * rewrite decide_False by congruence. done.
Qed.

Lemma Goto_kernel g iset x : Goto g iset x = Closure g (kernel g iset x).
Proof.
  unfold Goto. rewrite Goto_fold, (left_id_L ∅ (∪)). f_equal.
  apply set_eq. intros item. unfold kernel.
  rewrite elem_of_list_to_set, list_elem_of_fmap, elem_of_map.
  split; intros (it & -> & Hit); exists it; (split; [done|]).
  - apply list_elem_of_filter in Hit as [? ?%elem_of_elements].
    by apply elem_of_filter.
  - apply elem_of_filter in Hit as [? ?].
    apply list_elem_of_filter. by rewrite elem_of_elements.
Qed.

(** X9.  [Goto] on [x] holds every item of the set that has [x] after its
    dot, with the dot moved over [x]; every item of it that has its dot
    past the start is one of those; and it is empty exactly when no item
    of the set has [x] after its dot. *)
Theorem Goto_items g (iset : ItemSet) (x : string) :
  (∀ item, item ∈ iset → NextSym g item = (x, false) →
     mkItem (rule item) (pos item + 1) ∈ Goto g iset x)
  ∧ (∀ item', item' ∈ Goto g iset x → pos item' ≠ 0 →
       ∃ item, item ∈ iset ∧ NextSym g item = (x, false)
               ∧ item' = mkItem (rule item) (pos item + 1))
  ∧ (Goto g iset x = ∅ ↔ ∀ item, item ∈ iset → NextSym g item ≠ (x, false)).
Proof.
  rewrite Goto_kernel. split_and!.
  - intros item Hitem Hnext. apply closure_facts.Closure_spec.
    apply elem_of_map. exists item. split; [done|]. by apply elem_of_filter.
  - intros item' Hin Hpos.
    apply validity_facts.Closure_within, elem_of_union in Hin as [Hin|Hin].
    + apply elem_of_map in Hin as (item & -> & [? ?]%elem_of_filter).
      by exists item.
    + by apply validity_facts.elem_of_starts in Hin as (r & _ & ?).
  - split.
    + intros Hempty item Hitem Hnext.
      assert (mkItem (rule item) (pos item + 1) ∈ Closure g (kernel g iset x))
        as Hin.
      { apply closure_facts.Closure_spec, elem_of_map. exists item.
        split; [done|]. by apply elem_of_filter. }
      rewrite Hempty in Hin. by apply elem_of_empty in Hin.
    + intros Hnone. assert (kernel g iset x = ∅) as ->.
      { apply set_eq. intros item'. split; [|by intros ?%elem_of_empty].
        intros (item & -> & [Hnext Hitem]%elem_of_filter)%elem_of_map.
        by destruct (Hnone item Hitem). }
      apply closure_facts.Closure_empty.
Qed.

(** X10.  Every item of every state lies inside a rule of the grammar: its
    rule is one of [g.rules] and its dot is at most at the end of the
    pattern, so [NextSym] never reads beyond a pattern. *)
Theorem ComputeStates_items_inside fuel o g g' follow states allActions :
  ComputeStates fuel o g = Ok (g', follow, states, allActions) →
  ∀ i set item, states !! i = Some set → item ∈ set →
    ∃ r, rules g !! rule item = Some r ∧ pos item ≤ length (pattern r).
Proof.
  intros Hstates i set item Hset Hitem.
  pose proof (validity_facts.ComputeStates_items_ok _ _ _ _ _ _ _ Hstates)
    as Hok.
  eapply Forall_lookup_1 in Hok; [|done].
  destruct (Hok item Hitem) as (r & Hr & Hpos). exists r. split; [|done].
  rewrite (validity_facts.ComputeStates_grammar _ _ _ _ _ _ _ Hstates) in Hr.
  by rewrite states_facts.rules_CollectSymbols in Hr.
Qed.

Lemma ComputeStates_items_inside_witness :
  ∃ g' follow states allActions,
    ComputeStates 5 order_facts.forwards reduce_facts.sums
    = Ok (g', follow, states, allActions)
    ∧ ∀ i set item, states !! i = Some set → item ∈ set →
        ∃ r, rules reduce_facts.sums !! rule item = Some r
             ∧ pos item ≤ length (pattern r).
Proof.
  assert (holds (ComputeStates 5 order_facts.forwards reduce_facts.sums)
            (λ _, True)) as Hok.
  { vm_compute. exact I. }
  apply holds_inv in Hok as ([[[g' follow] states] allActions] & Hrun & _).
  exists g', follow, states, allActions. split; [exact Hrun|].
  exact (ComputeStates_items_inside _ _ _ _ _ _ _ Hrun).
Defined.

(** [a] is an entry of the table. *)
Definition cell (table : ActionTable) (a : Action) : Prop :=
  ∃ i row term, table !! i = Some row ∧ row !! term = Some a.

Lemma Goto_not_start g set x :
  Goto g set x ≠ ∅ → Goto g set x ≠ Closure g {[ mkItem 0 0 ]}.
Proof.
  intros Hne Heq. rewrite Goto_kernel in Hne, Heq.
  destruct (decide (kernel g set x = ∅)) as [Hk|Hk].
  { rewrite Hk in Hne. by destruct Hne; apply closure_facts.Closure_empty. }
  apply set_choose_L in Hk as [item' Hin].
  assert (item' ∈ Closure g {[ mkItem 0 0 ]}) as Hin'.
  { rewrite <- Heq. by apply closure_facts.Closure_spec. }
  apply elem_of_map in Hin as (item & -> & _).
  apply validity_facts.Closure_within, elem_of_union in Hin' as [Hin'|Hin'].
  - apply elem_of_singleton in Hin'. injection Hin' as _ Hpos. lia.
  - apply validity_facts.elem_of_starts in Hin' as (r & _ & Hpos).
    cbn in Hpos. lia.
Qed.

(** X12.  The table that [ComputeActions] returns is well formed: a [Shift]
    leads to a state of the table other than state 0, a [Reduce] names a
    rule of the grammar.  So the number written for an entry (the state,
    or the negated rule index) tells the entry. *)
Theorem ComputeActions_table_wf fuel o g table log :
  MapOrder_ok o →
  ComputeActions fuel o g = Ok (table, log) →
  (∀ a, cell table a →
     match a with
     | Shift j => 0 < j < length table
     | Reduce r => r < length (rules g)
     end)
  ∧ (∀ a b, cell table a → cell table b →
       emit_facts.encode a = emit_facts.encode b → a = b).
Proof.
  intros Ho Hrun.
  assert (∀ a, cell table a →
            match a with
            | Shift j => 0 < j < length table
            | Reduce r => r < length (rules g)
            end) as Hwf.
  { intros a (i & row & term & Hrow & Ha).
    destruct a as [j|r].
    - unfold ComputeActions in Hrun.
      destruct (ComputeStates fuel o g)
        as [[[[g' follow] states] allActions]| |] eqn:Hstates; [|done..].
      cbn [mbind res_bind] in Hrun.
      destruct (states_facts.ComputeStates_collection _ _ _ _ _ _ _ Ho Hstates)
        as ((Hnd & _ & Hrows) & Hlen & Hstart).
      unfold Reduce_loop in Hrun.
      destruct (reduce_facts.Reduce_states_spec o g' follow states 0
                  allActions [])
        as (table' & log' & Hrun' & Hlen' & _ & _ & Hafter); [cbn; lia|].
      change (imap (λ j, pair (0 + j)) states) with (imap pair states) in Hrun'.
      rewrite Hrun' in Hrun. injection Hrun as <- <-.
      destruct (lookup_lt_is_Some_2 states i) as [set Hset].
      { apply lookup_lt_Some in Hrow. lia. }
      destruct (lookup_lt_is_Some_2 allActions i) as [row0 Hrow0].
      { apply lookup_lt_Some in Hrow. lia. }
      destruct (Hafter i set row0 Hset Hrow0) as [Htable _].
      cbn in Htable. rewrite Htable in Hrow. injection Hrow as <-.
      apply validity_facts.rowAfter_lookup in Ha as [Ha|(item & _ & [=])].
      destruct (Hrows i row0 Hrow0) as (set' & _ & Hsound & _).
      destruct (Hsound term _ Ha) as (j' & [= <-] & Hj & Hne).
      split; [|apply lookup_lt_Some in Hj; lia].
      destruct j as [|j]; [|lia].
      rewrite Hstart in Hj. injection Hj as Hj.
      by destruct (Goto_not_start g' set' term Hne).
    - pose proof (validity_facts.ComputeActions_table_ok _ _ _ _ _ Ho Hrun)
        as Hok.
      eapply Forall_lookup_1 in Hok; [|done].
      by apply (Hok term (Reduce r)). }
  split; [done|].
  intros a b Ha%Hwf Hb%Hwf Henc.
  destruct a as [j|r], b as [j'|r']; cbn in Henc; f_equal; lia.
Qed.

Lemma ComputeActions_table_wf_witness :
  ∃ table log,
    ComputeActions 5 order_facts.forwards reduce_facts.sums = Ok (table, log)
    ∧ (∀ a, cell table a →
         match a with
         | Shift j => 0 < j < length table
         | Reduce r => r < length (rules reduce_facts.sums)
         end)
    ∧ (∀ a b, cell table a → cell table b →
         emit_facts.encode a = emit_facts.encode b → a = b).
Proof.
  assert (holds (ComputeActions 5 order_facts.forwards reduce_facts.sums)
            (λ _, True)) as Hok.
  { vm_compute. exact I. }
  apply holds_inv in Hok as ([table log] & Hrun & _).
  exists table, log. split; [exact Hrun|].
  exact (ComputeActions_table_wf _ _ _ _ _ order_facts.forwards_ok Hrun).
Defined.

End items_facts.

(** ** Every state is reached *)

Module reach_facts.
Import lr.

(** Every state but the first is the goto, not empty, of a state before
    it. *)
Definition reached (g : Grammar) (states : list ItemSet) : Prop :=
  ∀ j s, 0 < j → states !! j = Some s →
    ∃ i set term, i < j ∧ states !! i = Some set
                  ∧ s = Goto g set term ∧ s ≠ ∅.

Lemma reached_app g states x :
  reached g states →
  (∃ i set term, i < length states ∧ states !! i = Some set
                 ∧ x = Goto g set term ∧ x ≠ ∅) →
  reached g (states ++ [x]).
Proof.
  intros Hreached (i & set & term & Hi & Hset & Hx & Hne) j s Hj Hs.
  destruct (decide (j < length states)) as [Hlt|Hge].
  - rewrite lookup_app_l in Hs by done.
    destruct (Hreached j s Hj Hs) as (i' & set' & term' & Hi' & Hset' & Hrest).
    exists i', set', term'. split; [done|].
    by rewrite lookup_app_l by lia.
  - rewrite lookup_app_r in Hs by lia.
    apply list_lookup_singleton_Some in Hs as [Hjl <-].
    exists i, set, term. split; [lia|]. by rewrite lookup_app_l by lia.
Qed.

Lemma Shift_step_keeps g set st term k s :
  st.1 !! k = Some s → (Shift_step g set st term).1 !! k = Some s.
Proof.
  destruct st as [states actions]. cbn [fst]. intros Hs. unfold Shift_step.
  destruct (ItemSet_Empty _); [done|].
  destruct (findState _ _ _); [done|]. cbn [fst].
  by apply lookup_app_l_Some.
Qed.

Lemma Shift_row_keeps g set terms st k s :
  st.1 !! k = Some s → (foldl (Shift_step g set) st terms).1 !! k = Some s.
Proof.
  revert st. induction terms as [|term terms IH]; intros st Hs; [done|].
  cbn [foldl]. by apply IH, Shift_step_keeps.
Qed.

Lemma Shift_loop_keeps fuel o g i states allActions states' allActions' k s :
  states !! k = Some s →
  Shift_loop fuel o g i states allActions = Ok (states', allActions') →
  states' !! k = Some s.
Proof.
  revert i states allActions.
  induction fuel as [|fuel IH]; intros i states allActions Hs Hrun.
  - cbn in Hrun. destruct (states !! i); [done|]. by simplify_eq.
  - cbn in Hrun. destruct (states !! i) as [set|] eqn:Hi; [|by simplify_eq].
    pose proof (Shift_row_keeps g set (symRange o i (symbols g)) (states, ∅)
                  k s Hs) as Hkeep.
    destruct (foldl _ _ _) as [states1 actions1]. by eapply IH.
Qed.

Lemma Shift_step_reached g i set st term :
  st.1 !! i = Some set → reached g st.1 →
  reached g (Shift_step g set st term).1.
Proof.
  destruct st as [states actions]. cbn [fst]. intros Hset Hreached.
  unfold Shift_step.
  destruct (ItemSet_Empty (Goto g set term)) eqn:Hempty; [done|].
  destruct (findState _ _ _); [done|]. cbn [fst].
  apply reached_app; [done|]. exists i, set, term.
  split_and!; [by eapply lookup_lt_Some|done..|].
  intros Heq%states_facts.ItemSet_Empty_eq. congruence.
Qed.

Lemma Shift_row_reached g i set terms st :
  st.1 !! i = Some set → reached g st.1 →
  reached g (foldl (Shift_step g set) st terms).1.
Proof.
  revert st. induction terms as [|term terms IH]; intros st Hset Hreached;
    [done|].
  cbn [foldl]. apply IH; [by apply Shift_step_keeps|].
  by eapply Shift_step_reached.
Qed.

Lemma Shift_loop_reached fuel o g i states allActions states' allActions' :
  reached g states →
  Shift_loop fuel o g i states allActions = Ok (states', allActions') →
  reached g states'.
Proof.
  revert i states allActions.
  induction fuel as [|fuel IH]; intros i states allActions Hreached Hrun.
  - cbn in Hrun. destruct (states !! i); [done|]. by simplify_eq.
  - cbn in Hrun. destruct (states !! i) as [set|] eqn:Hi; [|by simplify_eq].
    pose proof (Shift_row_reached g i set (symRange o i (symbols g)) (states, ∅)
                  Hi Hreached) as Hreached1.
    destruct (foldl _ _ _) as [states1 actions1]. by eapply IH.
Qed.

(** X11.  Every state of the collection that [ComputeActions] builds, but
    state 0, is the goto of an earlier state on some symbol, and it is
    not empty; state 0 holds the start item of the first rule.  So every
    state is reached from state 0 along gotos, and no state is empty. *)
Theorem ComputeStates_reached fuel o g g' follow states allActions :
  ComputeStates fuel o g = Ok (g', follow, states, allActions) →
  (∀ j s, 0 < j → states !! j = Some s →
     ∃ i set term, i < j ∧ states !! i = Some set
                   ∧ s = Goto g' set term ∧ s ≠ ∅)
  ∧ (∀ s, states !! 0 = Some s → mkItem 0 0 ∈ s)
  ∧ Forall (λ s, s ≠ ∅) states.
Proof.
  unfold ComputeStates.
  destruct (First fuel g) as [[g1 first]| |]; [|done..]. cbn [mbind res_bind].
  destruct (Follow fuel g1 first) as [follow1| |]; [|done..].
  cbn [mbind res_bind]. destruct (rules g1) as [|r0 rs]; [done|].
  destruct (Shift_loop fuel o g1 0 _ []) as [[states1 allActions1]| |] eqn:Hloop;
    [|done..].
  cbn [mbind res_bind]. intros [= -> -> -> ->].
  assert (reached g' states) as Hreached.
  { eapply Shift_loop_reached; [|done].
    intros [|j] s Hj Hs; [lia|done]. }
  assert (∀ s, states !! 0 = Some s → mkItem 0 0 ∈ s) as Hstart.
  { intros s Hs.
    rewrite (Shift_loop_keeps fuel o g' 0 [Closure g' {[ mkItem 0 0 ]}] []
               states allActions 0 (Closure g' {[ mkItem 0 0 ]})
               eq_refl Hloop) in Hs.
    injection Hs as <-. apply closure_facts.Closure_spec.
    by apply elem_of_singleton. }
  split_and!; [done..|].
  apply Forall_lookup_2. intros [|j] s Hs.
  - intros Heq. specialize (Hstart s Hs). rewrite Heq in Hstart.
    by apply elem_of_empty in Hstart.
  - by destruct (Hreached (S j) s ltac:(lia) Hs) as (_ & _ & _ & _ & _ & _ & ?).
Qed.

Lemma ComputeStates_reached_witness :
  ∃ g' follow states allActions,
    ComputeStates 5 order_facts.forwards reduce_facts.sums
    = Ok (g', follow, states, allActions)
    ∧ (∀ j s, 0 < j → states !! j = Some s →
         ∃ i set term, i < j ∧ states !! i = Some set
                       ∧ s = Goto g' set term ∧ s ≠ ∅)
    ∧ (∀ s, states !! 0 = Some s → mkItem 0 0 ∈ s)
    ∧ Forall (λ s, s ≠ ∅) states.
Proof.
  assert (holds (ComputeStates 5 order_facts.forwards reduce_facts.sums)
            (λ _, True)) as Hok.
  { vm_compute. exact I. }
  apply holds_inv in Hok as ([[[g' follow] states] allActions] & Hrun & _).
  exists g', follow, states, allActions. split; [exact Hrun|].
  exact (ComputeStates_reached _ _ _ _ _ _ _ Hrun).
Defined.

End reach_facts.

(** ** What the cells of the table mean *)

Module cells_facts.
Import lr.
Import reduce_facts.

(** State [set] has an item of a finished rule that [term] may follow. *)
Definition reducible (g : Grammar) (follow : SymbolMap) (set : ItemSet)
    (term : string) (r : nat) : Prop :=
  ∃ item, item ∈ set ∧ rule item = r ∧ (NextSym g item).2 = true
          ∧ term ∈ follow !!! symbol (Item_rule g item).

Lemma rowAfter_None row l term :
  rowAfter row l !! term = None →
  row !! term = None ∧ ∀ item, (item, term) ∉ l.
Proof.
  induction l as [|[item' term'] l IH] using rev_ind.
  - intros Hrow. split; [done|]. by intros item ?%elem_of_nil.
  - rewrite rowAfter_app. cbn. intros [Hrow Hne]%lookup_insert_None.
    destruct (IH Hrow) as [Hrow0 Hl]. split; [done|].
    intros item [Hin|[= _ <-]%list_elem_of_singleton]%elem_of_app;
      [by eapply Hl|done].
Qed.

(** X13.  The cells of the table that [ComputeActions] returns, state by
    state.  A [Reduce] of rule [r] on [term]: the state has an item of
    rule [r] with the dot at the end, and [term] is in the follow set of
    the rule's left-hand side.  A [Shift] to [j] on [term]: state [j] is
    the goto of the state on [term], and no finished item of the state
    has [term] in its follow set.  No entry on a symbol [term] of the
    grammar: the goto on [term] is empty, and there is no such item
    either. *)
Theorem ComputeActions_cells fuel o g g' follow states allActions :
  MapOrder_ok o →
  ComputeStates fuel o g = Ok (g', follow, states, allActions) →
  ∃ table log,
    ComputeActions fuel o g = Ok (table, log)
    ∧ ∀ i set term, states !! i = Some set →
        match table !! i ≫= (.!! term) with
        | Some (Reduce r) => reducible g' follow set term r
        | Some (Shift j) =>
            states !! j = Some (Goto g' set term)
            ∧ ∀ r, ¬ reducible g' follow set term r
        | None =>
            (term ∈ symbols g' → Goto g' set term = ∅)
            ∧ ∀ r, ¬ reducible g' follow set term r
        end.
Proof.
  intros Ho Hstates.
  destruct (states_facts.ComputeStates_collection _ _ _ _ _ _ _ Ho Hstates)
    as ((_ & _ & Hrows) & Hlen & _).
  unfold ComputeActions. rewrite Hstates. cbn [mbind res_bind].
  unfold Reduce_loop.
  destruct (Reduce_states_spec o g' follow states 0 allActions [])
    as (table & log & Hrun & Hlen' & _ & _ & Hafter); [cbn; lia|].
  change (imap (λ j, pair (0 + j)) states) with (imap pair states) in Hrun.
  exists table, log. split; [done|].
  intros i set term Hset.
  destruct (lookup_lt_is_Some_2 allActions i) as [row0 Hrow0].
  { apply lookup_lt_Some in Hset. lia. }
  destruct (Hafter i set row0 Hset Hrow0) as [Htable _].
  cbn in Htable. rewrite Htable. cbn [mbind option_bind].
  destruct (Hrows i row0 Hrow0) as (set' & Hset' & Hsound & Hcomplete).
  assert (set' = set) as -> by congruence.
  assert (∀ r, reducible g' follow set term r →
            ∃ item, (item, term) ∈ installs o g' follow i set) as Hinst.
  { intros r (item & Hin & _ & Hend & Hterm). exists item.
    by apply installs_elem. }
  destruct (rowAfter row0 (installs o g' follow i set) !! term)
    as [[j|r]|] eqn:Hcell.
  - pose proof Hcell as [Hrow|(item & _ & [=])]%validity_facts.rowAfter_lookup.
    destruct (Hsound term _ Hrow) as (j' & [= <-] & Hj & _).
    split; [done|]. intros r Hr.
    destruct (rowAfter_last_Reduce row0 _ term (Hinst r Hr)) as (item & _ & Hc).
    congruence.
  - pose proof Hcell as [Hrow|(item & Hin & [= ->])]%validity_facts.rowAfter_lookup.
    { by destruct (Hsound term _ Hrow) as (j' & [=] & _). }
    apply installs_elem in Hin as (Hin & Hend & Hterm); [|done].
    by exists item.
  - apply rowAfter_None in Hcell as [Hrow Hnone]. split.
    + intros Hterm.
      destruct (decide (Goto g' set term = ∅)) as [|Hne]; [done|].
      destruct (Hcomplete term Hterm Hne) as [a Ha]. congruence.
    + intros r Hr. destruct (Hinst r Hr) as [item Hin]. by eapply Hnone.
Qed.

Lemma ComputeActions_cells_witness :
  ∃ g' follow states allActions table log,
    ComputeStates 5 order_facts.forwards sums
    = Ok (g', follow, states, allActions)
    ∧ ComputeActions 5 order_facts.forwards sums = Ok (table, log)
    ∧ ∀ i set term, states !! i = Some set →
        match table !! i ≫= (.!! term) with
        | Some (Reduce r) => reducible g' follow set term r
        | Some (Shift j) =>
            states !! j = Some (Goto g' set term)
            ∧ ∀ r, ¬ reducible g' follow set term r
        | None =>
            (term ∈ symbols g' → Goto g' set term = ∅)
            ∧ ∀ r, ¬ reducible g' follow set term r
        end.
Proof.
  assert (holds (ComputeStates 5 order_facts.forwards sums) (λ _, True))
    as Hok.
  { vm_compute. exact I. }
  apply holds_inv in Hok as ([[[g' follow] states] allActions] & Hrun & _).
  destruct (ComputeActions_cells _ _ _ _ _ _ _
              order_facts.forwards_ok Hrun) as (table & log & Hspec).
  exists g', follow, states, allActions, table, log.
  split; [exact Hrun|]. exact Hspec.
Defined.

End cells_facts.

(** ** Grammars without conflicts and the order of the reduce loop *)

Module conflict_free_facts.
Import lr.
Import reduce_facts.













End conflict_free_facts.

(** ** Patterns, the emitted tables and the driver *)

Module output_facts.
Import lr.

Lemma Split_nonempty (s : string) (sep : ascii) : Split s sep ≠ [].
Proof.
  destruct s as [|c s]; [done|]. cbn [Split].
  destruct (decide (c = sep)); [done|]. by destruct (Split s sep).
Qed.

(** X15.  [parsePattern] returns as many variables as symbols, and at least
    one symbol (the empty string gives the one symbol that is empty, not
    an empty pattern); a variable is a single byte or empty. *)
Theorem parsePattern_shape (patternStr : string) :
  (parsePattern patternStr).1 ≠ []
  ∧ length (parsePattern patternStr).2 = length (parsePattern patternStr).1
  ∧ Forall (λ v, String.length v ≤ 1) (parsePattern patternStr).2
  ∧ parsePattern "" = ([ "" ], [ "" ]).
Proof.
  assert (parsePattern patternStr
          = (map (fst ∘ pattern_facts.splitToken) (Split patternStr " "),
             map (snd ∘ pattern_facts.splitToken) (Split patternStr " ")))
    as -> by exact (pattern_facts.parsePattern_fold [] (Split patternStr " ")).
  cbn [fst snd]. split_and!.
  - pose proof (Split_nonempty patternStr " ") as Hne.
    by destruct (Split patternStr " ").
  - by rewrite !length_map.
  - apply Forall_fmap, Forall_forall. intros w _. cbn.
    destruct w as [|x [|e [|y sym]]]; cbn; try lia.
    case_decide; cbn; lia.
  - reflexivity.
Qed.

(** *** [writeTables] *)

(** The writer [w'] holds what [w] held, and more. *)
Definition extends (w w' : codegen.Writer) : Prop :=
  ∃ text, codegen.buf w' = codegen.buf w +:+ text.

Lemma extends_refl w : extends w w.
Proof. exists "". by rewrite string_app_nil_r. Qed.

Lemma extends_trans w1 w2 w3 : extends w1 w2 → extends w2 w3 → extends w1 w3.
Proof.
  intros [t1 H1] [t2 H2]. exists (t1 +:+ t2).
  by rewrite H2, H1, string_app_assoc.
Qed.

Lemma extends_Line w text : extends w (codegen.Line w text).
Proof. by exists (text +:+ codegen.nl). Qed.

Section Rules.

Variable quote : string → string.

Lemma writeVars_Ok types r (l : list (nat * string)) w :
  (∀ j v, (j, v) ∈ l → j < length (pattern r)) →
  ∃ w', res_foldl (writeVar types r) w l = Ok w' ∧ extends w w'.
Proof.
  revert w. induction l as [|[j v] l IH]; intros w Hl.
  - exists w. split; [done|apply extends_refl].
  - cbn [res_foldl]. unfold writeVar at 2.
    assert (∀ j' v', (j', v') ∈ l → j' < length (pattern r)) as Hl'
      by (intros j' v' Hin; apply (Hl j' v'); by right).
    destruct (decide (v = "")) as [_|_].
    + cbn [mbind res_bind]. by apply IH.
    + destruct (lookup_lt_is_Some_2 (pattern r) j) as [sym Hsym];
        [apply (Hl j v); left|].
      rewrite Hsym. cbn [mbind res_bind].
      destruct (IH (codegen.Line w
                      (v +:+ " := data[" +:+ itoa (Z.of_nat j) +:+ "].("
                         +:+ (if decide (default "" (types !! sym) = "")
                              then "Tok" else default "" (types !! sym))
                         +:+ ")")) Hl')
        as (w' & Hrun & Hext).
      exists w'. split; [done|].
      eapply extends_trans; [apply extends_Line|done].
Qed.

Lemma writeRule_Ok types w r :
  length (vars r) ≤ length (pattern r) →
  ∃ w', writeRule quote types w r = Ok w' ∧ extends w w'.
Proof.
  intros Hlen. unfold writeRule.
  destruct (decide (code r = "")) as [_|_]; cbn [mbind res_bind].
  - eexists. split; [done|].
    eapply extends_trans; [apply extends_Line|].
    eapply extends_trans; apply extends_Line.
  - edestruct (writeVars_Ok types r (imap pair (vars r))) as (w' & -> & Hext).
    { intros j v (i & x & [= -> ->] & Hx%lookup_lt_Some)%elem_of_lookup_imap.
      lia. }
    cbn [mbind res_bind]. eexists. split; [done|].
    eapply extends_trans; [apply extends_Line|].
    eapply extends_trans; [apply extends_Line|].
    eapply extends_trans; [done|].
    eapply extends_trans; [apply extends_Line|].
    eapply extends_trans; apply extends_Line.
Qed.

Lemma writeRules_Ok types (rs : list Rule) w :
  Forall (λ r, length (vars r) ≤ length (pattern r)) rs →
  ∃ w', res_foldl (writeRule quote types) w rs = Ok w' ∧ extends w w'.
Proof.
  intros Hrs. revert w. induction Hrs as [|r rs Hr _ IH]; intros w.
  - exists w. split; [done|apply extends_refl].
  - cbn [res_foldl].
    destruct (writeRule_Ok types w r Hr) as (w1 & -> & Hext1).
    cbn [mbind res_bind]. destruct (IH w1) as (w' & Hrun & Hext).
    exists w'. split; [done|]. by eapply extends_trans.
Qed.

(** X16.  [writeTables] returns, having appended to the writer, when no rule
    has more variables than symbols and the table names rules of the
    grammar; what it appends is the same whatever the order in which the
    keys of the rows are collected. *)
Theorem writeTables_total keyRange w prefix g table :
  emit_facts.keyRange_ok keyRange →
  emit_facts.table_rules_ok g table →
  Forall (λ r, length (vars r) ≤ length (pattern r)) (rules g) →
  ∃ w', writeTables quote keyRange w prefix g table = Ok w'
        ∧ extends w w'
        ∧ ∀ keyRange', emit_facts.keyRange_ok keyRange' →
            writeTables quote keyRange' w prefix g table = Ok w'.
Proof.
  intros Hrange Htable Hvars. unfold writeTables. cbv zeta.
  edestruct (writeRules_Ok
              (foldl (λ types r, <[symbol r := typ r]> types) ∅ (rules g))
              (rules g)) as (w1 & -> & Hext1); [done|].
  cbn [mbind res_bind]. unfold writeActions.
  rewrite emit_facts.writeRows_text by done. cbn [mbind res_bind].
  eexists. split_and!; [done| |].
  - eapply extends_trans; [apply extends_Line|].
    eapply extends_trans; [done|].
    eapply extends_trans; [apply extends_Line|].
    eapply extends_trans; [apply extends_Line|].
    eapply extends_trans; [apply extends_Line|].
    eapply extends_trans; [|apply extends_Line].
    eexists. cbn [codegen.buf]. done.
  - intros keyRange' Hrange'.
    rewrite emit_facts.writeRows_text by done. cbn [mbind res_bind].
    do 6 f_equal. apply map_ext_in. intros row _.
    apply emit_facts.sort_Strings_order_irrelevant.
    + rewrite (Hrange' row). apply NoDup_elements.
    + by rewrite (Hrange' row), (Hrange row).
Qed.

End Rules.

Lemma writeTables_total_witness :
  ∃ w', writeTables quote_plain (λ row, elements (dom row : gset string))
          codegen.empty "lr"
          (newGrammar [mkRule "s" "T" ["e"] [""] "";
                       mkRule "e" "T" ["e"; "+"; "e"] ["a"; ""; "b"] "return a"])
          [ {[ "e" := Shift 1 ]}; {[ "$" := Reduce 0; "+" := Shift 2 ]} ]
        = Ok w'
        ∧ extends codegen.empty w'
        ∧ ∀ keyRange', emit_facts.keyRange_ok keyRange' →
            writeTables quote_plain keyRange' codegen.empty "lr"
              (newGrammar [mkRule "s" "T" ["e"] [""] "";
                           mkRule "e" "T" ["e"; "+"; "e"] ["a"; ""; "b"]
                             "return a"])
              [ {[ "e" := Shift 1 ]}; {[ "$" := Reduce 0; "+" := Shift 2 ]} ]
            = Ok w'.
Proof.
  apply writeTables_total.
  - intros row. reflexivity.
  - refine (bool_decide_unpack _ _). vm_compute. exact I.
  - repeat (constructor; [cbn; lia|]). constructor.
Defined.

(** *** [Main] *)

(** X17.  In [lr] mode a run on a rule list that is not empty, with no empty
    pattern and no more variables than symbols in a rule (as
    [parsePattern] builds them), comes back with the code or with an
    error: nothing in it panics and its loops end. *)
Theorem Main_returns quote format_Source template params (rs : list Rule) :
  rs ≠ [] →
  Forall (λ r, pattern r ≠ [] ∧ length (vars r) ≤ length (pattern r)) rs →
  ∃ n, ∀ fuel o keyRange,
    n ≤ fuel → MapOrder_ok o → emit_facts.keyRange_ok keyRange →
    ∃ out, lr.Main quote format_Source template fuel o keyRange
             (inr (params, rs)) = Ok out.
Proof.
  intros Hne Hrs.
  destruct (termination_facts.ComputeActions_ends (newGrammar rs)) as [n Hn];
    [done| |].
  { eapply Forall_impl; [done|]. by intros r [? _]. }
  exists n. intros fuel o keyRange Hfuel Ho Hrange.
  destruct (Hn fuel o Hfuel Ho) as (table & log & Hrun & Htable).
  unfold lr.Main, lr.emit. cbv zeta. rewrite Hrun. cbn [mbind res_bind].
  cbn [rules newGrammar]. destruct rs as [|r0 rs']; [done|].
  unfold writeTables. cbv zeta. cbn [rules newGrammar].
  edestruct (writeRules_Ok quote
               (foldl (λ types r, <[symbol r := typ r]> types) ∅ (r0 :: rs'))
               (r0 :: rs')) as (w1 & -> & _).
  { eapply Forall_impl; [done|]. by intros r [_ ?]. }
  cbn [mbind res_bind]. unfold writeActions.
  rewrite emit_facts.writeRows_text by done. cbn [mbind res_bind].
  destruct (codegen.Fmt format_Source _); by eexists.
Qed.

Lemma Main_returns_witness :
  ∃ n, ∀ fuel o keyRange,
    n ≤ fuel → MapOrder_ok o → emit_facts.keyRange_ok keyRange →
    ∃ out, lr.Main quote_plain inl (λ _, "") fuel o keyRange
             (inr (mkParams "lr" "main" "Tok" false,
                   [mkRule "s" "T" ["e"] [""] "";
                    mkRule "e" "T" ["e"; "+"; "e"] ["a"; ""; "b"] "return a";
                    mkRule "e" "T" ["n"] [""] ""])) = Ok out.
Proof.
  apply Main_returns; [done|].
  repeat (constructor; [split; [done|cbn; lia]|]). constructor.
Defined.

(** The failure of the formatter in [lr] mode, on the rules
    [start := item; item := x]. *)
Lemma lr_Main_format_error_witness :
  ∃ w msg,
    lr.emit quote_plain (λ _, "") 3 order_facts.forwards
      (λ row, elements (dom row : gset string))
      (mkParams "lr" "main" "Tok" false) (rules first_facts.chain) = Ok w
    ∧ lr.Main quote_plain (λ _, inr "1:1: expected package") (λ _, "") 3
        order_facts.forwards (λ row, elements (dom row : gset string))
        (inr (mkParams "lr" "main" "Tok" false, rules first_facts.chain))
      = Ok (lr.Error msg)
    ∧ driver_facts.includes msg (codegen.Raw w)
    ∧ driver_facts.includes msg "1:1: expected package".
Proof.
  assert (holds (lr.emit quote_plain (λ _, "") 3 order_facts.forwards
                   (λ row, elements (dom row : gset string))
                   (mkParams "lr" "main" "Tok" false)
                   (rules first_facts.chain)) (λ _, True)) as Hok.
  { vm_compute. exact I. }
  apply holds_inv in Hok as (w & Hrun & _).
  destruct (driver_facts.lr_Main_format_error quote_plain
              (λ _, inr "1:1: expected package") (λ _, "") 3
              order_facts.forwards (λ row, elements (dom row : gset string))
              (mkParams "lr" "main" "Tok" false) (rules first_facts.chain)
              w "1:1: expected package" Hrun eq_refl)
    as (msg & HMain & Hraw & Herr).
  exists w, msg. split; [exact Hrun|]. split; [exact HMain|].
  split; [exact Hraw|exact Herr].
Defined.

End output_facts.

(** ** The token file and the symbol trie *)

Module tokens_facts.
Import lex.

(** X21.  A word that ends with a colon and is none of the three block headers
    stops [ReadTokens] ([log.Fatalf]), whatever follows it. *)
Theorem ReadTokens_unknown_block (es : list lex_facts.entry) (w : string)
    (rest : list string) :
  Forall lex_facts.entry_ok es →
  lastByte w = Some ":"%char → blockOf (dropLast w) = None →
  ReadTokens (lex_facts.fileWords es ++ w :: rest) = Panic.
Proof.
  intros Hes Hlast Hblock. unfold ReadTokens.
  rewrite lex_facts.ReadTokens_loop_entries by done.
  cbn [ReadTokens_loop]. rewrite Hlast.
  rewrite decide_True by done. by rewrite Hblock.
Qed.

Lemma ReadTokens_unknown_block_witness :
  ReadTokens (["symbols:"; "Semi"; ";"] ++ "operators:" :: ["Plus"; "+"])
  = Panic.
Proof.
  apply (ReadTokens_unknown_block
           [lex_facts.Header BlockSymbol; lex_facts.Pair "Semi" ";"]
           "operators:" ["Plus"; "+"]).
  - repeat constructor. eexists. split; [reflexivity|discriminate].
  - reflexivity.
  - reflexivity.
Defined.

(** *** [add] *)

Lemma add_nil s acc : add s "" acc = mkSymM acc (next s).
Proof. done. Qed.

Lemma add_cons s c rest acc :
  add s (String c rest) acc
  = mkSymM (accept s)
      (<[c := add (default symM_zero (next s !! c)) rest acc]> (next s)).
Proof. done. Qed.

(** Adding two different literals gives the same trie in either order;
    adding a literal again replaces the name at its node and nothing
    else. *)
Lemma add_order (s : symM) (a b x y : string) :
  (a ≠ b → add (add s a x) b y = add (add s b y) a x)
  ∧ add (add s a x) a y = add s a y.
Proof.
  split.
  - revert s b. induction a as [|c a IH]; intros s [|d b] Hne; [done|..].
    + rewrite !add_nil, !add_cons. by cbn [accept next].
    + rewrite !add_nil, !add_cons. by cbn [accept next].
    + rewrite !add_cons. cbn [accept next]. f_equal.
      destruct (decide (c = d)) as [->|Hcd].
      * rewrite !lookup_insert_eq. cbn [default].
        rewrite !insert_insert_eq. f_equal. apply IH. congruence.
      * rewrite !lookup_insert_ne by done. by apply insert_insert_ne.
  - revert s. induction a as [|c a IH]; intros s; [done|].
    rewrite !add_cons. cbn [accept next].
    rewrite lookup_insert_eq. cbn [default from_option id].
    by rewrite insert_insert_eq, IH.
Qed.

(** One step of [writeMachine]'s loop over the tokens. *)
Definition addToken (sm : symM) (tok : Token) : symM :=
  if decide (block tok ≠ BlockSymbol) then sm
  else add sm (value tok) (name tok).

(** The literals of the symbol block. *)
Definition symbolValues (tokens : list Token) : list string :=
  value <$> filter (λ tok, block tok = BlockSymbol) tokens.

#[global] Instance symbolValues_Permutation :
  Proper ((≡ₚ) ==> (≡ₚ)) symbolValues.
Proof. intros l1 l2 Hp. unfold symbolValues. by rewrite Hp. Qed.

Lemma addTokens_order (tokens tokens' : list Token) :
  tokens ≡ₚ tokens' → NoDup (symbolValues tokens) →
  ∀ sm, foldl addToken sm tokens = foldl addToken sm tokens'.
Proof.
  induction 1 as [|tok l l' Hp IH|t1 t2 l|l1 l2 l3 Hp1 IH1 Hp2 IH2];
    intros Hnd sm.
  - done.
  - cbn [foldl]. apply IH. unfold symbolValues in *.
    rewrite filter_cons in Hnd. case_decide; [|done].
    by apply NoDup_cons in Hnd as [_ ?].
  - cbn [foldl]. f_equal. unfold addToken.
    destruct (decide (block t1 ≠ BlockSymbol)) as [|H1],
             (decide (block t2 ≠ BlockSymbol)) as [|H2]; try done.
    apply add_order. intros Heq.
    apply dec_stable in H1. apply dec_stable in H2.
    unfold symbolValues in Hnd. rewrite !filter_cons in Hnd.
    rewrite !decide_True in Hnd by done.
    cbn in Hnd. apply NoDup_cons in Hnd as [Hnin _].
    apply Hnin. rewrite Heq. left.
  - rewrite IH1 by done. apply IH2. by rewrite <- Hp1.
Qed.

(** X22.  The trie of [writeMachine] does not depend on the order of the
    tokens when the literals of the symbol block differ from each
    other. *)
Theorem buildMachine_order (tokens tokens' : list Token) :
  tokens ≡ₚ tokens' → NoDup (symbolValues tokens) →
  buildMachine tokens = buildMachine tokens'.
Proof. intros Hp Hnd. by apply addTokens_order. Qed.

Lemma buildMachine_order_witness :
  buildMachine [mkToken "Eq" "==" BlockSymbol; mkToken "For" "for" BlockKeyword;
                mkToken "Assign" "=" BlockSymbol]
  = buildMachine [mkToken "Assign" "=" BlockSymbol;
                  mkToken "Eq" "==" BlockSymbol;
                  mkToken "For" "for" BlockKeyword].
Proof.
  apply buildMachine_order.
  - etrans; [|apply Permutation_swap]. apply Permutation_skip.
    apply Permutation_swap.
  - unfold symbolValues. cbn. repeat constructor; set_solver.
Defined.

(** *** The emitted lexer and the order of map iteration *)

(** A [range] over the children of a node visits every byte once. *)
Definition charRange_ok (charRange : gset ascii → list ascii) : Prop :=
  ∀ s, charRange s ≡ₚ elements s.

#[global] Instance byte_le_trans : Transitive byte_le.
Proof. intros a b c. unfold byte_le. lia. Qed.

#[global] Instance byte_le_total : Total byte_le.
Proof. intros a b. unfold byte_le. lia. Qed.

#[global] Instance byte_le_antisym : AntiSymm (=) byte_le.
Proof.
  intros a b Hab Hba. unfold byte_le in *.
  rewrite <- (ascii_N_embedding a), <- (ascii_N_embedding b). f_equal. lia.
Qed.

Lemma sorted_unique (l1 l2 : list ascii) :
  StronglySorted byte_le l1 → StronglySorted byte_le l2 →
  l1 ≡ₚ l2 → l1 = l2.
Proof.
  intros H1. revert l2.
  induction H1 as [|x l1 Hl1 IH Hx]; intros l2 H2 Hp.
  - by apply Permutation_nil_l in Hp.
  - destruct H2 as [|y l2 Hl2 Hy].
    { by apply Permutation_nil_r in Hp. }
    assert (x = y) as ->.
    { assert (x ∈ y :: l2) as Hxin by (rewrite <- Hp; left).
      assert (y ∈ x :: l1) as Hyin by (rewrite Hp; left).
      apply elem_of_cons in Hxin as [->|Hxin]; [done|].
      apply elem_of_cons in Hyin as [->|Hyin]; [done|].
      eapply Forall_forall in Hx; [|done].
      eapply Forall_forall in Hy; [|done].
      by apply (anti_symm byte_le). }
    f_equal. apply IH; [done|]. by apply Permutation_cons_inv in Hp.
Qed.

Lemma sort_Chars_order_irrelevant (keys1 keys2 : list ascii) :
  keys1 ≡ₚ keys2 → sort_Chars keys1 = sort_Chars keys2.
Proof.
  intros Hp. unfold sort_Chars.
  apply sorted_unique; [apply (StronglySorted_merge_sort byte_le)..|].
  by rewrite !merge_sort_Permutation.
Qed.

(** The height of a trie. *)
Fixpoint depth (s : symM) : nat :=
  S (map_fold (λ _ d acc, Nat.max d acc) 0 (depth <$> next s)).

Lemma depth_eq s :
  depth s = S (map_fold (λ _ d acc, Nat.max d acc) 0 (depth <$> next s)).
Proof. by destruct s. Qed.

Lemma map_fold_max (m : gmap ascii nat) c d :
  m !! c = Some d → d ≤ map_fold (λ _ d acc, Nat.max d acc) 0 m.
Proof.
  induction m as [|i x m Hi IH] using map_ind; [done|].
  rewrite map_fold_insert_L; [|intros; lia|done].
  destruct (decide (i = c)) as [->|Hne].
  - rewrite lookup_insert_eq. intros [= ->]. lia.
  - rewrite lookup_insert_ne by done. intros Hc%IH. lia.
Qed.

Lemma depth_next s c ns : next s !! c = Some ns → depth ns < depth s.
Proof.
  intros Hc. rewrite (depth_eq s).
  assert ((depth <$> next s) !! c = Some (depth ns)) as Hd
    by (by rewrite lookup_fmap, Hc).
  apply map_fold_max in Hd. lia.
Qed.

Lemma writeSwitch_eq charRange s w top :
  writeSwitch charRange s w top
  = if decide (dom (next s) = ∅)
    then codegen.Line w ("return t" +:+ accept s)
    else
      let w := codegen.Line w "switch r.Next() {" in
      let keys := sort_Chars (charRange (dom (next s))) in
      let w := if top then codegen.Line w "case 0: return tEOF" else w in
      let w :=
        foldl (λ w char,
                 let w := codegen.Line w ("case '" +:+ fmt_c char +:+ "':") in
                 match next s !! char with
                 | Some ns => writeSwitch charRange ns w false
                 | None => w
                 end)
              w keys in
      let w := codegen.Line w "default:" in
      let w := codegen.Line w "r.Back()" in
      let w :=
        if decide (accept s = "") then
          let w := codegen.Line w "// It's up to the caller to figure it out." in
          codegen.Line w "return tNone"
        else codegen.Line w ("return t" +:+ accept s) in
      codegen.Line w "}".
Proof.
  destruct s as [acc nxt]. cbn [writeSwitch accept next].
  case_decide; [done|]. cbv zeta. do 4 f_equal.
  generalize (sort_Chars (charRange (dom nxt))) as keys.
  generalize (if top
              then codegen.Line (codegen.Line w "switch r.Next() {")
                     "case 0: return tEOF"
              else codegen.Line w "switch r.Next() {") as w0.
  intros w0 keys. revert w0.
  induction keys as [|char keys IH]; intros w0; [done|].
  cbn [foldl]. rewrite <- IH. f_equal.
  rewrite lookup_fmap. by destruct (nxt !! char).
Qed.

Lemma writeSwitch_order cr1 cr2 :
  charRange_ok cr1 → charRange_ok cr2 →
  ∀ n s w top, depth s < n →
    writeSwitch cr1 s w top = writeSwitch cr2 s w top.
Proof.
  intros H1 H2. induction n as [|n IH]; intros s w top Hn; [lia|].
  rewrite !writeSwitch_eq. case_decide; [done|]. cbv zeta.
  rewrite (sort_Chars_order_irrelevant (cr1 (dom (next s))) (cr2 (dom (next s))))
    by (by rewrite (H1 _), (H2 _)).
  assert (∀ keys w0,
            foldl (λ w char,
                     match next s !! char with
                     | Some ns =>
                         writeSwitch cr1 ns
                           (codegen.Line w ("case '" +:+ fmt_c char +:+ "':"))
                           false
                     | None => codegen.Line w ("case '" +:+ fmt_c char +:+ "':")
                     end) w0 keys
            = foldl (λ w char,
                       match next s !! char with
                       | Some ns =>
                           writeSwitch cr2 ns
                             (codegen.Line w ("case '" +:+ fmt_c char +:+ "':"))
                             false
                       | None => codegen.Line w ("case '" +:+ fmt_c char +:+ "':")
                       end) w0 keys) as Hfold.
  { induction keys as [|char keys IHk]; intros w0; [done|].
    cbn [foldl]. rewrite IHk. f_equal.
    destruct (next s !! char) as [ns|] eqn:Hns; [|done].
    apply IH. apply depth_next in Hns. lia. }
  by rewrite Hfold.
Qed.

(** X23.  In [lex] mode the run does not depend on the order in which the
    children of the trie's nodes are visited: [writeSwitch] sorts them. *)
Theorem lex_Main_order_irrelevant quote format_Source cr1 cr2 opened :
  charRange_ok cr1 → charRange_ok cr2 →
  lex.Main quote format_Source cr1 opened
  = lex.Main quote format_Source cr2 opened.
Proof.
  intros H1 H2. unfold lex.Main. destruct opened as [err|words]; [done|].
  destruct (ReadTokens words) as [tokens| |]; [|done..].
  cbn [mbind res_bind].
  assert (lex.emit quote cr1 tokens = lex.emit quote cr2 tokens) as ->; [|done].
  unfold lex.emit, writeMachine. cbv zeta.
  by rewrite (writeSwitch_order cr1 cr2 H1 H2
                (S (depth (buildMachine tokens))) (buildMachine tokens))
    by lia.
Qed.

Lemma lex_Main_order_irrelevant_witness :
  lex.Main quote_plain inl elements
    (inr ["symbols:"; "Eq"; "=="; "Assign"; "="; "Semi"; ";"])
  = lex.Main quote_plain inl (λ s, reverse (elements s))
      (inr ["symbols:"; "Eq"; "=="; "Assign"; "="; "Semi"; ";"]).
Proof.
  apply lex_Main_order_irrelevant.
  - intros s. reflexivity.
  - intros s. apply reverse_Permutation.
Defined.

End tokens_facts.

(** ** Reading the grammar files *)

Module lexer_facts.
Import lexer.

(** The string of a list of bytes. *)
Fixpoint text (l : list ascii) : string :=
  match l with
  | [] => ""
  | b :: l => String b (text l)
  end.

Lemma text_snoc (buf : string) (b : ascii) (l : list ascii) :
  (buf +:+ String b "") +:+ text l = buf +:+ text (b :: l).
Proof. by rewrite string_app_assoc. Qed.

(** How deep in braces the end of [l] is, relative to its start. *)
Fixpoint level (l : list ascii) : Z :=
  match l with
  | [] => 0
  | b :: l =>
      ((if decide (b = "{"%char) then 1
        else if decide (b = "}"%char) then -1 else 0) + level l)%Z
  end.

(** The braces of [code] match: none closes what was not opened, and all
    that were opened are closed. *)
Definition matched (code : list ascii) : Prop :=
  level code = 0%Z ∧ ∀ p, p `prefix_of` code → (0 ≤ level p)%Z.

(** No prefix of [code] closes the block that [code] is in. *)
Definition unclosed (code : list ascii) : Prop :=
  ∀ p, p `prefix_of` code → (0 ≤ level p)%Z.

Lemma wrap_small (z : Z) : (- 2 ^ 63 ≤ z < 2 ^ 63)%Z → wrap z = z.
Proof.
  intros Hz. unfold wrap.
  rewrite Z.mod_small by lia. lia.
Qed.

Section Reader.

Variable Reader : Type.
Variable Pos : Type.
Variable r_Pos : Reader → Pos.
Variable Next : Reader → ascii * Reader.
Variable Back : Reader → Reader.

(** The reader delivers the bytes of [l], and is then in the state
    returned. *)
Fixpoint feed (r : Reader) (l : list ascii) : option Reader :=
  match l with
  | [] => Some r
  | b :: l =>
      if decide ((Next r).1 = b) then feed (Next r).2 l else None
  end.

Lemma feed_app r l1 l2 :
  feed r (l1 ++ l2) = feed r l1 ≫= λ r1, feed r1 l2.
Proof.
  revert r. induction l1 as [|b l1 IH]; intros r; [done|].
  cbn [app feed]. case_decide; [apply IH|done].
Qed.

Lemma feed_cons r b l r' :
  feed r (b :: l) = Some r' → Next r = (b, (Next r).2) ∧ feed (Next r).2 l = Some r'.
Proof.
  cbn [feed]. case_decide as Hb; [|done]. intros Hfeed. split; [|done].
  rewrite <- Hb. by destruct (Next r).
Qed.

Lemma ReadCode_loop_open (l : list ascii) (last : ascii) fuel r r' braces buf :
  feed r (l ++ [last]) = Some r' →
  Forall (λ b, b ≠ "000"%char) l →
  (∀ p, p `prefix_of` l → (0 < braces + level p)%Z) →
  (braces + Z.of_nat (length l) < 2 ^ 63)%Z →
  length l < fuel →
  ∃ r1, Next r1 = (last, r')
        ∧ ReadCode_loop Reader Next fuel r braces buf
          = ReadCode_loop Reader Next (fuel - length l) r1
              (braces + level l) (buf +:+ text l).
Proof.
  revert fuel r braces buf.
  induction l as [|b l IH]; intros fuel r braces buf Hfeed Hnz Hopen Hbound Hfuel.
  - exists r. apply feed_cons in Hfeed as [Hnext [= <-]]. split; [done|].
    cbn. by rewrite Nat.sub_0_r, Z.add_0_r, string_app_nil_r.
  - cbn [app] in Hfeed. apply feed_cons in Hfeed as [Hnext Hfeed].
    apply Forall_cons in Hnz as [Hb Hnz].
    destruct fuel as [|fuel]; [cbn in Hfuel; lia|].
    cbn [ReadCode_loop]. rewrite Hnext. rewrite decide_False by done.
    pose proof (Hopen [] (prefix_nil _)) as Hpos0.
    pose proof (Hopen [b] (prefix_cons _ _ _ (prefix_nil _))) as Hpos.
    assert (∀ p, p `prefix_of` l → (0 < braces + level (b :: p))%Z) as Hopen'
      by (intros p Hp; by apply Hopen, prefix_cons).
    cbn [length level] in *.
    setoid_rewrite <- text_snoc.
    revert Hpos Hopen'.
    destruct (decide (b = "{"%char)) as [_|_];
      [|destruct (decide (b = "}"%char)) as [_|_]];
      intros Hpos Hopen';
      rewrite ?wrap_small by lia; rewrite decide_False by lia;
      (edestruct (IH fuel (Next r).2) as (r1 & Hlast & ->);
       [done | done | intros p Hp; specialize (Hopen' p Hp); lia | lia | lia |];
       exists r1; split; [done|]; f_equal; lia).
Qed.

(** X24.  [ReadCode] returns the bytes before the brace that closes the block:
    the braces inside are matched against each other.  The reader is
    left after the closing brace. *)
Theorem ReadCode_matched (code : list ascii) fuel r r' :
  feed r (code ++ ["}"%char]) = Some r' →
  Forall (λ b, b ≠ "000"%char) code → matched code →
  (Z.of_nat (length code) < 2 ^ 62)%Z → length code < fuel →
  ReadCode Reader Next fuel r = Ok (text code, r').
Proof.
  intros Hfeed Hnz [Hlevel Hopen] Hbound Hfuel. unfold ReadCode.
  destruct (ReadCode_loop_open code "}"%char fuel r r' 1 "")
    as (r1 & Hlast & ->);
    [done | done | intros p Hp; specialize (Hopen p Hp); lia | lia | done |].
  destruct (fuel - length code) as [|fuel'] eqn:Hf; [lia|].
  cbn [ReadCode_loop]. rewrite Hlast.
  rewrite (decide_False (P := "}"%char = "000"%char)) by done.
  rewrite (decide_False (P := "}"%char = "{"%char)) by done.
  rewrite (decide_True (P := "}"%char = "}"%char)) by done.
  rewrite Hlevel, wrap_small by lia. by rewrite decide_True by lia.
Qed.

(** X25.  [ReadCode] panics when the input ends inside the block. *)
Theorem ReadCode_unclosed (code : list ascii) fuel r r' :
  feed r (code ++ ["000"%char]) = Some r' →
  Forall (λ b, b ≠ "000"%char) code → unclosed code →
  (Z.of_nat (length code) < 2 ^ 62)%Z → length code < fuel →
  ReadCode Reader Next fuel r = Panic.
Proof.
  intros Hfeed Hnz Hopen Hbound Hfuel. unfold ReadCode.
  destruct (ReadCode_loop_open code "000"%char fuel r r' 1 "")
    as (r1 & Hlast & ->);
    [done | done | intros p Hp; specialize (Hopen p Hp); lia | lia | done |].
  destruct (fuel - length code) as [|fuel'] eqn:Hf; [lia|].
  cbn [ReadCode_loop]. rewrite Hlast. by rewrite decide_True.
Qed.

(** *** [Read] *)

(** [Back] backs up by one byte: the byte that [Next] has just returned
    is returned again. *)
Hypothesis Back_Next : ∀ r, Next (Back (Next r).2) = Next r.

Definition blank (c : ascii) : Prop := isWhitespace c = true.

(** A byte of an identifier: no whitespace, and not the end of the
    input. *)
Definition inWord (c : ascii) : Prop :=
  isWhitespace c = false ∧ c ≠ "000"%char.

Lemma skipWhitespace_feed (ws : list ascii) (b : ascii) fuel r r1 :
  feed r (ws ++ [b]) = Some r1 →
  Forall blank ws → isWhitespace b = false → length ws < fuel →
  skipWhitespace Reader Next fuel r = Ok r1 ∧ Next (Back r1) = (b, r1).
Proof.
  revert fuel r. induction ws as [|c ws IH]; intros fuel r Hfeed Hws Hb Hfuel.
  - apply feed_cons in Hfeed as [Hnext [= <-]].
    destruct fuel as [|fuel]; [lia|]. cbn [skipWhitespace].
    rewrite Back_Next. rewrite Hnext at 1 2. by rewrite Hb.
  - cbn [app] in Hfeed. apply feed_cons in Hfeed as [Hnext Hfeed].
    apply Forall_cons in Hws as [Hc Hws].
    destruct fuel as [|fuel]; [cbn in Hfuel; lia|]. cbn [skipWhitespace].
    rewrite Hnext, Hc. apply IH; [done..|]. cbn in Hfuel. lia.
Qed.

(** The token kinds of a single byte. *)
Definition markOf (b : ascii) : option TokenId :=
  if decide (b = "000"%char) then Some tEOF
  else if decide (b = ";"%char) then Some tSemi
  else if decide (b = "="%char) then Some tEquals
  else None.

Lemma markOf_not_blank b k : markOf b = Some k → isWhitespace b = false.
Proof.
  unfold markOf. repeat case_decide; try done; by subst b.
Qed.

(** X26.  After any whitespace, the end of the input, a semicolon and an
    equals sign are tokens of their own, with no data; the position is
    the one of the reader before that byte. *)
Theorem Read_mark (ws : list ascii) (b : ascii) (k : TokenId) fuel r r1 :
  feed r (ws ++ [b]) = Some r1 →
  Forall blank ws → markOf b = Some k → length ws < fuel →
  Read Reader Pos r_Pos Next Back fuel r
  = Ok (mkTok Pos (r_Pos (Back r1)) k "", r1).
Proof.
  intros Hfeed Hws Hk Hfuel. unfold Read.
  destruct (skipWhitespace_feed ws b fuel r r1) as [-> Hnext];
    [done | done | by eapply markOf_not_blank | done |].
  cbn [mbind res_bind]. rewrite Hnext.
  unfold markOf in Hk. repeat case_decide; by simplify_eq.
Qed.

(** X27.  After any whitespace, an opening brace starts a code token, whose
    data is the text up to the matching brace. *)
Theorem Read_code (ws code : list ascii) fuel r r1 r' :
  feed r (ws ++ ["{"%char]) = Some r1 → feed r1 (code ++ ["}"%char]) = Some r' →
  Forall blank ws →
  Forall (λ b, b ≠ "000"%char) code → matched code →
  (Z.of_nat (length code) < 2 ^ 62)%Z →
  length ws < fuel → length code < fuel →
  Read Reader Pos r_Pos Next Back fuel r
  = Ok (mkTok Pos (r_Pos (Back r1)) tCode (text code), r').
Proof.
  intros Hfeed Hcode Hws Hnz Hm Hbound Hfuel Hfuel'. unfold Read.
  destruct (skipWhitespace_feed ws "{"%char fuel r r1) as [-> Hnext];
    [done..|].
  cbn [mbind res_bind]. rewrite Hnext.
  rewrite (decide_False (P := "{"%char = "000"%char)) by done.
  rewrite (decide_False (P := "{"%char = ";"%char)) by done.
  rewrite (decide_False (P := "{"%char = "="%char)) by done.
  rewrite (decide_True (P := "{"%char = "{"%char)) by done.
  destruct Hm as [Hlevel Hopen]. unfold ReadCode.
  destruct (ReadCode_loop_open code "}"%char fuel r1 r' 1 "")
    as (r2 & Hlast & ->);
    [done | done | intros p Hp; specialize (Hopen p Hp); lia | lia | done |].
  destruct (fuel - length code) as [|fuel'] eqn:Hf; [lia|].
  cbn [ReadCode_loop]. rewrite Hlast.
  rewrite (decide_False (P := "}"%char = "000"%char)) by done.
  rewrite (decide_False (P := "}"%char = "{"%char)) by done.
  rewrite (decide_True (P := "}"%char = "}"%char)) by done.
  rewrite Hlevel, wrap_small by lia. by rewrite decide_True by lia.
Qed.

Lemma readIdent_feed (word : list ascii) (t : ascii) fuel r r' buf :
  feed r (word ++ [t]) = Some r' →
  Forall inWord word → blank t ∨ t = "000"%char → length word < fuel →
  readIdent Reader Next fuel r buf
  = data ← unquote (buf +:+ text word); Ok (data, r').
Proof.
  revert fuel r buf.
  induction word as [|c word IH]; intros fuel r buf Hfeed Hword Ht Hfuel.
  - apply feed_cons in Hfeed as [Hnext [= <-]].
    destruct fuel as [|fuel]; [lia|]. cbn [readIdent]. rewrite Hnext.
    rewrite string_app_nil_r.
    destruct Ht as [->| ->]; [done|]. by rewrite orb_true_r.
  - cbn [app] in Hfeed. apply feed_cons in Hfeed as [Hnext Hfeed].
    apply Forall_cons in Hword as [[Hc Hc0] Hword].
    destruct fuel as [|fuel]; [cbn in Hfuel; lia|]. cbn [readIdent].
    rewrite Hnext, Hc. rewrite bool_decide_false by done. cbn [orb].
    rewrite (IH fuel); [|done..|cbn in Hfuel; lia].
    by rewrite text_snoc.
Qed.

(** What [unquote] does, on lists of bytes: a word that begins and ends
    with an apostrophe loses the two. *)
Definition strip (word : list ascii) : list ascii :=
  match word with
  | c :: rest =>
      if decide (c = "'"%char ∧ last rest = Some "'"%char)
      then removelast rest else word
  | [] => []
  end.

Lemma lastByte_text (w : list ascii) : lex.lastByte (text w) = last w.
Proof.
  induction w as [|c w IH]; [done|]. cbn [text lex.lastByte].
  destruct w as [|c' w]; [done|]. exact IH.
Qed.

Lemma length_text (w : list ascii) : String.length (text w) = length w.
Proof. induction w as [|c w IH]; [done|]. cbn. by rewrite IH. Qed.

Lemma substring_text (w : list ascii) :
  String.substring 0 (length w - 1) (text w) = text (removelast w).
Proof.
  induction w as [|c w IH]; [done|].
  destruct w as [|c' w]; [done|].
  replace (length (c :: c' :: w) - 1) with (S (length (c' :: w) - 1))
    by (cbn; lia).
  cbn [text String.substring removelast] in *. by rewrite IH.
Qed.

Lemma unquote_text (c : ascii) (rest : list ascii) :
  unquote (text (c :: rest))
  = if decide (c = "'"%char ∧ rest = []) then Panic
    else Ok (text (strip (c :: rest))).
Proof.
  unfold unquote, strip. cbn [text String.get].
  change (lex.lastByte (String c (text rest)))
    with (lex.lastByte (text (c :: rest))).
  rewrite lastByte_text.
  change (String.length (String c (text rest)))
    with (S (String.length (text rest))).
  rewrite length_text.
  destruct (decide (c = "'"%char)) as [->|Hc].
  - rewrite bool_decide_true by done. cbn [andb].
    destruct rest as [|c' rest].
    + rewrite bool_decide_true by done.
      rewrite decide_True by (cbn; lia). by rewrite decide_True.
    + rewrite (decide_False (P := _ ∧ c' :: rest = [])) by (by intros [_ ?]).
      change (last ("'"%char :: c' :: rest)) with (last (c' :: rest)).
      case_bool_decide as Hlast.
      * rewrite (decide_True (P := _ ∧ _)) by done.
        rewrite decide_False by (cbn; lia).
        f_equal. cbn [String.substring].
        replace (S (length (c' :: rest)) - 2) with (length (c' :: rest) - 1)
          by (cbn; lia).
        apply substring_text.
      * rewrite (decide_False (P := _ ∧ _)) by (by intros [_ ?]). done.
  - rewrite bool_decide_false by done. cbn [andb].
    rewrite (decide_False (P := c = "'"%char ∧ rest = [])) by (by intros [? _]).
    by rewrite decide_False by (by intros [? _]).
Qed.

Lemma Read_word (ws word : list ascii) (b t : ascii) fuel r r1 r' :
  feed r (ws ++ [b]) = Some r1 → feed r1 (word ++ [t]) = Some r' →
  Forall blank ws → Forall inWord (b :: word) →
  b ≠ ";"%char → b ≠ "="%char → b ≠ "{"%char →
  blank t ∨ t = "000"%char →
  length ws < fuel → S (length word) < fuel →
  Read Reader Pos r_Pos Next Back fuel r
  = if decide (b = "'"%char ∧ word = []) then Panic
    else Ok (mkTok Pos (r_Pos (Back r1)) tIdent (text (strip (b :: word))), r').
Proof.
  intros Hfeed Hword Hws Hin Hb1 Hb2 Hb3 Ht Hfuel Hfuel'. unfold Read.
  pose proof Hin as [[Hb Hb0] _]%Forall_cons.
  destruct (skipWhitespace_feed ws b fuel r r1) as [-> Hnext]; [done..|].
  cbn [mbind res_bind]. rewrite Hnext.
  rewrite !decide_False by done.
  assert (Next (Back r1) = (b, r1) → feed (Back r1) ((b :: word) ++ [t]) = Some r')
    as Hfeed'.
  { intros Hn. cbn [app feed]. rewrite Hn. cbn [fst snd].
    by rewrite decide_True. }
  rewrite (readIdent_feed (b :: word) t fuel (Back r1) r' "");
    [|by apply Hfeed'|done|done|cbn; lia].
  change ("" +:+ text (b :: word)) with (text (b :: word)).
  rewrite unquote_text. by case_decide.
Qed.

(** X28.  After any whitespace, any other byte starts an identifier, which
    runs up to the next whitespace or the end of the input (a semicolon
    or a brace inside it is part of it), and that byte is consumed.  An
    identifier between apostrophes loses them. *)
Theorem Read_ident (ws word : list ascii) (b t : ascii) fuel r r1 r' :
  feed r (ws ++ [b]) = Some r1 → feed r1 (word ++ [t]) = Some r' →
  Forall blank ws → Forall inWord (b :: word) →
  b ≠ ";"%char → b ≠ "="%char → b ≠ "{"%char →
  ¬ (b = "'"%char ∧ word = []) →
  blank t ∨ t = "000"%char →
  length ws < fuel → S (length word) < fuel →
  Read Reader Pos r_Pos Next Back fuel r
  = Ok (mkTok Pos (r_Pos (Back r1)) tIdent (text (strip (b :: word))), r').
Proof.
  intros Hfeed Hword Hws Hin Hb1 Hb2 Hb3 Hlone Ht Hfuel Hfuel'.
  rewrite (Read_word ws word b t fuel r r1 r') by done.
  by rewrite decide_False.
Qed.

(** X29.  The identifier that is a lone apostrophe makes [Read] panic: it
    begins and ends with an apostrophe, and the slice [data[1:0]] is out
    of range. *)
Theorem Read_lone_apostrophe (ws : list ascii) (t : ascii) fuel r r1 r' :
  feed r (ws ++ ["'"%char]) = Some r1 → feed r1 [t] = Some r' →
  Forall blank ws → blank t ∨ t = "000"%char →
  length ws < fuel → 1 < fuel →
  Read Reader Pos r_Pos Next Back fuel r = Panic.
Proof.
  intros Hfeed Hword Hws Ht Hfuel Hfuel'.
  rewrite (Read_word ws [] "'"%char t fuel r r1 r'); try done.
  by apply Forall_singleton.
Qed.

End Reader.

(** A reader over a list of bytes, for examples: the bytes, and how
    many of them have been read. *)
Definition listNext (r : list ascii * nat) : ascii * (list ascii * nat) :=
  (nth r.2 r.1 "000"%char, (r.1, S r.2)).

Definition listBack (r : list ascii * nat) : list ascii * nat :=
  (r.1, Nat.pred r.2).

Lemma listBack_Next r : listNext (listBack (listNext r).2) = listNext r.
Proof. by destruct r. Qed.

Lemma unclosed_takes (code : list ascii) :
  (∀ n, n ≤ length code → (0 ≤ level (take n code))%Z) → unclosed code.
Proof.
  intros Htakes p Hp.
  assert (p = take (length p) code) as Heq.
  { destruct Hp as [k ->]. by rewrite take_app_length. }
  rewrite Heq. apply Htakes. by apply prefix_length.
Qed.

Lemma ReadCode_matched_witness :
  ReadCode (list ascii * nat) listNext 6
    (list_ascii_of_string "a{b}c}d", 0)
  = Ok ("a{b}c", (list_ascii_of_string "a{b}c}d", 6)).
Proof.
  apply (ReadCode_matched (list ascii * nat) listNext
           (list_ascii_of_string "a{b}c")).
  - reflexivity.
  - repeat constructor; discriminate.
  - split; [reflexivity|]. apply unclosed_takes. intros n Hn.
    do 6 (destruct n as [|n]; [vm_compute; discriminate|]). cbn in Hn. lia.
  - cbn. lia.
  - cbn. lia.
Defined.

Lemma ReadCode_unclosed_witness :
  ReadCode (list ascii * nat) listNext 4 (list_ascii_of_string "a{b", 0)
  = Panic.
Proof.
  apply (ReadCode_unclosed (list ascii * nat) listNext
           (list_ascii_of_string "a{b") 4 _
           (list_ascii_of_string "a{b", 4)).
  - reflexivity.
  - repeat constructor; discriminate.
  - apply unclosed_takes. intros n Hn.
    do 4 (destruct n as [|n]; [vm_compute; discriminate|]). cbn in Hn. lia.
  - cbn. lia.
  - cbn. lia.
Defined.

Lemma Read_mark_witness :
  Read (list ascii * nat) nat snd listNext listBack 3
    (list_ascii_of_string "  ;x", 0)
  = Ok (mkTok nat 2 tSemi "", (list_ascii_of_string "  ;x", 3)).
Proof.
  apply (Read_mark (list ascii * nat) nat snd listNext listBack listBack_Next
           (list_ascii_of_string "  ") ";"%char tSemi 3
           (list_ascii_of_string "  ;x", 0) (list_ascii_of_string "  ;x", 3)).
  - reflexivity.
  - repeat constructor.
  - reflexivity.
  - cbn. lia.
Defined.

Lemma Read_code_witness :
  Read (list ascii * nat) nat snd listNext listBack 6
    (list_ascii_of_string " {a{}b}", 0)
  = Ok (mkTok nat 1 tCode "a{}b", (list_ascii_of_string " {a{}b}", 7)).
Proof.
  apply (Read_code (list ascii * nat) nat snd listNext listBack listBack_Next
           (list_ascii_of_string " ") (list_ascii_of_string "a{}b") 6
           (list_ascii_of_string " {a{}b}", 0)
           (list_ascii_of_string " {a{}b}", 2)
           (list_ascii_of_string " {a{}b}", 7)).
  - reflexivity.
  - reflexivity.
  - repeat constructor.
  - repeat constructor; discriminate.
  - split; [reflexivity|]. apply unclosed_takes. intros n Hn.
    do 5 (destruct n as [|n]; [vm_compute; discriminate|]). cbn in Hn. lia.
  - cbn. lia.
  - cbn. lia.
  - cbn. lia.
Defined.

Lemma Read_ident_witness :
  Read (list ascii * nat) nat snd listNext listBack 6
    (list_ascii_of_string " 'a;' b", 0)
  = Ok (mkTok nat 1 tIdent "a;", (list_ascii_of_string " 'a;' b", 6)).
Proof.
  apply (Read_ident (list ascii * nat) nat snd listNext listBack listBack_Next
           (list_ascii_of_string " ") (list_ascii_of_string "a;'")
           "'"%char " "%char 6
           (list_ascii_of_string " 'a;' b", 0)
           (list_ascii_of_string " 'a;' b", 2)
           (list_ascii_of_string " 'a;' b", 6)).
  - reflexivity.
  - reflexivity.
  - repeat constructor.
  - repeat constructor; discriminate.
  - discriminate.
  - discriminate.
  - discriminate.
  - by intros [_ ?].
  - by left.
  - cbn. lia.
  - cbn. lia.
Defined.

Lemma Read_lone_apostrophe_witness :
  Read (list ascii * nat) nat snd listNext listBack 2
    (list_ascii_of_string " ' x", 0)
  = Panic.
Proof.
  apply (Read_lone_apostrophe (list ascii * nat) nat snd listNext listBack
           listBack_Next (list_ascii_of_string " ") " "%char 2 _
           (list_ascii_of_string " ' x", 2)
           (list_ascii_of_string " ' x", 3)).
  - reflexivity.
  - reflexivity.
  - repeat constructor.
  - by left.
  - cbn. lia.
  - lia.
Defined.

End lexer_facts.

(** ** Reading the rules from a Go file *)

Module input_facts.
Import lr.
Import input.

Lemma res_foldl_app {A B} (f : A → B → res A) (a : A) (l1 l2 : list B) :
  res_foldl f a (l1 ++ l2) = a' ← res_foldl f a l1; res_foldl f a' l2.
Proof.
  revert a. induction l1 as [|b l1 IH]; intros a; [done|].
  cbn [app res_foldl]. destruct (f a b) as [a'| |]; [|done..].
  cbn [mbind res_bind]. apply IH.
Qed.

(** A statement that is no call of [syntax]. *)
Definition plain (s : Stmt) : Prop := isSyntaxCall s = Ok (false, "").

Section Reader.

Variable printer_Fprint : Node → string + string.

(** A call of [syntax] with the statements that follow it, up to the
    next call: the pattern of the call and the text of the statements. *)
Record segment := mkSegment {
  seg_call : Stmt;
  seg_pat : string;
  seg_code : list Stmt;
  seg_text : string
}.

Definition segment_ok (seg : segment) : Prop :=
  isSyntaxCall (seg_call seg) = Ok (true, seg_pat seg)
  ∧ Forall plain (seg_code seg)
  ∧ astStr printer_Fprint (NStmts (seg_code seg)) = Ok (seg_text seg).

Definition stmts (seg : segment) : list Stmt := seg_call seg :: seg_code seg.

Definition ruleOf (fn : FuncDecl) (ty : string) (seg : segment) : Rule :=
  mkRule (Name fn) ty (parsePattern (seg_pat seg)).1
         (parsePattern (seg_pat seg)).2 (seg_text seg).

Lemma processStmt_plain fn rule code rules l :
  Forall plain l →
  res_foldl (processStmt printer_Fprint fn) (rule, code, rules) l
  = Ok (rule, code ++ l, rules).
Proof.
  intros Hl. revert code. induction Hl as [|s l Hs _ IH]; intros code.
  - by rewrite app_nil_r.
  - cbn [res_foldl]. unfold processStmt at 2. rewrite Hs.
    cbn [mbind res_bind]. rewrite IH. by rewrite <- app_assoc.
Qed.

Lemma processStmt_segments fn ty segs rule code rules rules0 :
  Forall segment_ok segs →
  (segs ≠ [] → resultType printer_Fprint fn = Ok ty) →
  finish printer_Fprint rule code rules = Ok rules0 →
  (st ← res_foldl (processStmt printer_Fprint fn) (rule, code, rules)
                  (segs ≫= stmts);
   finish printer_Fprint st.1.1 st.1.2 st.2)
  = Ok (rules0 ++ map (ruleOf fn ty) segs).
Proof.
  intros Hsegs. revert rule code rules rules0.
  induction Hsegs as [|seg segs (Hcall & Hcode & Htext) _ IH];
    intros rule code rules rules0 Hty Hfinish.
  - cbn. by rewrite app_nil_r.
  - cbn [mbind list_bind stmts app]. cbn [res_foldl].
    unfold processStmt at 2. rewrite Hcall. cbn [mbind res_bind].
    rewrite Hfinish. cbn [mbind res_bind].
    destruct (parsePattern (seg_pat seg)) as [pat vs] eqn:Hpat.
    rewrite Hty by done. cbn [mbind res_bind].
    rewrite res_foldl_app, processStmt_plain by done.
    cbn [mbind res_bind app].
    rewrite (IH _ _ _ (rules0 ++ [ruleOf fn ty seg])).
    + by rewrite <- app_assoc.
    + intros _. by apply Hty.
    + cbn [finish]. rewrite Htext. cbn [mbind res_bind symbol typ pattern vars].
      unfold ruleOf. by rewrite Hpat.
Qed.

(** X19.  [processFunction] makes one rule for every call of [syntax] in the
    body of the function, in order, and appends them to the rules it is
    given: the rule has the name of the function as its symbol, the text
    of the first result type as its type, the pattern and the variables
    that [parsePattern] reads from the argument of the call, and as its
    code the text of the statements between the call and the next one.
    The statements before the first call are dropped. *)
Theorem processFunction_rules fn pre segs ty rules :
  Body fn = Some (pre ++ segs ≫= stmts) →
  Forall plain pre → Forall segment_ok segs →
  (segs ≠ [] → resultType printer_Fprint fn = Ok ty) →
  processFunction printer_Fprint fn rules
  = Ok (rules ++ map (ruleOf fn ty) segs).
Proof.
  intros Hbody Hpre Hsegs Hty. unfold processFunction. rewrite Hbody.
  rewrite res_foldl_app, processStmt_plain by done. cbn [mbind res_bind].
  pose proof (processStmt_segments fn ty segs None ([] ++ pre) rules rules
                Hsegs Hty eq_refl) as Hrun.
  destruct (res_foldl _ _ (segs ≫= stmts)) as [[[rule code] rules']| |];
    [|done..].
  exact Hrun.
Qed.

(** *** [Parse] *)

(** A rule with a pattern that is not empty and a variable for every
    symbol of it: [First] and [writeTables] index the pattern of such a
    rule within its bounds. *)
Definition shaped (r : Rule) : Prop :=
  pattern r ≠ [] ∧ length (vars r) = length (pattern r).

Lemma parsePattern_shaped (patternStr : string) :
  (parsePattern patternStr).1 ≠ []
  ∧ length (parsePattern patternStr).2 = length (parsePattern patternStr).1.
Proof.
  assert (parsePattern patternStr
          = (map (fst ∘ pattern_facts.splitToken) (Split patternStr " "),
             map (snd ∘ pattern_facts.splitToken) (Split patternStr " ")))
    as -> by exact (pattern_facts.parsePattern_fold [] (Split patternStr " ")).
  cbn [fst snd]. split; [|by rewrite !length_map].
  pose proof (output_facts.Split_nonempty patternStr " ") as Hne.
  by destruct (Split patternStr " ").
Qed.

Lemma finish_shaped rule code rules rules' :
  (∀ r, rule = Some r → shaped r) → Forall shaped rules →
  finish printer_Fprint rule code rules = Ok rules' → Forall shaped rules'.
Proof.
  intros Hrule Hrules. unfold finish. destruct rule as [r|]; [|by intros [= <-]].
  destruct (astStr _ _) as [text| |]; [|done..]. cbn [mbind res_bind].
  intros [= <-]. apply Forall_app. split; [done|].
  apply Forall_singleton. by destruct (Hrule r eq_refl).
Qed.

Lemma finish_base rule code (base rules : list Rule) :
  finish printer_Fprint rule code (base ++ rules)
  = rules' ← finish printer_Fprint rule code rules; Ok (base ++ rules').
Proof.
  unfold finish. destruct rule as [r|]; [|done].
  destruct (astStr _ _) as [text| |]; [|done..]. cbn [mbind res_bind].
  by rewrite app_assoc.
Qed.

Lemma processStmt_base fn rule code (base rules : list Rule) stmt :
  processStmt printer_Fprint fn (rule, code, base ++ rules) stmt
  = st ← processStmt printer_Fprint fn (rule, code, rules) stmt;
    Ok (st.1.1, st.1.2, base ++ st.2).
Proof.
  unfold processStmt.
  destruct (isSyntaxCall stmt) as [[matched patternStr]| |]; [|done..].
  cbn [mbind res_bind]. destruct matched; [|done].
  rewrite finish_base.
  destruct (finish _ rule code rules) as [rules'| |]; [|done..].
  cbn [mbind res_bind]. destruct (parsePattern patternStr) as [pat vs].
  by destruct (resultType _ fn).
Qed.

Lemma processStmts_base fn l rule code (base rules : list Rule) :
  res_foldl (processStmt printer_Fprint fn) (rule, code, base ++ rules) l
  = st ← res_foldl (processStmt printer_Fprint fn) (rule, code, rules) l;
    Ok (st.1.1, st.1.2, base ++ st.2).
Proof.
  revert rule code rules. induction l as [|stmt l IH]; intros rule code rules;
    [done|].
  cbn [res_foldl]. rewrite processStmt_base.
  destruct (processStmt _ fn (rule, code, rules) stmt)
    as [[[rule1 code1] rules1]| |]; [|done..].
  cbn [mbind res_bind fst snd]. apply IH.
Qed.

(** The rules of a function are appended to the rules read so far, and
    do not depend on them. *)
Lemma processFunction_base fn (rules : list Rule) :
  processFunction printer_Fprint fn rules
  = rs ← processFunction printer_Fprint fn []; Ok (rules ++ rs).
Proof.
  unfold processFunction. destruct (Body fn) as [body|]; [|done].
  rewrite <- (app_nil_r rules) at 1. rewrite processStmts_base.
  destruct (res_foldl _ _ body) as [[[rule code] rs]| |]; [|done..].
  cbn [mbind res_bind fst snd]. apply finish_base.
Qed.

Lemma processStmts_shaped fn l rule code rules st :
  (∀ r, rule = Some r → shaped r) → Forall shaped rules →
  res_foldl (processStmt printer_Fprint fn) (rule, code, rules) l = Ok st →
  (∀ r, st.1.1 = Some r → shaped r) ∧ Forall shaped st.2.
Proof.
  revert rule code rules.
  induction l as [|stmt l IH]; intros rule code rules Hrule Hrules Hrun.
  - by injection Hrun as <-.
  - cbn [res_foldl] in Hrun. unfold processStmt at 2 in Hrun.
    destruct (isSyntaxCall stmt) as [[matched patternStr]| |]; [|done..].
    cbn [mbind res_bind] in Hrun. destruct matched.
    + destruct (finish _ rule code rules) as [rules1| |] eqn:Hfinish;
        [|done..].
      cbn [mbind res_bind] in Hrun.
      pose proof (parsePattern_shaped patternStr) as Hshape.
      destruct (parsePattern patternStr) as [pat vs].
      destruct (resultType _ fn) as [ty| |]; [|done..].
      cbn [mbind res_bind] in Hrun.
      eapply IH; [| |done].
      * by intros r [= <-].
      * by eapply finish_shaped.
    + by eapply IH.
Qed.

Lemma processFunction_shaped fn rules rules' :
  Forall shaped rules →
  processFunction printer_Fprint fn rules = Ok rules' → Forall shaped rules'.
Proof.
  intros Hrules. unfold processFunction. destruct (Body fn) as [body|]; [|done].
  destruct (res_foldl _ _ body) as [[[rule code] rules1]| |] eqn:Hrun;
    [|done..].
  cbn [mbind res_bind].
  assert (∀ r : Rule, None = Some r → shaped r) as Hnone by done.
  destruct (processStmts_shaped _ _ _ _ _ _ Hnone Hrules Hrun).
  by apply finish_shaped.
Qed.

Lemma processName_Package values st iname st' :
  processName values st iname = Ok st' → Package st'.1 = Package st.1.
Proof.
  destruct st as [params log], iname as [i name]. unfold processName.
  repeat case_decide.
  - destruct (values !! i) as [v|]; [|done].
    destruct (literalString v) as [[[str ok] warned]| |]; [|done..].
    cbn [mbind res_bind]. intros [= <-]. by destruct ok.
  - destruct (values !! i) as [v|]; [|done].
    destruct (literalString v) as [[[str ok] warned]| |]; [|done..].
    cbn [mbind res_bind]. intros [= <-]. by destruct ok.
  - destruct (values !! i) as [[| b | |]|]; try by intros [= <-].
    repeat case_decide; by intros [= <-].
  - by intros [= <-].
Qed.

Lemma processDecl_Package d st st' :
  processDecl d st = Ok st' → Package st'.1 = Package st.1.
Proof.
  unfold processDecl. case_decide; [by intros [= <-]|].
  revert st. induction (Specs d) as [|spec specs IH]; intros st.
  - by intros [= <-].
  - cbn [res_foldl].
    destruct (processSpec st spec) as [st1| |] eqn:Hspec; [|done..].
    cbn [mbind res_bind]. intros Hrun%IH. rewrite Hrun.
    clear -Hspec. destruct spec as [names values|]; [|by injection Hspec as <-].
    cbn [processSpec] in Hspec. revert st Hspec.
    induction (imap pair names) as [|iname l IHl]; intros st Hspec.
    + by injection Hspec as <-.
    + cbn [res_foldl] in Hspec.
      destruct (processName values st iname) as [st2| |] eqn:Hname; [|done..].
      cbn [mbind res_bind] in Hspec. apply IHl in Hspec. rewrite Hspec.
      by eapply processName_Package.
Qed.

(** The functions of a file, in order. *)
Definition funcs (f : File) : list FuncDecl :=
  omap (λ d, match d with DFunc fn => Some fn | _ => None end) (Decls f).

Lemma inspect_spec (decls : list Decl) params rules log params' rules' log' :
  res_foldl (inspect printer_Fprint) (params, rules, log) decls
  = Ok (params', rules', log') →
  Forall shaped rules →
  Package params' = Package params
  ∧ Forall shaped rules'
  ∧ (∃ rss,
       Forall2 (λ fn rs, processFunction printer_Fprint fn [] = Ok rs)
         (omap (λ d, match d with DFunc fn => Some fn | _ => None end) decls)
         rss
       ∧ rules' = rules ++ concat rss)
  ∧ ((∀ d, DGen d ∈ decls → Tok d ≠ CONST) → params' = params).
Proof.
  revert params rules log.
  induction decls as [|d decls IH]; intros params rules log Hrun Hshaped.
  - injection Hrun as <- <- <-. split_and!; [done..| |done].
    exists []. split; [constructor|]. by rewrite app_nil_r.
  - cbn [res_foldl] in Hrun. destruct d as [gd|fn|].
    + cbn [inspect] in Hrun.
      destruct (processDecl gd (params, log)) as [[params1 log1]| |] eqn:Hdecl;
        [|done..].
      cbn [mbind res_bind] in Hrun.
      destruct (IH _ _ _ Hrun Hshaped) as (Hpkg & Hsh & Hrules & Hparams).
      split_and!; [|done|done|].
      * rewrite Hpkg. by apply (processDecl_Package gd (params, log) (params1, log1)).
      * intros Hconst. rewrite Hparams by (intros d' Hd'; apply Hconst; by right).
        unfold processDecl in Hdecl.
        rewrite decide_True in Hdecl by (apply Hconst; left).
        by injection Hdecl as <- _.
    + cbn [inspect] in Hrun.
      destruct (processFunction _ fn rules) as [rules1| |] eqn:Hfn; [|done..].
      cbn [mbind res_bind] in Hrun.
      pose proof (processFunction_shaped _ _ _ Hshaped Hfn) as Hshaped1.
      destruct (IH _ _ _ Hrun Hshaped1)
        as (Hpkg & Hsh & (rss & Hrss & ->) & Hparams).
      rewrite processFunction_base in Hfn.
      destruct (processFunction _ fn []) as [rs| |] eqn:Hfn0; [|done..].
      cbn [mbind res_bind] in Hfn. injection Hfn as <-.
      split_and!; [done|done| |].
      * exists (rs :: rss). cbn [omap]. split; [by constructor|].
        cbn [concat]. by rewrite app_assoc.
      * intros Hconst. apply Hparams. intros d' Hd'. apply Hconst. by right.
    + cbn [inspect mbind res_bind] in Hrun.
      destruct (IH _ _ _ Hrun Hshaped) as (Hpkg & Hsh & Hrules & Hparams).
      split_and!; [done..|].
      intros Hconst. apply Hparams. intros d' Hd'. apply Hconst. by right.
Qed.

(** X20.  What [Parse] returns for a file.  The package of the parameters is
    the package of the file.  The rules are those of the functions of the
    file, function after function in the order of the file, each
    function read on its own.  Every rule has a pattern that is not
    empty and as many variables as symbols.  Without a [const]
    declaration the parameters are the defaults: no prefix, the token
    type [Token], no trace. *)
Theorem Parse_result (f : File) params rules log :
  Parse printer_Fprint (inr f) = Ok (inr (params, rules), log) →
  Package params = PkgName f
  ∧ (∃ rss,
       Forall2 (λ fn rs, processFunction printer_Fprint fn [] = Ok rs)
               (funcs f) rss
       ∧ rules = concat rss)
  ∧ Forall shaped rules
  ∧ ((∀ d, DGen d ∈ Decls f → Tok d ≠ CONST) →
     params = mkParams "" (PkgName f) "Token" false).
Proof.
  unfold Parse. cbv zeta.
  destruct (res_foldl _ _ (Decls f)) as [[[params1 rules1] log1]| |] eqn:Hrun;
    [|done..].
  cbn [mbind res_bind]. intros [= -> -> ->].
  destruct (inspect_spec _ _ _ _ _ _ _ Hrun ltac:(constructor))
    as (Hpkg & Hsh & (rss & Hrss & ->) & Hparams).
  split_and!; [done| |done|done].
  by exists rss.
Qed.

End Reader.

(** A function with two calls of [syntax], and a printer that gives the
    number of the statements it prints. *)
Definition syntaxStmt (pattern : string) : Stmt :=
  ExprStmt (CallExpr (Ident "syntax")
              [BasicLit STRING ("`" +:+ pattern +:+ "`")]).

Definition sumDecl : FuncDecl :=
  mkFuncDecl "expr" (Some [Ident "int"])
    (Some [OtherStmt 0; syntaxStmt "A=expr + B=expr"; OtherStmt 1;
           OtherStmt 2; syntaxStmt "num"]).

Definition countPrinter (n : Node) : string + string :=
  match n with
  | NStmts code => inl (lr.itoa (Z.of_nat (length code)))
  | NExpr (Ident name) => inl name
  | NExpr _ => inr "unprintable"
  end.

Lemma processFunction_rules_witness :
  processFunction countPrinter sumDecl []
  = Ok [mkRule "expr" "int" ["expr"; "+"; "expr"] ["A"; ""; "B"] "2";
        mkRule "expr" "int" ["num"] [""] "0"].
Proof.
  apply (processFunction_rules countPrinter sumDecl [OtherStmt 0]
           [mkSegment (syntaxStmt "A=expr + B=expr") "A=expr + B=expr"
              [OtherStmt 1; OtherStmt 2] "2";
            mkSegment (syntaxStmt "num") "num" [] "0"] "int" []).
  - reflexivity.
  - by repeat constructor.
  - by repeat constructor.
  - reflexivity.
Defined.

Lemma Parse_result_witness :
  ∃ params rules log,
    Parse countPrinter
      (inr (mkFile "calc" [DGen (mkGenDecl VAR []); DFunc sumDecl]))
    = Ok (inr (params, rules), log)
    ∧ Package params = "calc"
    ∧ (∃ rss,
         Forall2 (λ fn rs, processFunction countPrinter fn [] = Ok rs)
                 [sumDecl] rss
         ∧ rules = concat rss)
    ∧ Forall shaped rules
    ∧ ((∀ d, DGen d ∈ [DGen (mkGenDecl VAR []); DFunc sumDecl] →
          Tok d ≠ CONST) →
       params = mkParams "" "calc" "Token" false).
Proof.
  assert (holds (Parse countPrinter
                   (inr (mkFile "calc" [DGen (mkGenDecl VAR []); DFunc sumDecl])))
            (λ r, match r.1 with inr _ => True | inl _ => False end)) as Hok.
  { vm_compute. exact I. }
  apply holds_inv in Hok as ([[err|[params rules]] log] & Hrun & Hinr);
    [destruct Hinr|].
  exists params, rules, log. split; [exact Hrun|].
  exact (Parse_result countPrinter _ _ _ _ Hrun).
Defined.

End input_facts.
